(** * The two-stage routing pipeline of src/main.cpp

    A shallow embedding of the lock-free single-producer/single-consumer
    queue, the configuration loader, the latency percentile, the producer
    loop, the worker start-up and the monitoring loop, with the properties
    stated about them. *)

From Stdlib Require Import ZArith List Lia Bool Floats.
From stdpp Require Import base list strings sorting.

Local Open Scope Z_scope.

(** ** Machine integers

    [size_t] and [uint64_t] are 64-bit, [uint32_t] is 32-bit and [uint8_t]
    8-bit unsigned; a value is a [Z] and every operation that can leave the
    range is followed by its wrap-around. *)

Definition wrap8 (z : Z) : Z := z mod 2 ^ 8.
Definition wrap32 (z : Z) : Z := z mod 2 ^ 32.
Definition wrap64 (z : Z) : Z := z mod 2 ^ 64.

(** [int] is 32-bit two's complement. *)
Definition wrap_int (z : Z) : Z := (z + 2 ^ 31) mod 2 ^ 32 - 2 ^ 31.

(** ** SPSCQueue<T, Capacity> *)

Module SPSC.
Section Queue.

Context {T : Type}.
Variable Capacity : Z.

(** [buffer_] is the [std::array<T, Capacity>]; [head_] and [tail_] are the
    two atomic indices. *)
Record SPSCQueue : Type := mkQueue {
  buffer_ : list T;
  head_ : Z;
  tail_ : Z
}.

(** Array read [buffer_[i]]; [item] is what the destination held before. *)
Definition slot (buf : list T) (i : Z) (item : T) : T :=
  match buf !! Z.to_nat i with
  | Some x => x
  | None => item
  end.

(** The constructor sets both indices to 0; the array elements are whatever
    the storage held, given here as [init]. *)
Definition new (init : list T) : SPSCQueue :=
  {| buffer_ := init; head_ := 0; tail_ := 0 |}.

Definition push (q : SPSCQueue) (item : T) : bool * SPSCQueue :=
  let head := head_ q in
  let next := wrap64 (head + 1) mod Capacity in
  if next =? tail_ q then (false, q)
  else (true, {| buffer_ := <[Z.to_nat head := item]> (buffer_ q);
                 head_ := next;
                 tail_ := tail_ q |}).

(** [pop] has an out-parameter: the result carries the value of [item] after
    the call, which is the old one when the queue is empty. *)
Definition pop (q : SPSCQueue) (item : T) : bool * T * SPSCQueue :=
  let tail := tail_ q in
  if tail =? head_ q then (false, item, q)
  else (true, slot (buffer_ q) tail item,
        {| buffer_ := buffer_ q;
           head_ := head_ q;
           tail_ := wrap64 (tail + 1) mod Capacity |}).

Definition size (q : SPSCQueue) : Z :=
  wrap64 (wrap64 (head_ q + Capacity) - tail_ q) mod Capacity.

(** The class invariant: both indices address the array. *)
Definition wf (q : SPSCQueue) : Prop :=
  Z.of_nat (length (buffer_ q)) = Capacity /\
  0 <= head_ q < Capacity /\ 0 <= tail_ q < Capacity.

(** The elements the queue holds, oldest first: [n] slots from index [t]
    on, around the end of the array. *)
Definition window (buf : list T) (t : Z) (n : nat) : list (option T) :=
  map (fun k => buf !! Z.to_nat ((t + Z.of_nat k) mod Capacity)) (seq 0 n).

Definition contents (q : SPSCQueue) : list (option T) :=
  window (buffer_ q) (tail_ q) (Z.to_nat (size q)).

(** *** The two operations, one shared-memory access at a time

    [push] and [pop] run on different threads. Each reads and writes the
    shared queue in four accesses; a thread's program point records what it
    has loaded so far. The accesses of the two threads take effect one
    after the other, in any order: the memory is sequentially consistent,
    which is stronger than the acquire and release orders the source asks
    for. *)

Inductive producer_pc : Type :=
| PIdle
| PLoadedHead (item : T) (head next : Z)
| PChecked (item : T) (head next : Z)
| PWritten (item : T) (next : Z).

Inductive consumer_pc : Type :=
| CIdle
| CLoadedTail (item : T) (tail : Z)
| CChecked (item : T) (tail : Z)
| CCopied (item : T) (tail : Z).

(** [pushed] and [popped] log the items of the calls that returned [true],
    in the order the calls returned. *)
Record system : Type := mkSystem {
  queue : SPSCQueue;
  ppc : producer_pc;
  cpc : consumer_pc;
  pushed : list T;
  popped : list T
}.

Definition start (init : list T) : system :=
  {| queue := new init; ppc := PIdle; cpc := CIdle; pushed := []; popped := [] |}.

(** Who moves next. A thread that enters its operation passes the argument:
    the item to push, or what the caller's variable holds before [pop]. *)
Inductive move : Type :=
| Producer (item : T)
| Consumer (item : T).

Definition producer_step (item : T) (s : system) : system :=
  let q := queue s in
  match ppc s with
  | PIdle =>
      let head := head_ q in
      {| queue := q; ppc := PLoadedHead item head (wrap64 (head + 1) mod Capacity);
         cpc := cpc s; pushed := pushed s; popped := popped s |}
  | PLoadedHead it head next =>
      if next =? tail_ q
      then {| queue := q; ppc := PIdle; cpc := cpc s;
              pushed := pushed s; popped := popped s |}
      else {| queue := q; ppc := PChecked it head next; cpc := cpc s;
              pushed := pushed s; popped := popped s |}
  | PChecked it head next =>
      {| queue := {| buffer_ := <[Z.to_nat head := it]> (buffer_ q);
                     head_ := head_ q; tail_ := tail_ q |};
         ppc := PWritten it next; cpc := cpc s;
         pushed := pushed s; popped := popped s |}
  | PWritten it next =>
      {| queue := {| buffer_ := buffer_ q; head_ := next; tail_ := tail_ q |};
         ppc := PIdle; cpc := cpc s;
         pushed := pushed s ++ [it]; popped := popped s |}
  end.

Definition consumer_step (item : T) (s : system) : system :=
  let q := queue s in
  match cpc s with
  | CIdle =>
      {| queue := q; ppc := ppc s; cpc := CLoadedTail item (tail_ q);
         pushed := pushed s; popped := popped s |}
  | CLoadedTail it tail =>
      if tail =? head_ q
      then {| queue := q; ppc := ppc s; cpc := CIdle;
              pushed := pushed s; popped := popped s |}
      else {| queue := q; ppc := ppc s; cpc := CChecked it tail;
              pushed := pushed s; popped := popped s |}
  | CChecked it tail =>
      {| queue := q; ppc := ppc s; cpc := CCopied (slot (buffer_ q) tail it) tail;
         pushed := pushed s; popped := popped s |}
  | CCopied it tail =>
      {| queue := {| buffer_ := buffer_ q; head_ := head_ q;
                     tail_ := wrap64 (tail + 1) mod Capacity |};
         ppc := ppc s; cpc := CIdle;
         pushed := pushed s; popped := popped s ++ [it] |}
  end.

Definition step (m : move) (s : system) : system :=
  match m with
  | Producer item => producer_step item s
  | Consumer item => consumer_step item s
  end.

Definition run (sched : list move) (s : system) : system :=
  fold_left (fun s m => step m s) sched s.

(** *** The invariant of the interleaved system

    What holds between any two accesses: the indices address the array,
    everything pushed and not yet popped is in the window in order, and each
    thread's loaded values still describe the queue. *)
Definition producer_inv (q : SPSCQueue) (pc : producer_pc) : Prop :=
  match pc with
  | PIdle => True
  | PLoadedHead _ h nx => h = head_ q /\ nx = (h + 1) mod Capacity
  | PChecked _ h nx =>
      h = head_ q /\ nx = (h + 1) mod Capacity /\ nx <> tail_ q
  | PWritten it nx =>
      nx = (head_ q + 1) mod Capacity /\ nx <> tail_ q /\
      buffer_ q !! Z.to_nat (head_ q) = Some it
  end.

Definition consumer_inv (q : SPSCQueue) (pc : consumer_pc) : Prop :=
  match pc with
  | CIdle => True
  | CLoadedTail _ t => t = tail_ q
  | CChecked _ t => t = tail_ q /\ t <> head_ q
  | CCopied it t =>
      t = tail_ q /\ t <> head_ q /\
      buffer_ q !! Z.to_nat t = Some it
  end.

Definition live (q : SPSCQueue) : list (option T) :=
  window (buffer_ q) (tail_ q)
    (Z.to_nat ((head_ q - tail_ q) mod Capacity)).

Definition inv (s : system) : Prop :=
  wf (queue s) /\
  Some <$> pushed s = (Some <$> popped s) ++ live (queue s) /\
  producer_inv (queue s) (ppc s) /\
  consumer_inv (queue s) (cpc s).

End Queue.

Arguments SPSCQueue : clear implicits.
Arguments producer_pc : clear implicits.
Arguments consumer_pc : clear implicits.
Arguments system : clear implicits.
Arguments move : clear implicits.

End SPSC.

(** ** Results of code that can throw

    [Throw] is a C++ exception leaving the function; [Undefined] is an
    access outside a [std::vector], which the language leaves undefined. *)

Inductive error : Type :=
| runtime_error (what : string)
| parse_error
| type_error (id : Z)
| filesystem_error
| bad_alloc.

Inductive outcome (A : Type) : Type :=
| Ok (a : A)
| Throw (e : error)
| Undefined.
Arguments Ok {A} a.
Arguments Throw {A} e.
Arguments Undefined {A}.

#[global] Instance outcome_bind : MBind outcome := fun A B k m =>
  match m with
  | Ok a => k a
  | Throw e => Throw e
  | Undefined => Undefined
  end.

(** ** The JSON values load_config reads

    The JSON library (include/json.hpp, nlohmann::json) is third-party
    code. load_config is written against the four operations it applies to
    a JSON value: [j[key]], [j[idx]], the conversion to [int] and the
    range-for. The first three can throw. *)

Class Json (J : Type) : Type := {
  at_key : string -> J -> outcome J;
  at_idx : nat -> J -> outcome J;
  to_int : J -> outcome Z;
  items : J -> list J
}.

(** A tree of JSON values, to run the loader on documents. Its operations
    follow what the library documents for a non-const value: [j[key]] and
    [j[idx]] on a missing member or element yield null, on null yield null,
    and throw type_error 305 on a value of another kind; the conversion to
    [int] casts a number or a boolean and throws type_error 302 on anything
    else; a range-for visits the elements of an array, the member values of
    an object, nothing for null and the value itself for a scalar. Numbers
    are the integers; a number with a fraction is not covered. *)

#[local] Set Warnings "-register-all".
Inductive json : Type :=
| JNull
| JBool (b : bool)
| JNum (z : Z)
| JStr (s : string)
| JArr (elems : list json)
| JObj (members : list (string * json)).

Fixpoint assoc (key : string) (members : list (string * json)) : json :=
  match members with
  | [] => JNull
  | (k, v) :: rest => if String.eqb k key then v else assoc key rest
  end.

Definition tree_at_key (key : string) (j : json) : outcome json :=
  match j with
  | JNull => Ok JNull
  | JObj members => Ok (assoc key members)
  | _ => Throw (type_error 305)
  end.

Definition tree_at_idx (idx : nat) (j : json) : outcome json :=
  match j with
  | JNull => Ok JNull
  | JArr elems => Ok (nth idx elems JNull)
  | _ => Throw (type_error 305)
  end.

Definition tree_to_int (j : json) : outcome Z :=
  match j with
  | JNum z => Ok (wrap_int z)
  | JBool b => Ok (if b then 1 else 0)
  | _ => Throw (type_error 302)
  end.

Definition tree_items (j : json) : list json :=
  match j with
  | JNull => []
  | JArr elems => elems
  | JObj members => map snd members
  | _ => [j]
  end.

#[global] Instance tree_json : Json json := {|
  at_key := tree_at_key;
  at_idx := tree_at_idx;
  to_int := tree_to_int;
  items := tree_items
|}.

(** ** Config and load_config *)

Record Config : Type := mkConfig {
  duration_secs : Z;
  producer_count : Z;
  processor_count : Z;
  strategy_count : Z;
  stage1_routing : list Z;
  stage2_routing : list Z
}.

(** What the path names: nothing that opens, text that does not parse, or a
    JSON document. *)
Inductive file (J : Type) : Type :=
| NoFile
| Garbage
| Document (j : J).
Arguments NoFile {J}.
Arguments Garbage {J}.
Arguments Document {J} j.

(** [routing[type] = value] on a [std::vector<int>]. *)
Definition assign (routing : list Z) (type value : Z) : outcome (list Z) :=
  if (0 <=? type) && (type <? Z.of_nat (length routing))
  then Ok (<[Z.to_nat type := value]> routing)
  else Undefined.

Section Loader.

Context {J : Type} `{!Json J}.

(** One pass of the loop over "stage1_rules". *)
Definition stage1_rule (routing : list Z) (rule : J) : outcome (list Z) :=
  t ← at_key "msg_type" rule;
  type ← to_int t;
  ps ← at_key "processors" rule;
  p0 ← at_idx 0 ps;
  value ← to_int p0;
  assign routing type value.

(** One pass of the loop over "stage2_rules". *)
Definition stage2_rule (routing : list Z) (rule : J) : outcome (list Z) :=
  t ← at_key "msg_type" rule;
  type ← to_int t;
  s ← at_key "strategy" rule;
  value ← to_int s;
  assign routing type value.

Fixpoint for_each {A B : Type} (body : A -> B -> outcome A) (acc : A) (l : list B)
  : outcome A :=
  match l with
  | [] => Ok acc
  | x :: rest => acc' ← body acc x; for_each body acc' rest
  end.

Definition int_field (j : J) (key : string) : outcome Z :=
  v ← at_key key j; to_int v.

Definition count_field (j : J) (section : string) : outcome Z :=
  s ← at_key section j; int_field s "count".

Definition load_config (fs : string -> file J) (path : string) : outcome Config :=
  match fs path with
  | NoFile => Throw (runtime_error ("Cannot open config file: " ++ path))
  | Garbage => Throw parse_error
  | Document j =>
      duration ← int_field j "duration_secs";
      producers ← count_field j "producers";
      processors ← count_field j "processors";
      strategies ← count_field j "strategies";
      rules1 ← at_key "stage1_rules" j;
      routing1 ← for_each stage1_rule (replicate 8 0) (items rules1);
      rules2 ← at_key "stage2_rules" j;
      routing2 ← for_each stage2_rule (replicate 8 0) (items rules2);
      Ok {| duration_secs := duration;
            producer_count := producers;
            processor_count := processors;
            strategy_count := strategies;
            stage1_routing := routing1;
            stage2_routing := routing2 |}
  end.

End Loader.

(** ** Message and the queues of main *)

Record Message : Type := mkMessage {
  msg_type : Z;
  producer_id : Z;
  sequence : Z;
  timestamp_ns : Z;
  processor_id : Z;
  processed_ns : Z
}.

Definition QUEUE_SIZE : Z := Z.shiftl 1 14.

Abbreviation Queue := (SPSC.SPSCQueue Message).

(** [v[i]] on a [std::vector], read. *)
Definition index {A : Type} (v : list A) (i : Z) : outcome A :=
  if 0 <=? i
  then match v !! Z.to_nat i with
       | Some x => Ok x
       | None => Undefined
       end
  else Undefined.

(** ** A push on a queue that other threads use at the same time

    Every producer pushes the Stage-1 queue its message is routed to, and
    every processor the Stage-2 queue its message is routed to, so a queue
    of main can have several threads inside [push] at once, next to the one
    thread that pops it. [push] is four accesses to the queue: the load of
    [head_], the load of [tail_], the store to the slot and the store of
    [head_]. The accesses of the threads take effect one after the other,
    as in the model of the queue above; here the thread that pushes is
    followed and the other threads are what happens to the queue between
    its accesses. (Two threads that store to one slot without ordering are
    a data race, which the language leaves undefined; what is followed is
    what the stores do when they take effect in some order.)

    The queue handed to [racing_push] is the queue as it is when the call
    loads [tail_]. [head_read] is the value its load of [head_] returned
    before that: the [head_] of that queue unless another thread stored
    [head_] in between. [before_slot] is what the other threads do between
    the load of [tail_] and the store to the slot, [before_head] what they
    do between the store to the slot and the store of [head_]. *)
Record race : Type := mkRace {
  head_read : Queue -> Z;
  before_slot : Queue -> Queue;
  before_head : Queue -> Queue
}.

Definition racing_push (r : race) (q : Queue) (item : Message) : bool * Queue :=
  let head := head_read r q in
  let next := wrap64 (head + 1) mod QUEUE_SIZE in
  if next =? SPSC.tail_ q then (false, q)
  else
    let q2 := before_slot r q in
    let q3 := before_head r
                {| SPSC.buffer_ := <[Z.to_nat head := item]> (SPSC.buffer_ q2);
                   SPSC.head_ := SPSC.head_ q2;
                   SPSC.tail_ := SPSC.tail_ q2 |} in
    (true,
     {| SPSC.buffer_ := SPSC.buffer_ q3;
        SPSC.head_ := next;
        SPSC.tail_ := SPSC.tail_ q3 |}).

(** No other thread touches the queue while the call runs. *)
Definition calm : race :=
  {| head_read := SPSC.head_;
     before_slot := fun q => q;
     before_head := fun q => q |}.

(** ** The producer thread

    What one pass of the loop takes from outside the thread: the value of
    the stop flag at the loop test, the type the distribution draws, the
    clock, the bytes the uninitialised [msg] starts with, what the other
    threads did to the Stage-1 queues between the last pass and the load of
    [tail_] in this one, and what they do to the queue pushed while the
    push runs. *)
Record tick : Type := mkTick {
  stop_seen : bool;
  drawn : Z;
  clock : Z;
  junk : Message;
  meanwhile : list Queue -> list Queue;
  pushing : race
}.

(** [seq] is the thread's own counter; the queues and [produced] are the
    objects of main the lambda captures by reference. *)
Record producer_state : Type := mkProducer {
  seq_ : Z;
  stage1_queues : list Queue;
  produced : Z
}.

(** The body of the while loop. The result names the message built in this
    pass and what [push] returned for it. *)
Definition producer_body (cfg : Config) (pid : Z) (t : tick) (st : producer_state)
  : outcome (Message * bool * producer_state) :=
  let msg := {| msg_type := wrap8 (drawn t);
                producer_id := wrap8 pid;
                sequence := seq_ st;
                timestamp_ns := clock t;
                processor_id := processor_id (junk t);
                processed_ns := processed_ns (junk t) |} in
  let seq' := wrap32 (seq_ st + 1) in
  proc_id ← index (stage1_routing cfg) (msg_type msg);
  let queues := meanwhile t (stage1_queues st) in
  q ← index queues proc_id;
  let '(ok, q') := racing_push (pushing t) q msg in
  Ok (msg, ok,
      {| seq_ := seq';
         stage1_queues := <[Z.to_nat proc_id := q']> queues;
         produced := if ok then wrap64 (produced st + 1) else produced st |}).

(** The while loop, for as many passes as there are ticks; it ends early at
    the first tick that sees the stop flag set. *)
Fixpoint producer_loop (cfg : Config) (pid : Z) (ticks : list tick) (st : producer_state)
  : outcome (list (Message * bool) * producer_state) :=
  match ticks with
  | [] => Ok ([], st)
  | t :: rest =>
      if stop_seen t then Ok ([], st)
      else
        r ← producer_body cfg pid t st;
        let '(msg, ok, st') := r in
        r' ← producer_loop cfg pid rest st';
        let '(log, st'') := r' in
        Ok ((msg, ok) :: log, st'')
  end.

(** The thread starts with [seq = 0]. *)
Definition producer_thread (cfg : Config) (pid : Z) (ticks : list tick)
    (queues : list Queue) (produced0 : Z)
  : outcome (list (Message * bool) * producer_state) :=
  producer_loop cfg pid ticks
    {| seq_ := 0; stage1_queues := queues; produced := produced0 |}.

(** ** main, up to the last spawned thread *)

Inductive thread : Type :=
| ProducerThread (pid : Z)
| ProcessorThread (proc_id : Z)
| StrategyThread (sid : Z).

(** [for (int i = 0; i < n; ++i)] *)
Definition count_up (n : Z) : list Z := Z.of_nat <$> seq 0 (Z.to_nat n).

(** The three spawning loops, in the order main runs them; the list is the
    order in which the threads are created. *)
Definition spawn (cfg : Config) : list thread :=
  (ProducerThread <$> count_up (producer_count cfg)) ++
  (ProcessorThread <$> count_up (processor_count cfg)) ++
  (StrategyThread <$> count_up (strategy_count cfg)).

(** [std::filesystem::path(p).stem().string()] where the directory
    separator is the slash: the file name is what follows the last slash,
    and its stem is the file name up to its last period, or the whole file
    name when that is "." or "..", has no period, or has its only period in
    front. Character 47 is the slash and 46 the period. *)
Fixpoint after_last (c : Ascii.ascii) (s : string) : option string :=
  match s with
  | EmptyString => None
  | String a rest =>
      match after_last c rest with
      | Some r => Some r
      | None => if Ascii.eqb a c then Some rest else None
      end
  end.

Fixpoint before_last (c : Ascii.ascii) (s : string) : option string :=
  match s with
  | EmptyString => None
  | String a rest =>
      match before_last c rest with
      | Some r => Some (String a r)
      | None => if Ascii.eqb a c then Some EmptyString else None
      end
  end.

Definition filename (p : string) : string :=
  default p (after_last (Ascii.ascii_of_nat 47) p).

Definition stem (p : string) : string :=
  let f := filename p in
  if String.eqb f "." || String.eqb f ".." then f
  else match before_last (Ascii.ascii_of_nat 46) f with
       | Some EmptyString | None => f
       | Some b => b
       end.

(** What main meets outside the program before its threads run:
    whether [std::filesystem::create_directories] returns for a path or
    throws, what the n-th pass of the queue-building loops finds when it
    allocates ([None]: no memory; otherwise the bytes the array of the new
    queue starts with), and how many threads the system starts before the
    constructor of [std::thread] throws. *)
Record world : Type := mkWorld {
  mkdir : string -> bool;
  storage : nat -> option (nat -> Message);
  thread_limit : nat
}.

(** [n] passes of [queues.push_back(std::make_unique<SPSCQueue<...>>())],
    the first of them the allocating pass number [from] of the run. The
    constructor of a queue sets both indices to 0 and leaves the array as
    the storage holds it. *)
Fixpoint make_queues (w : world) (from n : nat) : outcome (list Queue) :=
  match n with
  | O => Ok []
  | S n' =>
      match storage w from with
      | None => Throw bad_alloc
      | Some bytes =>
          qs ← make_queues w (S from) n';
          Ok (SPSC.new (bytes <$> seq 0 (Z.to_nat QUEUE_SIZE)) :: qs)
      end
  end.

(** The two loops of main, over [processor_count] and [strategy_count]. *)
Definition build_queues (w : world) (cfg : Config) : outcome (list Queue * list Queue) :=
  queues1 ← make_queues w 0 (Z.to_nat (processor_count cfg));
  queues2 ← make_queues w (Z.to_nat (processor_count cfg))
              (Z.to_nat (strategy_count cfg));
  Ok (queues1, queues2).

(** Where main is once the spawning loops are over. [Usage] is the
    [return 1] of the argument check. [Running] has the two files main
    opened, the queues and the threads, in the order of their creation.
    [Stalled] is the run in which the constructor of [std::thread] threw
    [std::system_error] after the threads listed were created; main does not
    catch it. *)
Inductive started : Type :=
| Usage
| Running (cfg : Config) (opened : list string)
    (queues1 queues2 : list Queue) (threads : list thread)
| Stalled (cfg : Config) (threads : list thread).

(** main from its first line to the last spawning loop. An exception of
    create_directories, of load_config or of an allocation is not caught
    and ends the process. The constructor of [std::ofstream] does not throw
    when the file cannot be opened: main goes on with a stream that writes
    nothing. *)
Definition main_start {J : Type} `{!Json J} (w : world) (argv : list string)
    (fs : string -> file J) : outcome started :=
  match argv with
  | _ :: config_path :: results_dir :: _ =>
      if mkdir w results_dir then
        let scenario := stem config_path in
        let log_path := (results_dir ++ "/" ++ scenario ++ "_log.txt")%string in
        let summary_path :=
          (results_dir ++ "/" ++ scenario ++ "_summary.txt")%string in
        cfg ← load_config fs config_path;
        queues ← build_queues w cfg;
        if (length (spawn cfg) <=? thread_limit w)%nat
        then Ok (Running cfg [log_path; summary_path] (fst queues) (snd queues)
                   (spawn cfg))
        else Ok (Stalled cfg (take (thread_limit w) (spawn cfg)))
      else Throw filesystem_error
  | _ => Ok Usage
  end.

(** The threads a run created. *)
Definition spawned (r : outcome started) : list thread :=
  match r with
  | Ok (Running _ _ _ _ threads) => threads
  | Ok (Stalled _ threads) => threads
  | _ => []
  end.

(** ** double

    A [double] is Rocq's primitive binary64 float. *)

Definition double_of_Z (z : Z) : float :=
  SF2Prim (binary_normalize prec emax z 0 false).

(** The integer part, for a conversion to an integer type. *)
Definition truncate (x : float) : option Z :=
  match Prim2SF x with
  | S754_zero _ => Some 0
  | S754_finite s m e =>
      Some (if s then - Z.shiftl (Z.pos m) e else Z.shiftl (Z.pos m) e)
  | _ => None
  end.

(** [(size_t)x]: undefined when the integer part is not a [size_t]. *)
Definition size_t_of_double (x : float) : outcome Z :=
  match truncate x with
  | Some z => if (0 <=? z) && (z <? 2 ^ 64) then Ok z else Undefined
  | None => Undefined
  end.

(** ** The monitoring loop *)

Record counters : Type := mkCounters {
  prev_prod : Z;
  prev_proc : Z;
  prev_del : Z
}.

(** The three loads at the top of a pass. *)
Record snapshot : Type := mkSnapshot {
  snap_p : Z;
  snap_r : Z;
  snap_d : Z
}.

(** The numbers of one log line. *)
Record line : Type := mkLine {
  produced_m : float;
  processed_m : float;
  delivered_m : float;
  lost_now : Z;
  lost_m : float
}.

Definition monitor_body (prev : counters) (s : snapshot) : line * counters :=
  let p := snap_p s in
  let r := snap_r s in
  let d := snap_d s in
  let lost := wrap64 (wrap64 (p - d) - wrap64 (prev_prod prev - prev_del prev)) in
  ({| produced_m := double_of_Z (wrap64 (p - prev_prod prev)) / 1e6;
      processed_m := double_of_Z (wrap64 (r - prev_proc prev)) / 1e6;
      delivered_m := double_of_Z (wrap64 (d - prev_del prev)) / 1e6;
      lost_now := lost;
      lost_m := double_of_Z lost / 1e6 |},
   {| prev_prod := p; prev_proc := r; prev_del := d |}).

Fixpoint monitor_loop (prev : counters) (snaps : list snapshot) : list line :=
  match snaps with
  | [] => []
  | s :: rest =>
      let '(l, prev') := monitor_body prev s in
      l :: monitor_loop prev' rest
  end.

(** The loop as main enters it. *)
Definition monitor (snaps : list snapshot) : list line :=
  monitor_loop {| prev_prod := 0; prev_proc := 0; prev_del := 0 |} snaps.

(** ** LatencyStats::percentile *)

(** [std::sort] with [operator<]: insertion into an ascending list. *)
Fixpoint insert_sorted (x : float) (l : list float) : list float :=
  match l with
  | [] => [x]
  | y :: rest => if (x <? y)%float then x :: l else y :: insert_sorted x rest
  end.

Definition sort (v : list float) : list float :=
  foldr insert_sorted [] v.

(** The result is the returned value with the vector as the call leaves
    it. *)
Definition percentile (v : list float) (p : float) : outcome (float * list float) :=
  match v with
  | [] => Ok (0%float, v)
  | _ =>
      let sorted := sort v in
      let n := Z.of_nat (length sorted) in
      i ← size_t_of_double (p * double_of_Z n);
      let idx := Z.min i (wrap64 (n - 1)) in
      x ← index sorted idx;
      Ok (x, sorted)
  end.

(** ** Vocabulary of the statements *)

Section Rules.

Context {J : Type} `{!Json J}.

(** The type a rule names, as the loop body reads it. *)
Definition rule_type (rule : J) : outcome Z :=
  t ← at_key "msg_type" rule; to_int t.

(** The value a Stage-1 rule assigns, [rule["processors"][0]]. *)
Definition first_processor (rule : J) : outcome Z :=
  ps ← at_key "processors" rule; p0 ← at_idx 0 ps; to_int p0.

(** The value a Stage-2 rule assigns, [rule["strategy"]]. *)
Definition rule_strategy (rule : J) : outcome Z :=
  s ← at_key "strategy" rule; to_int s.

(** The rules the two loops of load_config visit. *)
Definition rules_of (key : string) (j : J) : list J :=
  match at_key key j with
  | Ok rules => items rules
  | _ => []
  end.

End Rules.


Definition is_producer (t : thread) : Prop :=
  match t with ProducerThread _ => True | _ => False end.
Definition is_processor (t : thread) : Prop :=
  match t with ProcessorThread _ => True | _ => False end.
Definition is_strategy (t : thread) : Prop :=
  match t with StrategyThread _ => True | _ => False end.

(** In the creation order [l], every thread of kind [P] comes before every
    thread of kind [Q]. *)
Definition created_before (P Q : thread -> Prop) (l : list thread) : Prop :=
  forall (i j : nat) (a b : thread),
    l !! i = Some a -> l !! j = Some b -> P a -> Q b -> (i < j)%nat.

(** The passes of a producer log whose push was accepted. *)
Definition accepted (log : list (Message * bool)) : Z :=
  Z.of_nat (length (filter (fun e => snd e = true) log)).

(** ** Configuration documents for the examples *)

Definition rule1 (type : Z) (processors : list Z) : json :=
  JObj [("msg_type", JNum type); ("processors", JArr (JNum <$> processors))].

Definition rule2 (type strategy : Z) : json :=
  JObj [("msg_type", JNum type); ("strategy", JNum strategy)].

Definition document (duration producers processors strategies : Z)
    (rules1 rules2 : list json) : json :=
  JObj [("duration_secs", JNum duration);
        ("producers", JObj [("count", JNum producers)]);
        ("processors", JObj [("count", JNum processors)]);
        ("strategies", JObj [("count", JNum strategies)]);
        ("stage1_rules", JArr rules1);
        ("stage2_rules", JArr rules2)].

(** A file system that holds one document, under every name. *)
Definition only (j : json) : string -> file json := fun _ => Document j.


(** Type 2 names three processors. *)
Definition fanout_document : json :=
  document 1 1 4 1 [rule1 2 [3; 1; 2]] [rule2 2 0].

(** One thread of each kind and no rules. *)
Definition unit_document : json :=
  document 1 1 1 1 [] [].

(** A queue of main with every slot holding [m] and [QUEUE_SIZE - 1] of
    them live: the next push is refused. *)
Definition full_queue (m : Message) : Queue :=
  {| SPSC.buffer_ := replicate (Z.to_nat QUEUE_SIZE) m;
     SPSC.head_ := QUEUE_SIZE - 1;
     SPSC.tail_ := 0 |}.

Definition empty_queue (m : Message) : Queue :=
  SPSC.new (replicate (Z.to_nat QUEUE_SIZE) m).

Definition zero_message : Message := mkMessage 0 0 0 0 0 0.

(** A pass that draws [type] at time [now] while the other threads leave the
    queues alone. *)
Definition quiet_tick (type now : Z) : tick :=
  {| stop_seen := false; drawn := type; clock := now;
     junk := zero_message; meanwhile := fun queues => queues;
     pushing := calm |}.

(** One thread of each kind, every type routed to queue 0. *)
Definition flat_config : Config :=
  mkConfig 1 1 1 1 (replicate 8 0) (replicate 8 0).

(** A world that refuses nothing: every directory can be created, memory
    is zeroed and there is enough of it, and a thousand threads start. *)
Definition fair_world : world :=
  {| mkdir := fun _ => true;
     storage := fun _ => Some (fun _ => zero_message);
     thread_limit := 1000 |}.

(** The message a pass builds from its tick. *)
Definition built (pid : Z) (t : tick) (seq : Z) : Message :=
  {| msg_type := wrap8 (drawn t);
     producer_id := wrap8 pid;
     sequence := seq;
     timestamp_ns := clock t;
     processor_id := processor_id (junk t);
     processed_ns := processed_ns (junk t) |}.

(** The counters the pass for second [i] starts with: zeros in the first
    pass, afterwards the snapshot of the pass before. *)
Definition previous (snaps : list snapshot) (i : nat) : counters :=
  match i with
  | O => {| prev_prod := 0; prev_proc := 0; prev_del := 0 |}
  | S i' =>
      match snaps !! i' with
      | Some s => {| prev_prod := snap_p s; prev_proc := snap_r s; prev_del := snap_d s |}
      | None => {| prev_prod := 0; prev_proc := 0; prev_del := 0 |}
      end
  end.

(** A double that is not a NaN, and the order of [operator<=]. *)
Definition ordered (x : float) : Prop := is_nan x = false.

Definition fle (x y : float) : Prop := (x <=? y)%float = true.

(** The series 1, 2, ..., 100. *)
Definition one_to_hundred : list float :=
  (fun k => double_of_Z (Z.of_nat k)) <$> seq 1 100.

(** ** Calls in a row

    A batch of [push] calls, one per item, and a batch of [n] [pop] calls
    into the same variable, with what each call returned. *)

Fixpoint push_all {T : Type} (Capacity : Z) (q : SPSC.SPSCQueue T) (items : list T)
  : list bool * SPSC.SPSCQueue T :=
  match items with
  | [] => ([], q)
  | x :: rest =>
      let '(ok, q') := SPSC.push Capacity q x in
      let '(oks, q'') := push_all Capacity q' rest in
      (ok :: oks, q'')
  end.

Fixpoint pop_all {T : Type} (Capacity : Z) (q : SPSC.SPSCQueue T) (n : nat) (item : T)
  : list (bool * T) * SPSC.SPSCQueue T :=
  match n with
  | O => ([], q)
  | S n' =>
      let '(ok, item', q') := SPSC.pop Capacity q item in
      let '(rs, q'') := pop_all Capacity q' n' item' in
      ((ok, item') :: rs, q'')
  end.

(** The other threads only pop: what [f] does to a queue is some number
    of calls of [pop]. *)
Definition pops_only (f : Queue -> Queue) : Prop :=
  forall q, exists n, f q = snd (pop_all QUEUE_SIZE q n zero_message).

(** No other thread is inside [push] on the queue while the call runs: the
    head the call loaded is the current one, and between its accesses the
    other threads only pop. *)
Definition sole_pusher (r : race) : Prop :=
  (forall q, head_read r q = SPSC.head_ q) /\
  pops_only (before_slot r) /\ pops_only (before_head r).

(** ** The processor thread *)

Module Processor.

(** One turn of the inner loop: what the other threads did to the Stage-2
    queues before this push loads [tail_], what they do to the queue pushed
    while the push runs, and the value of the stop flag read after a
    refused push. *)
Record retry : Type := mkRetry {
  before_push : list Queue -> list Queue;
  pushing : race;
  stop_then : bool
}.

(** What one pass of the outer loop takes from outside the thread: the
    stop flag at the loop test, what the other threads did to the Stage-1
    queues before the pop, the clock, and the turns of the inner loop. *)
Record tick : Type := mkTick {
  stop_seen : bool;
  meanwhile : list Queue -> list Queue;
  clock : Z;
  retries : list retry
}.

(** [msg] is the thread's own variable, declared before the loop; the
    queues and [processed] are the objects of main the lambda captures by
    reference. *)
Record state : Type := mkState {
  msg : Message;
  stage1_queues : list Queue;
  stage2_queues : list Queue;
  processed : Z
}.

(** How the inner loop ends: the message is in its queue, the thread
    returned on the stop flag, or the turns at hand ran out with the thread
    still retrying. *)
Inductive forwarded : Type :=
| Pushed (queues : list Queue)
| Returned (queues : list Queue)
| Retrying (queues : list Queue).

Fixpoint forward (m : Message) (strat_id : Z) (turns : list retry) (queues : list Queue)
  : outcome forwarded :=
  match turns with
  | [] => Ok (Retrying queues)
  | r :: rest =>
      let queues := before_push r queues in
      q ← index queues strat_id;
      let '(ok, q') := racing_push (pushing r) q m in
      let queues' := <[Z.to_nat strat_id := q']> queues in
      if ok then Ok (Pushed queues')
      else if stop_then r then Ok (Returned queues')
      else forward m strat_id rest queues'
  end.

(** What a pass did. *)
Inductive pass : Type :=
| Idle
| Forwarded (m : Message) (strat_id : Z)
| Dropped (m : Message)
| Busy (m : Message).

(** The body of the outer loop. [stage1_us] and [processing_us] are
    computed and not used; they are left out. *)
Definition body (cfg : Config) (proc_id : Z) (t : tick) (st : state)
  : outcome (pass * state) :=
  let queues1 := meanwhile t (stage1_queues st) in
  q ← index queues1 proc_id;
  let '(ok, m, q') := SPSC.pop QUEUE_SIZE q (msg st) in
  let queues1' := <[Z.to_nat proc_id := q']> queues1 in
  if ok then
    let t_now := clock t in
    let m' := {| msg_type := msg_type m;
                 producer_id := producer_id m;
                 sequence := sequence m;
                 timestamp_ns := timestamp_ns m;
                 processor_id := wrap8 proc_id;
                 processed_ns := t_now |} in
    strat_id ← index (stage2_routing cfg) (msg_type m');
    r ← forward m' strat_id (retries t) (stage2_queues st);
    match r with
    | Pushed queues2 =>
        Ok (Forwarded m' strat_id,
            {| msg := m'; stage1_queues := queues1'; stage2_queues := queues2;
               processed := wrap64 (processed st + 1) |})
    | Returned queues2 =>
        Ok (Dropped m',
            {| msg := m'; stage1_queues := queues1'; stage2_queues := queues2;
               processed := processed st |})
    | Retrying queues2 =>
        Ok (Busy m',
            {| msg := m'; stage1_queues := queues1'; stage2_queues := queues2;
               processed := processed st |})
    end
  else
    Ok (Idle,
        {| msg := m; stage1_queues := queues1'; stage2_queues := stage2_queues st;
           processed := processed st |}).

(** The outer loop. It ends at the first tick that sees the stop flag set,
    with the [return] of the inner loop, or where the ticks run out. *)
Fixpoint loop (cfg : Config) (proc_id : Z) (ticks : list tick) (st : state)
  : outcome (list pass * state) :=
  match ticks with
  | [] => Ok ([], st)
  | t :: rest =>
      if stop_seen t then Ok ([], st)
      else
        r ← body cfg proc_id t st;
        match fst r with
        | Dropped _ | Busy _ => Ok ([fst r], snd r)
        | _ =>
            r' ← loop cfg proc_id rest (snd r);
            Ok (fst r :: fst r', snd r')
        end
  end.

(** What the other threads alone did to the Stage-2 queues over some
    turns. *)
Definition interference (turns : list retry) (queues : list Queue) : list Queue :=
  fold_left (fun qs r => before_push r qs) turns queues.

Definition is_forwarded (p : pass) : Prop :=
  match p with Forwarded _ _ => True | _ => False end.

#[global] Instance is_forwarded_dec (p : pass) : Decision (is_forwarded p).
Proof. destruct p; cbn; apply _. Defined.

Definition is_idle_or_forwarded (p : pass) : Prop :=
  match p with Idle | Forwarded _ _ => True | _ => False end.

#[global] Instance is_idle_or_forwarded_dec (p : pass) :
  Decision (is_idle_or_forwarded p).
Proof. destruct p; cbn; apply _. Defined.

(** The passes of a log that forwarded a message, and those that popped a
    message without forwarding it. *)
Definition forwards (log : list pass) : Z :=
  Z.of_nat (length (filter is_forwarded log)).

Definition unforwarded (log : list pass) : Z :=
  Z.of_nat (length (filter (fun p => ~ is_idle_or_forwarded p) log)).

End Processor.

(** ** LatencyStats and the strategy thread *)

Record LatencyStats : Type := mkStats {
  stage1_us : list float;
  processing_us : list float;
  stage2_us : list float;
  total_us : list float
}.

(** [add] runs under the mutex: the four appends are one step. *)
Definition add (l : LatencyStats) (s1 proc s2 total : float) : LatencyStats :=
  {| stage1_us := stage1_us l ++ [s1];
     processing_us := processing_us l ++ [proc];
     stage2_us := stage2_us l ++ [s2];
     total_us := total_us l ++ [total] |}.

Module Strategy.

(** What one pass takes from outside the thread: the stop flag at the loop
    test, what the processors did to the Stage-2 queues before the pop, the
    clock, and what the other strategy threads added to the samples before
    this thread's [add]. *)
Record tick : Type := mkTick {
  stop_seen : bool;
  meanwhile : list Queue -> list Queue;
  clock : Z;
  others : LatencyStats -> LatencyStats
}.

Record state : Type := mkState {
  msg : Message;
  stage2_queues : list Queue;
  latencies : LatencyStats;
  delivered : Z
}.

(** The body of the loop; the result names the message a pass delivered. *)
Definition body (sid : Z) (t : tick) (st : state) : outcome (option Message * state) :=
  let queues := meanwhile t (stage2_queues st) in
  q ← index queues sid;
  let '(ok, m, q') := SPSC.pop QUEUE_SIZE q (msg st) in
  let queues' := <[Z.to_nat sid := q']> queues in
  if ok then
    let t_end := clock t in
    let stage2 := (double_of_Z (wrap64 (t_end - processed_ns m)) / 1000)%float in
    let stage1 :=
      (double_of_Z (wrap64 (processed_ns m - timestamp_ns m)) / 1000)%float in
    let processing := stage2 in
    let total := (double_of_Z (wrap64 (t_end - timestamp_ns m)) / 1000)%float in
    Ok (Some m,
        {| msg := m; stage2_queues := queues';
           latencies := add (others t (latencies st)) stage1 processing stage2 total;
           delivered := wrap64 (delivered st + 1) |})
  else
    Ok (None,
        {| msg := m; stage2_queues := queues';
           latencies := others t (latencies st);
           delivered := delivered st |}).

Fixpoint loop (sid : Z) (ticks : list tick) (st : state)
  : outcome (list (option Message) * state) :=
  match ticks with
  | [] => Ok ([], st)
  | t :: rest =>
      if stop_seen t then Ok ([], st)
      else
        r ← body sid t st;
        r' ← loop sid rest (snd r);
        Ok (fst r :: fst r', snd r')
  end.

(** The passes that delivered a message. *)
Definition deliveries (log : list (option Message)) : list Message :=
  omap id log.

(** The Stage-1 sample of a message: the processor's stamp minus the
    producer's, in microseconds. *)
Definition stage1_sample (m : Message) : float :=
  (double_of_Z (wrap64 (processed_ns m - timestamp_ns m)) / 1000)%float.

End Strategy.

(** The four series are equally long, and the processing series is the
    Stage-2 series. *)
Definition aligned (l : LatencyStats) : Prop :=
  length (stage1_us l) = length (total_us l) /\
  length (processing_us l) = length (total_us l) /\
  length (stage2_us l) = length (total_us l).

Definition mirrored (l : LatencyStats) : Prop :=
  processing_us l = stage2_us l.

(** ** The summary

    One row of the table: the three percentiles of a series, computed left
    to right on the vector the call before left behind. *)

#[local] Set Warnings "-inexact-float".

Definition row (v : list float) : outcome (float * float * float * list float) :=
  r50 ← percentile v 0.50;
  r90 ← percentile (snd r50) 0.90;
  r99 ← percentile (snd r90) 0.99;
  Ok (fst r50, fst r90, fst r99, snd r99).

(** ** MPMCQueue<T> of the scaling benchmark

    [queue_] is the [std::queue], front first. Both operations hold the
    mutex from their first statement to their return, so calls from any
    number of threads take effect one after the other. *)

Module MPMC.
Section Queue.

Context {T : Type}.

Record MPMCQueue : Type := mkQueue {
  queue_ : list T;
  capacity_ : Z
}.

(** [explicit MPMCQueue(size_t capacity)] *)
Definition new (capacity : Z) : MPMCQueue :=
  {| queue_ := []; capacity_ := capacity |}.

Definition push (q : MPMCQueue) (item : T) : bool * MPMCQueue :=
  if Z.of_nat (length (queue_ q)) >=? capacity_ q then (false, q)
  else (true, {| queue_ := queue_ q ++ [item]; capacity_ := capacity_ q |}).

Definition pop (q : MPMCQueue) (out : T) : bool * T * MPMCQueue :=
  match queue_ q with
  | [] => (false, out, q)
  | x :: rest => (true, x, {| queue_ := rest; capacity_ := capacity_ q |})
  end.

(** A call by some thread, and the calls of all threads in the order they
    take the mutex; [pushed] and [popped] log the items of the calls that
    returned [true]. *)
Inductive call : Type :=
| Push (item : T)
| Pop (out : T).

Record system : Type := mkSystem {
  queue : MPMCQueue;
  pushed : list T;
  popped : list T
}.

Definition step (s : system) (c : call) : system :=
  match c with
  | Push item =>
      let '(ok, q') := push (queue s) item in
      {| queue := q';
         pushed := if ok then pushed s ++ [item] else pushed s;
         popped := popped s |}
  | Pop out =>
      let '(ok, x, q') := pop (queue s) out in
      {| queue := q';
         pushed := pushed s;
         popped := if ok then popped s ++ [x] else popped s |}
  end.

Definition run (calls : list call) (s : system) : system :=
  fold_left step calls s.

Definition start (capacity : Z) : system :=
  {| queue := new capacity; pushed := []; popped := [] |}.

End Queue.

Arguments MPMCQueue : clear implicits.
Arguments call : clear implicits.
Arguments system : clear implicits.

End MPMC.

(** ** Totals of a monitor run *)

(** The sum of the "Lost" numbers of the lines of a run. *)
Definition lost_total (ls : list line) : Z :=
  foldr Z.add 0 (lost_now <$> ls).

(** [produced - delivered] at the last snapshot of a run; 0 before the
    first. *)
Definition backlog (snaps : list snapshot) : Z :=
  match last snaps with
  | Some s => snap_p s - snap_d s
  | None => 0
  end.

(** One thread of each kind; the only rule names type 8, one past the
    routing vector. *)
Definition wild_document : json :=
  document 1 1 1 1 [rule1 8 [0]] [].

(** A double that is a number: not a NaN and not an infinity. *)
Definition finite (x : float) : bool :=
  match Prim2SF x with
  | S754_zero _ | S754_finite _ _ _ => true
  | _ => false
  end.

(** The message as a processor forwards it: its own index and the time of
    the pop written over two fields, the rest as popped. *)
Definition stamped (m : Message) (proc_id t_now : Z) : Message :=
  {| msg_type := msg_type m;
     producer_id := producer_id m;
     sequence := sequence m;
     timestamp_ns := timestamp_ns m;
     processor_id := wrap8 proc_id;
     processed_ns := t_now |}.

(** ** The queue of owning pointers of the allocation benchmark

    The ring of memory_allocation_benchmark.cpp holds
    [std::unique_ptr<T>]: a slot is [None] when the pointer is null and
    [Some p] when it owns the object [p]. Besides what the value queue
    returns, an operation names the objects it destroys. *)

Module Owning.
Section Queue.

Context {P : Type}.
Variable Capacity : Z.

Record SPSCQueue : Type := mkQueue {
  buffer_ : list (option P);
  head_ : Z;
  tail_ : Z
}.

(** [buffer_.resize(Capacity)]: every slot is null. *)
Definition new : SPSCQueue :=
  {| buffer_ := replicate (Z.to_nat Capacity) None; head_ := 0; tail_ := 0 |}.

(** What a slot owns; the indices the operations use stay below the length
    of the buffer, so the default is not taken. *)
Definition slot (buffer : list (option P)) (i : Z) : option P :=
  default None (buffer !! Z.to_nat i).

(** [item] is passed by value. A refused call returns with [item] still
    owning its object, which dies with the parameter; an accepted call
    move-assigns it into the slot, which destroys what the slot owned. *)
Definition push (q : SPSCQueue) (item : option P) : bool * SPSCQueue * list P :=
  let head := head_ q in
  let next := wrap64 (head + 1) mod Capacity in
  if next =? tail_ q then (false, q, option_list item)
  else (true,
        {| buffer_ := <[Z.to_nat head := item]> (buffer_ q);
           head_ := next; tail_ := tail_ q |},
        option_list (slot (buffer_ q) head)).

(** [item = std::move(buffer_[tail])] destroys what [item] owned, hands it
    the object of the slot and leaves the slot null. *)
Definition pop (q : SPSCQueue) (item : option P)
  : bool * option P * SPSCQueue * list P :=
  let tail := tail_ q in
  if tail =? head_ q then (false, item, q, [])
  else (true, slot (buffer_ q) tail,
        {| buffer_ := <[Z.to_nat tail := None]> (buffer_ q);
           head_ := head_ q; tail_ := wrap64 (tail + 1) mod Capacity |},
        option_list item).

(** The two threads of the benchmark, call by call: the producer pushes a
    freshly made object, the consumer pops into its variable [msg]. *)
Inductive call : Type :=
| Push (p : P)
| Pop.

Record system : Type := mkSystem {
  queue : SPSCQueue;
  held : option P;
  allocated : list P;
  freed : list P
}.

Definition start : system :=
  {| queue := new; held := None; allocated := []; freed := [] |}.

Definition step (s : system) (c : call) : system :=
  match c with
  | Push p =>
      let '(_, q', dead) := push (queue s) (Some p) in
      {| queue := q'; held := held s;
         allocated := allocated s ++ [p]; freed := freed s ++ dead |}
  | Pop =>
      let '(_, item', q', dead) := pop (queue s) (held s) in
      {| queue := q'; held := item';
         allocated := allocated s; freed := freed s ++ dead |}
  end.

Definition run (calls : list call) (s : system) : system :=
  fold_left step calls s.

(** The objects the calls make. *)
Definition made (calls : list call) : list P :=
  omap (fun c => match c with Push p => Some p | Pop => None end) calls.

(** The objects something still owns: the slots of the ring and the
    consumer's variable. *)
Definition owned (s : system) : list P :=
  omap id (buffer_ (queue s)) ++ option_list (held s).

Definition wf (q : SPSCQueue) : Prop :=
  Z.of_nat (length (buffer_ q)) = Capacity /\
  0 <= head_ q < Capacity /\ 0 <= tail_ q < Capacity.

(** What holds between any two calls. *)
Definition inv (s : system) : Prop :=
  wf (queue s) /\ allocated s ≡ₚ freed s ++ owned s.

End Queue.

Arguments SPSCQueue : clear implicits.
Arguments call : clear implicits.
Arguments system : clear implicits.

End Owning.

(** * Properties *)

(** ** Index arithmetic of the ring *)

Section RingArith.

Variable C : Z.
Hypothesis C_range : 0 < C <= 2 ^ 63.

Lemma next_index (a : Z) :
  0 <= a < C -> wrap64 (a + 1) mod C = (a + 1) mod C.
Proof.
  intros Ha. unfold wrap64. rewrite (Z.mod_small (a + 1)); [reflexivity | lia].
Qed.

Lemma succ_mod (a : Z) :
  0 <= a < C -> (a + 1) mod C = if a + 1 =? C then 0 else a + 1.
Proof.
  intros Ha. destruct (Z.eqb_spec (a + 1) C) as [E | E].
  - rewrite E. apply Z.mod_same. lia.
  - apply Z.mod_small. lia.
Qed.

Lemma sub_mod (a b : Z) :
  0 <= a < C -> 0 <= b < C ->
  (a - b) mod C = if b <=? a then a - b else a - b + C.
Proof.
  intros Ha Hb. destruct (Z.leb_spec b a).
  - apply Z.mod_small. lia.
  - symmetry. apply (Z.mod_unique_pos _ _ (-1)); lia.
Qed.

Lemma add_mod (t k : Z) :
  0 <= t < C -> 0 <= k < C ->
  (t + k) mod C = if t + k <? C then t + k else t + k - C.
Proof.
  intros Ht Hk. destruct (Z.ltb_spec (t + k) C).
  - apply Z.mod_small. lia.
  - symmetry. apply (Z.mod_unique_pos _ _ 1); lia.
Qed.

Lemma size_index (h t : Z) :
  0 <= h < C -> 0 <= t < C ->
  wrap64 (wrap64 (h + C) - t) mod C = (h - t) mod C.
Proof.
  intros Hh Ht. unfold wrap64.
  rewrite (Z.mod_small (h + C)) by lia.
  rewrite (Z.mod_small (h + C - t)) by lia.
  replace (h + C - t) with (h - t + 1 * C) by lia.
  apply Z.mod_add. lia.
Qed.

End RingArith.

Ltac ring_cases :=
  repeat match goal with
         | |- context [if ?a =? ?b then _ else _] => destruct (Z.eqb_spec a b)
         | |- context [if ?a <=? ?b then _ else _] => destruct (Z.leb_spec a b)
         | |- context [if ?a <? ?b then _ else _] => destruct (Z.ltb_spec a b)
         | H : context [if ?a =? ?b then _ else _] |- _ => destruct (Z.eqb_spec a b)
         | H : context [if ?a <=? ?b then _ else _] |- _ => destruct (Z.leb_spec a b)
         | H : context [if ?a <? ?b then _ else _] |- _ => destruct (Z.ltb_spec a b)
         end.

(** ** The window of live slots *)

Section Window.

Context {T : Type}.
Variable C : Z.
Hypothesis C_range : 0 < C <= 2 ^ 63.

Abbreviation window := (SPSC.window C).

Lemma window_length (buf : list T) (t : Z) (n : nat) :
  length (window buf t n) = n.
Proof. unfold SPSC.window. rewrite length_map. apply length_seq. Qed.

Lemma window_snoc (buf : list T) (t : Z) (n : nat) :
  window buf t (S n) =
  window buf t n ++ [buf !! Z.to_nat ((t + Z.of_nat n) mod C)].
Proof. unfold SPSC.window. rewrite seq_S, map_app. reflexivity. Qed.

Lemma window_cons (buf : list T) (t : Z) (n : nat) :
  0 <= t < C ->
  window buf t (S n) =
  buf !! Z.to_nat t :: window buf ((t + 1) mod C) n.
Proof.
  intros Ht. unfold SPSC.window. cbn [seq map].
  rewrite Z.add_0_r, (Z.mod_small t) by lia. f_equal.
  rewrite <- seq_shift, map_map. apply map_ext. intros k.
  rewrite Zplus_mod_idemp_l. do 3 f_equal. lia.
Qed.

(** A write to the slot just past the window leaves the window alone. *)
Lemma window_insert (buf : list T) (t : Z) (n : nat) (x : T) :
  0 <= t < C -> Z.of_nat n < C ->
  window (<[Z.to_nat ((t + Z.of_nat n) mod C) := x]> buf) t n = window buf t n.
Proof.
  intros Ht Hn. unfold SPSC.window. apply map_ext_in. intros k Hk.
  apply in_seq in Hk. apply list_lookup_insert_ne.
  intros E. apply Z2Nat.inj in E; try (apply Z.mod_pos_bound; lia).
  rewrite !add_mod in E by lia. ring_cases; lia.
Qed.

End Window.

(** ** push and pop, one call at a time *)

Section Sequential.

Context {T : Type}.
Variable C : Z.
Hypothesis C_range : 0 < C <= 2 ^ 63.

Abbreviation push := (SPSC.push C).
Abbreviation pop := (SPSC.pop C).
Abbreviation size := (SPSC.size C).
Abbreviation wf := (SPSC.wf C).

Lemma size_eq (q : SPSC.SPSCQueue T) :
  wf q -> size q = (SPSC.head_ q - SPSC.tail_ q) mod C.
Proof. intros (_ & Hh & Ht). apply size_index; assumption. Qed.

Lemma push_full_iff (q : SPSC.SPSCQueue T) (item : T) :
  wf q ->
  (fst (push q item) = false <-> (SPSC.head_ q + 1) mod C = SPSC.tail_ q).
Proof.
  intros (_ & Hh & _). unfold SPSC.push. rewrite next_index by assumption.
  destruct (Z.eqb_spec ((SPSC.head_ q + 1) mod C) (SPSC.tail_ q)); cbn; split;
    congruence.
Qed.

Lemma pop_empty_iff (q : SPSC.SPSCQueue T) (item : T) :
  fst (fst (pop q item)) = false <-> SPSC.head_ q = SPSC.tail_ q.
Proof.
  unfold SPSC.pop.
  destruct (Z.eqb_spec (SPSC.tail_ q) (SPSC.head_ q)); cbn; split; congruence.
Qed.

Lemma push_wf (q : SPSC.SPSCQueue T) (item : T) :
  wf q -> wf (snd (push q item)).
Proof.
  intros Hq. pose proof Hq as (Hlen & Hh & Ht). unfold SPSC.push.
  destruct (_ =? _); [exact Hq |]. cbn. repeat split; cbn; try lia.
  - rewrite length_insert. exact Hlen.
  - apply Z.mod_pos_bound. lia.
  - apply Z.mod_pos_bound. lia.
Qed.

Lemma pop_wf (q : SPSC.SPSCQueue T) (item : T) :
  wf q -> wf (snd (pop q item)).
Proof.
  intros Hq. pose proof Hq as (Hlen & Hh & Ht). unfold SPSC.pop.
  destruct (_ =? _); [exact Hq |]. cbn. repeat split; cbn; try lia.
  - apply Z.mod_pos_bound. lia.
  - apply Z.mod_pos_bound. lia.
Qed.

Lemma push_size (q : SPSC.SPSCQueue T) (item : T) :
  wf q -> fst (push q item) = true -> size (snd (push q item)) = size q + 1.
Proof.
  intros Hq Hok. pose proof (push_wf q item Hq) as Hq'.
  rewrite !size_eq by assumption. destruct Hq as (_ & Hh & Ht).
  revert Hok. unfold SPSC.push. rewrite next_index by assumption.
  destruct (Z.eqb_spec ((SPSC.head_ q + 1) mod C) (SPSC.tail_ q)) as [E | E];
    cbn; [discriminate | intros _].
  assert (0 <= (SPSC.head_ q + 1) mod C < C) by (apply Z.mod_pos_bound; lia).
  rewrite !sub_mod by assumption.
  rewrite succ_mod in * by assumption. ring_cases; lia.
Qed.

Lemma pop_size (q : SPSC.SPSCQueue T) (item : T) :
  wf q -> fst (fst (pop q item)) = true -> size (snd (pop q item)) = size q - 1.
Proof.
  intros Hq Hok. pose proof (pop_wf q item Hq) as Hq'.
  rewrite !size_eq by assumption. destruct Hq as (_ & Hh & Ht).
  revert Hok. unfold SPSC.pop.
  destruct (Z.eqb_spec (SPSC.tail_ q) (SPSC.head_ q)) as [E | E];
    cbn; [discriminate | intros _].
  rewrite next_index by assumption.
  assert (0 <= (SPSC.tail_ q + 1) mod C < C) by (apply Z.mod_pos_bound; lia).
  rewrite !sub_mod by assumption.
  rewrite succ_mod in * by assumption. ring_cases; lia.
Qed.

Lemma size_bounds (q : SPSC.SPSCQueue T) :
  wf q -> 0 <= size q <= C - 1.
Proof.
  intros Hq. rewrite size_eq by assumption.
  pose proof (Z.mod_pos_bound (SPSC.head_ q - SPSC.tail_ q) C). lia.
Qed.

Lemma full_size (q : SPSC.SPSCQueue T) :
  wf q -> ((SPSC.head_ q + 1) mod C = SPSC.tail_ q <-> size q = C - 1).
Proof.
  intros Hq. rewrite size_eq by assumption. destruct Hq as (_ & Hh & Ht).
  rewrite succ_mod, sub_mod by assumption. ring_cases; lia.
Qed.

Lemma empty_size (q : SPSC.SPSCQueue T) :
  wf q -> (SPSC.head_ q = SPSC.tail_ q <-> size q = 0).
Proof.
  intros Hq. rewrite size_eq by assumption. destruct Hq as (_ & Hh & Ht).
  rewrite sub_mod by assumption. ring_cases; lia.
Qed.

End Sequential.

(** ** One producer and one consumer, interleaved *)

Section Interleaved.

Context {T : Type}.
Variable C : Z.
Hypothesis C_range : 0 < C <= 2 ^ 63.

Abbreviation inv := (SPSC.inv C).
Abbreviation live := (SPSC.live C).

Lemma live_contents (q : SPSC.SPSCQueue T) :
  SPSC.wf C q -> SPSC.contents C q = live q.
Proof.
  intros Hq. unfold SPSC.contents, live. rewrite (size_eq C C_range) by assumption.
  reflexivity.
Qed.

Lemma inv_start (init : list T) :
  Z.of_nat (length init) = C -> inv (SPSC.start init).
Proof.
  intros Hlen. unfold inv, SPSC.start, SPSC.new, SPSC.wf, live; cbn.
  rewrite Z.mod_0_l by lia. cbn. repeat split; solve [lia | assumption].
Qed.

Lemma inv_producer_step (item : T) (s : SPSC.system T) :
  inv s -> inv (SPSC.producer_step C item s).
Proof.
  destruct s as [[buf h t] pp cp pu po].
  intros ((Hlen & Hh & Ht) & Hlog & Hp & Hc). cbn in *.
  pose proof (Z.mod_pos_bound (h - t) C ltac:(lia)) as Hsize.
  assert (Hb : 0 <= (h + 1) mod C < C) by (apply Z.mod_pos_bound; lia).
  assert (Hhd : (t + Z.of_nat (Z.to_nat ((h - t) mod C))) mod C = h).
  { rewrite Z2Nat.id by lia. rewrite add_mod by lia.
    rewrite sub_mod by assumption. ring_cases; lia. }
  unfold SPSC.producer_step; cbn.
  destruct pp as [| it h0 nx | it h0 nx | it nx]; cbn in Hp.
  - (* head_.load *)
    split; [| split; [| split]]; cbn; try assumption.
    + split; [assumption | split; assumption].
    + split; [reflexivity | apply next_index; assumption].
  - (* tail_.load and the test *)
    destruct Hp as [-> ->].
    destruct (Z.eqb_spec ((h + 1) mod C) t);
      (split; [| split; [| split]]); cbn; try assumption;
      try (split; [assumption | split; assumption]); try exact I.
    split; [reflexivity | split; [reflexivity | assumption]].
  - (* buffer_[head] = item *)
    destruct Hp as (-> & -> & Hnx).
    assert (Hsz : (h - t) mod C < C - 1).
    { revert Hnx. rewrite succ_mod, sub_mod by assumption. ring_cases; lia. }
    split; [| split; [| split]]; cbn.
    + split; [| split; assumption]. cbn. rewrite length_insert. assumption.
    + unfold live; cbn. rewrite <- Hhd at 1.
      rewrite (window_insert C C_range); [exact Hlog | assumption | lia].
    + split; [reflexivity | split; [assumption |]].
      apply list_lookup_insert_eq. lia.
    + destruct cp as [| ? ? | ? ? | x t0]; cbn in *; try assumption.
      destruct Hc as (-> & Hne & Hx).
      split; [reflexivity | split; [assumption |]].
      rewrite list_lookup_insert_ne; [assumption |].
      intros E. apply Z2Nat.inj in E; lia.
  - (* head_.store *)
    destruct Hp as (-> & Hnx & Hit).
    assert (Hsz : ((h + 1) mod C - t) mod C = (h - t) mod C + 1).
    { revert Hnx. rewrite !sub_mod by assumption.
      rewrite succ_mod by assumption. ring_cases; lia. }
    split; [| split; [| split]]; cbn.
    + split; [assumption | split; assumption].
    + unfold live; cbn. rewrite Hsz.
      rewrite Z2Nat.inj_add by lia. change (Z.to_nat 1) with 1%nat.
      rewrite Nat.add_1_r, window_snoc, Hhd, Hit.
      rewrite fmap_app, Hlog. unfold live; cbn. rewrite <- app_assoc. reflexivity.
    + exact I.
    + destruct cp as [| ? ? | ? t0 | x t0]; cbn in *; try assumption.
      * destruct Hc as [-> Hne]. split; [reflexivity | congruence].
      * destruct Hc as (-> & Hne & Hx).
        split; [reflexivity | split; [congruence | assumption]].
Qed.

Lemma inv_consumer_step (item : T) (s : SPSC.system T) :
  inv s -> inv (SPSC.consumer_step C item s).
Proof.
  destruct s as [[buf h t] pp cp pu po].
  intros ((Hlen & Hh & Ht) & Hlog & Hp & Hc). cbn in *.
  assert (Hb : 0 <= (t + 1) mod C < C) by (apply Z.mod_pos_bound; lia).
  unfold SPSC.consumer_step; cbn.
  destruct cp as [| it t0 | it t0 | it t0]; cbn in Hc.
  - (* tail_.load *)
    split; [| split; [| split]]; cbn; try assumption; try reflexivity.
    split; [assumption | split; assumption].
  - (* head_.load and the test *)
    subst t0.
    destruct (Z.eqb_spec t h);
      (split; [| split; [| split]]); cbn; try assumption;
      try (split; [assumption | split; assumption]); try exact I.
    split; [reflexivity | assumption].
  - (* item = buffer_[tail] *)
    destruct Hc as [-> Hne].
    split; [| split; [| split]]; cbn; try assumption.
    + split; [assumption | split; assumption].
    + split; [reflexivity | split; [assumption |]].
      unfold SPSC.slot.
      destruct (lookup_lt_is_Some_2 buf (Z.to_nat t) ltac:(lia)) as [x Hx].
      rewrite Hx. reflexivity.
  - (* tail_.store *)
    destruct Hc as (-> & Hne & Hit).
    rewrite next_index by assumption.
    assert (Hsz : (h - t) mod C = (h - (t + 1) mod C) mod C + 1).
    { rewrite !sub_mod by assumption.
      rewrite succ_mod by assumption. ring_cases; lia. }
    pose proof (Z.mod_pos_bound (h - (t + 1) mod C) C ltac:(lia)) as Hsize.
    split; [| split; [| split]]; cbn.
    + split; [assumption | split; assumption].
    + revert Hlog. unfold live; cbn. rewrite Hsz.
      rewrite Z2Nat.inj_add by lia. change (Z.to_nat 1) with 1%nat.
      rewrite Nat.add_1_r, window_cons by assumption.
      rewrite Hit. intros ->. rewrite fmap_app, <- app_assoc. reflexivity.
    + destruct pp as [| ? ? ? | ? h0 nx | x nx]; cbn in *; try assumption.
      * destruct Hp as (-> & -> & Hnx).
        split; [reflexivity | split; [reflexivity |]].
        rewrite !succ_mod by assumption. ring_cases; lia.
      * destruct Hp as (-> & Hnx & Hx).
        split; [reflexivity | split; [| assumption]].
        rewrite !succ_mod by assumption. ring_cases; lia.
    + exact I.
Qed.

Lemma inv_run (sched : list (SPSC.move T)) (s : SPSC.system T) :
  inv s -> inv (SPSC.run C sched s).
Proof.
  revert s. induction sched as [| m sched IH]; intros s Hs; [exact Hs |].
  cbn. apply IH. destruct m; [apply inv_producer_step | apply inv_consumer_step];
    exact Hs.
Qed.

End Interleaved.

(** ** The calls as runs of the interleaved system

    Run without the other thread in between, the accesses of a call add up
    to the function: two producer moves for a refused [push], four for an
    accepted one, and likewise for [pop]. *)

Section Calls.

Context {T : Type}.
Variable C : Z.

Lemma push_refused_run (item : T) (s : SPSC.system T) :
  SPSC.ppc s = SPSC.PIdle ->
  fst (SPSC.push C (SPSC.queue s) item) = false ->
  SPSC.run C [SPSC.Producer item; SPSC.Producer item] s =
  {| SPSC.queue := snd (SPSC.push C (SPSC.queue s) item);
     SPSC.ppc := SPSC.PIdle; SPSC.cpc := SPSC.cpc s;
     SPSC.pushed := SPSC.pushed s; SPSC.popped := SPSC.popped s |}.
Proof.
  destruct s as [q pp cp pu po]; cbn. intros ->.
  unfold SPSC.push, SPSC.producer_step; cbn.
  destruct (_ =? _); cbn; [reflexivity | discriminate].
Qed.

Lemma push_accepted_run (item : T) (s : SPSC.system T) :
  SPSC.ppc s = SPSC.PIdle ->
  fst (SPSC.push C (SPSC.queue s) item) = true ->
  SPSC.run C (replicate 4 (SPSC.Producer item)) s =
  {| SPSC.queue := snd (SPSC.push C (SPSC.queue s) item);
     SPSC.ppc := SPSC.PIdle; SPSC.cpc := SPSC.cpc s;
     SPSC.pushed := SPSC.pushed s ++ [item]; SPSC.popped := SPSC.popped s |}.
Proof.
  destruct s as [q pp cp pu po]; cbn. intros ->.
  unfold SPSC.push, SPSC.producer_step; cbn.
  destruct (_ =? _); cbn; [discriminate | reflexivity].
Qed.

Lemma pop_refused_run (item : T) (s : SPSC.system T) :
  SPSC.cpc s = SPSC.CIdle ->
  fst (fst (SPSC.pop C (SPSC.queue s) item)) = false ->
  SPSC.run C [SPSC.Consumer item; SPSC.Consumer item] s =
  {| SPSC.queue := snd (SPSC.pop C (SPSC.queue s) item);
     SPSC.ppc := SPSC.ppc s; SPSC.cpc := SPSC.CIdle;
     SPSC.pushed := SPSC.pushed s; SPSC.popped := SPSC.popped s |}.
Proof.
  destruct s as [q pp cp pu po]; cbn. intros ->.
  unfold SPSC.pop, SPSC.consumer_step; cbn.
  destruct (_ =? _); cbn; [reflexivity | discriminate].
Qed.

Lemma pop_accepted_run (item : T) (s : SPSC.system T) :
  SPSC.cpc s = SPSC.CIdle ->
  fst (fst (SPSC.pop C (SPSC.queue s) item)) = true ->
  SPSC.run C (replicate 4 (SPSC.Consumer item)) s =
  {| SPSC.queue := snd (SPSC.pop C (SPSC.queue s) item);
     SPSC.ppc := SPSC.ppc s; SPSC.cpc := SPSC.CIdle;
     SPSC.pushed := SPSC.pushed s;
     SPSC.popped := SPSC.popped s ++ [snd (fst (SPSC.pop C (SPSC.queue s) item))] |}.
Proof.
  destruct s as [q pp cp pu po]; cbn. intros ->.
  unfold SPSC.pop, SPSC.consumer_step; cbn.
  destruct (_ =? _); cbn; [discriminate | reflexivity].
Qed.

End Calls.

(** ** The queue: full, empty and first-in first-out *)

(** C4: on a queue of capacity [C] whose indices address the array, [push]
    returns false exactly when [(head + 1) mod C = tail] and then leaves the
    queue as it was, [pop] returns false exactly when [head = tail] and then
    leaves the queue and the caller's item as they were; an accepted [push]
    makes the size one more and an accepted [pop] one less, the size stays
    between 0 and [C - 1], so [push] is refused exactly at size [C - 1] and
    the queue never holds more than [C - 1] elements. Both operations are
    total functions without recursion: each call returns after a fixed
    number of steps. *)
Theorem spsc_full_empty {T : Type} (C : Z) (q : SPSC.SPSCQueue T) (item : T) :
  0 < C <= 2 ^ 63 ->
  SPSC.wf C q ->
  (fst (SPSC.push C q item) = false <-> (SPSC.head_ q + 1) mod C = SPSC.tail_ q) /\
  (fst (SPSC.push C q item) = false -> snd (SPSC.push C q item) = q) /\
  (fst (fst (SPSC.pop C q item)) = false <-> SPSC.head_ q = SPSC.tail_ q) /\
  (fst (fst (SPSC.pop C q item)) = false -> SPSC.pop C q item = (false, item, q)) /\
  (fst (SPSC.push C q item) = true ->
   SPSC.size C (snd (SPSC.push C q item)) = SPSC.size C q + 1) /\
  (fst (fst (SPSC.pop C q item)) = true ->
   SPSC.size C (snd (SPSC.pop C q item)) = SPSC.size C q - 1) /\
  (fst (SPSC.push C q item) = false <-> SPSC.size C q = C - 1) /\
  (fst (fst (SPSC.pop C q item)) = false <-> SPSC.size C q = 0) /\
  0 <= SPSC.size C q <= C - 1 /\
  Z.of_nat (length (SPSC.contents C q)) <= C - 1 /\
  SPSC.wf C (snd (SPSC.push C q item)) /\
  SPSC.wf C (snd (SPSC.pop C q item)).
Proof.
  intros HC Hq.
  pose proof (push_full_iff C HC q item Hq) as Hfull.
  pose proof (pop_empty_iff C q item) as Hempty.
  pose proof (size_bounds C HC q Hq) as Hsize.
  split; [exact Hfull |].
  split; [unfold SPSC.push; destruct (_ =? _); cbn; [reflexivity | discriminate] |].
  split; [exact Hempty |].
  split; [unfold SPSC.pop; destruct (_ =? _); cbn; [reflexivity | discriminate] |].
  split; [apply push_size; assumption |].
  split; [apply pop_size; assumption |].
  split; [rewrite <- (full_size C HC q Hq); exact Hfull |].
  split; [rewrite <- (empty_size C HC q Hq); exact Hempty |].
  split; [exact Hsize |].
  split; [unfold SPSC.contents; rewrite window_length; lia |].
  split; [apply push_wf | apply pop_wf]; assumption.
Qed.

(** C5: start from the empty queue and let one producer and one consumer
    take their shared-memory accesses in any order. At every point the items
    of the accepted pops are a prefix of the items of the accepted pushes;
    the pushed items not yet popped are exactly the slots of the ring from
    [tail] up to [head], in order, so nothing is lost, repeated or
    reordered; and the size [(head - tail) mod C] is at most [C - 1]. *)
Theorem spsc_fifo {T : Type} (C : Z) (init : list T) (sched : list (SPSC.move T)) :
  0 < C <= 2 ^ 63 ->
  Z.of_nat (length init) = C ->
  let s := SPSC.run C sched (SPSC.start init) in
  SPSC.popped s `prefix_of` SPSC.pushed s /\
  Some <$> SPSC.pushed s = (Some <$> SPSC.popped s) ++ SPSC.contents C (SPSC.queue s) /\
  SPSC.size C (SPSC.queue s) = (SPSC.head_ (SPSC.queue s) - SPSC.tail_ (SPSC.queue s)) mod C /\
  0 <= SPSC.size C (SPSC.queue s) <= C - 1.
Proof.
  intros HC Hlen s.
  assert (Hinv : SPSC.inv C s) by (apply inv_run, inv_start; assumption).
  destruct Hinv as (Hwf & Hlog & _ & _).
  rewrite (live_contents C HC) by assumption.
  split; [| split; [exact Hlog | split]].
  - exists (drop (length (SPSC.popped s)) (SPSC.pushed s)).
    rewrite <- (take_drop (length (SPSC.popped s)) (SPSC.pushed s)) at 1.
    f_equal. apply (inj (fmap Some)).
    rewrite fmap_take, Hlog, take_app_length'; [reflexivity |].
    rewrite length_fmap. reflexivity.
  - apply size_eq; assumption.
  - apply size_bounds; assumption.
Qed.

(** ** load_config: the two rule loops *)

Lemma assign_ok (routing : list Z) (type value : Z) (routing' : list Z) :
  assign routing type value = Ok routing' ->
  0 <= type < Z.of_nat (length routing) /\
  routing' = <[Z.to_nat type := value]> routing.
Proof.
  unfold assign.
  destruct (Z.leb_spec 0 type), (Z.ltb_spec type (Z.of_nat (length routing)));
    cbn; intros E; inversion E; subst. split; [lia | reflexivity].
Qed.

Section LoaderFacts.

Context {J : Type} `{!Json J}.

Lemma stage1_rule_eq (routing : list Z) (rule : J) :
  stage1_rule routing rule =
  (type ← rule_type rule; value ← first_processor rule; assign routing type value).
Proof.
  unfold stage1_rule, rule_type, first_processor.
  destruct (at_key "msg_type" rule) as [t | |]; cbn; try reflexivity.
  destruct (to_int t) as [type | |]; cbn; try reflexivity.
  destruct (at_key "processors" rule) as [ps | |]; cbn; try reflexivity.
  destruct (at_idx 0 ps) as [p0 | |]; cbn; reflexivity.
Qed.

Lemma stage2_rule_eq (routing : list Z) (rule : J) :
  stage2_rule routing rule =
  (type ← rule_type rule; value ← rule_strategy rule; assign routing type value).
Proof.
  unfold stage2_rule, rule_type, rule_strategy.
  destruct (at_key "msg_type" rule) as [t | |]; cbn; try reflexivity.
  destruct (to_int t) as [type | |]; cbn; try reflexivity.
  destruct (at_key "strategy" rule) as [s | |]; cbn; reflexivity.
Qed.

Section RuleLoop.

(** A loop body that assigns [value_of rule] at the rule's type. *)
Variable value_of : J -> outcome Z.
Variable body : list Z -> J -> outcome (list Z).
Hypothesis body_eq : forall routing rule,
  body routing rule =
  (type ← rule_type rule; value ← value_of rule; assign routing type value).

Lemma body_ok (routing : list Z) (rule : J) (routing' : list Z) :
  body routing rule = Ok routing' ->
  exists type value,
    rule_type rule = Ok type /\ value_of rule = Ok value /\
    0 <= type < Z.of_nat (length routing) /\
    routing' = <[Z.to_nat type := value]> routing.
Proof.
  rewrite body_eq.
  destruct (rule_type rule) as [type | |]; cbn; try discriminate.
  destruct (value_of rule) as [value | |]; cbn; try discriminate.
  intros E. apply assign_ok in E. exists type, value. tauto.
Qed.

Lemma for_each_cons (acc : list Z) (rule : J) (rules : list J) (r : list Z) :
  for_each body acc (rule :: rules) = Ok r ->
  exists acc', body acc rule = Ok acc' /\ for_each body acc' rules = Ok r.
Proof.
  cbn. destruct (body acc rule) as [acc' | |]; cbn; try discriminate.
  intros E. exists acc'. split; [reflexivity | exact E].
Qed.

Lemma for_each_length (rules : list J) (acc r : list Z) :
  for_each body acc rules = Ok r -> length r = length acc.
Proof.
  revert acc. induction rules as [| rule rules IH]; intros acc E.
  - inversion E. reflexivity.
  - apply for_each_cons in E as (acc' & Hb & E).
    apply body_ok in Hb as (type & value & _ & _ & _ & ->).
    rewrite (IH _ E). apply length_insert.
Qed.

(** A type no rule names keeps the entry it had before the loop. *)
Lemma for_each_unmentioned (rules : list J) (acc r : list Z) (t : Z) :
  for_each body acc rules = Ok r ->
  0 <= t ->
  (forall rule, rule ∈ rules -> rule_type rule <> Ok t) ->
  r !! Z.to_nat t = acc !! Z.to_nat t.
Proof.
  revert acc. induction rules as [| rule rules IH]; intros acc E Ht Hno.
  - inversion E. reflexivity.
  - apply for_each_cons in E as (acc' & Hb & E).
    apply body_ok in Hb as (type & value & Hty & _ & Hin & ->).
    rewrite (IH _ E Ht).
    + apply list_lookup_insert_ne. intros Heq.
      apply (Hno rule); [left |]. rewrite Hty. f_equal.
      apply Z2Nat.inj in Heq; lia.
    + intros rule' Hin'. apply Hno. right. exact Hin'.
Qed.

(** The last rule that names a type decides the entry. *)
Lemma for_each_last (before after : list J) (rule : J) (acc r : list Z) (t : Z) :
  for_each body acc (before ++ rule :: after) = Ok r ->
  rule_type rule = Ok t ->
  (forall rule', rule' ∈ after -> rule_type rule' <> Ok t) ->
  exists value,
    value_of rule = Ok value /\ 0 <= t < Z.of_nat (length r) /\
    r !! Z.to_nat t = Some value.
Proof.
  revert acc. induction before as [| b before IH]; intros acc E Hty Hno.
  - cbn [app] in E. apply for_each_cons in E as (acc' & Hb & E).
    apply body_ok in Hb as (type & value & Hty' & Hv & Hin & ->).
    rewrite Hty in Hty'. inversion Hty'; subst type.
    exists value. split; [exact Hv |].
    rewrite (for_each_length _ _ _ E), length_insert. split; [exact Hin |].
    rewrite (for_each_unmentioned _ _ _ t E) by (lia || assumption).
    apply list_lookup_insert_eq. lia.
  - cbn [app] in E. apply for_each_cons in E as (acc' & _ & E).
    exact (IH acc' E Hty Hno).
Qed.

(** Every entry is the one from before the loop or the value of a rule. *)
Lemma for_each_source (rules : list J) (acc r : list Z) (t : Z) :
  for_each body acc rules = Ok r ->
  0 <= t ->
  r !! Z.to_nat t = acc !! Z.to_nat t \/
  exists rule value,
    rule ∈ rules /\ rule_type rule = Ok t /\ value_of rule = Ok value /\
    r !! Z.to_nat t = Some value.
Proof.
  revert acc. induction rules as [| rule rules IH]; intros acc E Ht.
  - inversion E. left. reflexivity.
  - apply for_each_cons in E as (acc' & Hb & E).
    destruct (IH acc' E Ht) as [Hsame | (rule' & value & Hin & Hty & Hv & Hr)].
    + apply body_ok in Hb as (type & value & Hty & Hv & Hin & ->).
      destruct (Z.eq_dec type t) as [-> | Hne].
      * right. exists rule, value. split; [left |].
        split; [exact Hty | split; [exact Hv |]].
        rewrite Hsame. apply list_lookup_insert_eq. lia.
      * left. rewrite Hsame. apply list_lookup_insert_ne.
        intros Heq. apply Z2Nat.inj in Heq; lia.
    + right. exists rule', value. split; [right; exact Hin | tauto].
Qed.

End RuleLoop.

(** What a successful load_config did. *)
Lemma load_config_ok (fs : string -> file J) (path : string) (cfg : Config) :
  load_config fs path = Ok cfg ->
  exists j,
    fs path = Document j /\
    int_field j "duration_secs" = Ok (duration_secs cfg) /\
    count_field j "producers" = Ok (producer_count cfg) /\
    count_field j "processors" = Ok (processor_count cfg) /\
    count_field j "strategies" = Ok (strategy_count cfg) /\
    for_each stage1_rule (replicate 8 0) (rules_of "stage1_rules" j)
      = Ok (stage1_routing cfg) /\
    for_each stage2_rule (replicate 8 0) (rules_of "stage2_rules" j)
      = Ok (stage2_routing cfg).
Proof.
  unfold load_config, rules_of. destruct (fs path) as [| | j]; try discriminate.
  intros E. exists j. split; [reflexivity |]. revert E.
  destruct (int_field j "duration_secs") as [d | |]; cbn; try discriminate.
  destruct (count_field j "producers") as [a | |]; cbn; try discriminate.
  destruct (count_field j "processors") as [b | |]; cbn; try discriminate.
  destruct (count_field j "strategies") as [c | |]; cbn; try discriminate.
  destruct (at_key "stage1_rules" j) as [r1 | |]; cbn; try discriminate.
  destruct (for_each stage1_rule _ (items r1)) as [t1 | |]; cbn; try discriminate.
  destruct (at_key "stage2_rules" j) as [r2 | |]; cbn; try discriminate.
  destruct (for_each stage2_rule _ (items r2)) as [t2 | |]; cbn; try discriminate.
  intros E. inversion E; subst; cbn. tauto.
Qed.

End LoaderFacts.

(** ** The configuration: default routes and first processors *)

Lemma index_lookup {A : Type} (v : list A) (i : Z) (x : A) :
  0 <= i -> v !! Z.to_nat i = Some x -> index v i = Ok x.
Proof.
  intros Hi Hx. unfold index. destruct (Z.leb_spec 0 i); [| lia].
  rewrite Hx. reflexivity.
Qed.

(** C9: after a successful load both routing vectors have eight entries,
    and a type between 0 and 7 that no rule of "stage1_rules" names is
    routed to processor 0, a type that no rule of "stage2_rules" names to
    strategy 0. *)
Theorem unmentioned_types_route_to_zero {J : Type} `{!Json J}
    (fs : string -> file J) (path : string) (cfg : Config) (j : J) :
  load_config fs path = Ok cfg ->
  fs path = Document j ->
  length (stage1_routing cfg) = 8%nat /\
  length (stage2_routing cfg) = 8%nat /\
  (forall t, 0 <= t <= 7 ->
     (forall rule, rule ∈ rules_of "stage1_rules" j -> rule_type rule <> Ok t) ->
     index (stage1_routing cfg) t = Ok 0) /\
  (forall t, 0 <= t <= 7 ->
     (forall rule, rule ∈ rules_of "stage2_rules" j -> rule_type rule <> Ok t) ->
     index (stage2_routing cfg) t = Ok 0).
Proof.
  intros Hload Hfs.
  apply load_config_ok in Hload as (j' & Hfs' & _ & _ & _ & _ & H1 & H2).
  rewrite Hfs in Hfs'. inversion Hfs'; subst j'.
  split; [| split; [| split]].
  - rewrite (for_each_length _ _ stage1_rule_eq _ _ _ H1). reflexivity.
  - rewrite (for_each_length _ _ stage2_rule_eq _ _ _ H2). reflexivity.
  - intros t Ht Hno. apply index_lookup; [lia |].
    rewrite (for_each_unmentioned _ _ stage1_rule_eq _ _ _ t H1) by (lia || assumption).
    apply lookup_replicate. split; [reflexivity | lia].
  - intros t Ht Hno. apply index_lookup; [lia |].
    rewrite (for_each_unmentioned _ _ stage2_rule_eq _ _ _ t H2) by (lia || assumption).
    apply lookup_replicate. split; [reflexivity | lia].
Qed.

Lemma unmentioned_types_route_to_zero_witness :
  load_config (only fanout_document) "fanout.json"
    = Ok (mkConfig 1 1 4 1 [0; 0; 3; 0; 0; 0; 0; 0] [0; 0; 0; 0; 0; 0; 0; 0]) /\
  index [0; 0; 3; 0; 0; 0; 0; 0] 5 = Ok 0.
Proof.
  split; [reflexivity |].
  refine (proj1 (proj2 (proj2 (unmentioned_types_route_to_zero
    (only fanout_document) "fanout.json"
    (mkConfig 1 1 4 1 [0; 0; 3; 0; 0; 0; 0; 0] [0; 0; 0; 0; 0; 0; 0; 0])
    fanout_document eq_refl eq_refl))) 5 _ _); [lia |].
  intros rule Hin. apply list_elem_of_In in Hin. cbn in Hin.
  destruct Hin as [<- | []]. discriminate.
Defined.

(** C10: in a configuration that loads, take any rule of "stage1_rules",
    its "processors" value [ps] and the first element [p0] of [ps]. The
    loop body assigns the integer of [p0] at the rule's type; it does the
    same for any rule of that type whose "processors" value has the same
    first element, whatever else that value lists; and unless a later rule
    names the same type, the integer of [p0] is the processor the type is
    routed to. The route of a type is a single index. *)
Theorem first_processor_only {J : Type} `{!Json J}
    (fs : string -> file J) (path : string) (cfg : Config) (j : J)
    (before after : list J) (rule : J) (t : Z) (ps p0 : J) :
  load_config fs path = Ok cfg ->
  fs path = Document j ->
  rules_of "stage1_rules" j = before ++ rule :: after ->
  rule_type rule = Ok t ->
  at_key "processors" rule = Ok ps ->
  at_idx 0 ps = Ok p0 ->
  exists value,
    to_int p0 = Ok value /\
    (forall routing, stage1_rule routing rule = assign routing t value) /\
    (forall routing rule' ps',
       rule_type rule' = Ok t ->
       at_key "processors" rule' = Ok ps' ->
       at_idx 0 ps' = Ok p0 ->
       stage1_rule routing rule' = stage1_rule routing rule) /\
    ((forall rule', rule' ∈ after -> rule_type rule' <> Ok t) ->
     index (stage1_routing cfg) t = Ok value).
Proof.
  intros Hload Hfs Hrules Hty Hps Hp0.
  apply load_config_ok in Hload as (j' & Hfs' & _ & _ & _ & _ & H1 & _).
  rewrite Hfs in Hfs'. inversion Hfs'; subst j'. rewrite Hrules in H1.
  assert (Hfirst : first_processor rule = to_int p0).
  { unfold first_processor. rewrite Hps. cbn. rewrite Hp0. reflexivity. }
  assert (Hsome : exists value, to_int p0 = Ok value).
  { clear Hrules. revert H1. generalize (replicate 8 0).
    induction before as [| b before IH]; intros acc E; cbn [app] in E;
      apply (for_each_cons _ acc) in E as (acc' & Hb & E).
    - apply (body_ok _ _ stage1_rule_eq) in Hb as (? & value & _ & Hv & _).
      exists value. rewrite <- Hfirst. exact Hv.
    - exact (IH _ E). }
  destruct Hsome as [value Hv]. exists value.
  split; [exact Hv | split; [| split]].
  - intros routing. rewrite stage1_rule_eq, Hty, Hfirst, Hv. reflexivity.
  - intros routing rule' ps' Hty' Hps' Hp0'.
    rewrite !stage1_rule_eq, Hty, Hty', Hfirst.
    unfold first_processor. rewrite Hps'. cbn. rewrite Hp0'. reflexivity.
  - intros Hno.
    destruct (for_each_last _ _ stage1_rule_eq _ _ _ _ _ t H1 Hty Hno)
      as (value' & Hv' & Ht & Hr).
    rewrite Hfirst, Hv in Hv'. inversion Hv'; subst value'.
    apply index_lookup; [lia | exact Hr].
Qed.

Lemma first_processor_only_witness :
  exists value,
    to_int (JNum 3) = Ok value /\
    (forall routing, stage1_rule routing (rule1 2 [3; 1; 2]) = assign routing 2 value) /\
    (forall routing,
       stage1_rule routing (rule1 2 [3]) = stage1_rule routing (rule1 2 [3; 1; 2])) /\
    index [0; 0; 3; 0; 0; 0; 0; 0] 2 = Ok value.
Proof.
  destruct (@first_processor_only json tree_json
    (only fanout_document) "fanout.json"
    (mkConfig 1 1 4 1 [0; 0; 3; 0; 0; 0; 0; 0] [0; 0; 0; 0; 0; 0; 0; 0])
    fanout_document [] [] (rule1 2 [3; 1; 2]) 2
    (JArr [JNum 3; JNum 1; JNum 2]) (JNum 3)
    eq_refl eq_refl eq_refl eq_refl eq_refl eq_refl)
    as (value & Hv & Hstep & Hsame & Hroute).
  exists value. split; [exact Hv | split; [exact Hstep | split]].
  - intros routing.
    apply (Hsame routing (rule1 2 [3]) (JArr [JNum 3])); reflexivity.
  - apply Hroute. intros rule' Hin. apply list_elem_of_In in Hin. destruct Hin.
Defined.

(** ** main: which threads are created, and in which order *)

Lemma count_up_length (n : Z) : Z.of_nat (length (count_up n)) = Z.max 0 n.
Proof. unfold count_up. rewrite length_fmap, length_seq. lia. Qed.


Lemma created_before_app (P Q : thread -> Prop) (l1 l2 : list thread) :
  Forall (fun a => ~ Q a) l1 ->
  Forall (fun b => ~ P b) l2 ->
  created_before P Q (l1 ++ l2).
Proof.
  intros H1 H2 i j a b Hi Hj Pa Qb.
  destruct (Nat.lt_ge_cases i (length l1)) as [Hlt | Hge].
  - destruct (Nat.lt_ge_cases j (length l1)) as [Hlt' | Hge']; [| lia].
    rewrite lookup_app_l in Hj by exact Hlt'.
    rewrite Forall_forall in H1. exfalso. apply (H1 b); [| exact Qb].
    eapply list_elem_of_lookup_2. exact Hj.
  - rewrite lookup_app_r in Hi by exact Hge.
    rewrite Forall_forall in H2. exfalso. apply (H2 a); [| exact Pa].
    eapply list_elem_of_lookup_2. exact Hi.
Qed.

Lemma Forall_fmap_kind (mk : Z -> thread) (P : thread -> Prop) (l : list Z) :
  (forall z, P (mk z)) -> Forall P (mk <$> l).
Proof.
  intros H. induction l as [| z l IH]; cbn; constructor; [apply H | exact IH].
Qed.

Lemma spawn_order (cfg : Config) :
  created_before is_producer is_processor (spawn cfg) /\
  created_before is_processor is_strategy (spawn cfg) /\
  created_before is_producer is_strategy (spawn cfg).
Proof.
  unfold spawn. split; [| split].
  - apply created_before_app.
    + apply Forall_fmap_kind. intros z H. exact H.
    + apply Forall_app. split; apply Forall_fmap_kind; intros z H; exact H.
  - rewrite app_assoc. apply created_before_app.
    + apply Forall_app. split; apply Forall_fmap_kind; intros z H; exact H.
    + apply Forall_fmap_kind. intros z H. exact H.
  - apply created_before_app.
    + apply Forall_fmap_kind. intros z H. exact H.
    + apply Forall_app. split; apply Forall_fmap_kind; intros z H; exact H.
Qed.

Lemma created_before_nil (P Q : thread -> Prop) : created_before P Q [].
Proof. intros i j a b Hi. rewrite lookup_nil in Hi. discriminate. Qed.


(** With that configuration the producer indexes the vector of Stage-1
    queues out of range as soon as it draws type 0. *)
Example stray_entry_undefined :
  producer_body (mkConfig 1 1 1 1 [5; 0; 0; 0; 0; 0; 0; 0] [0; 0; 0; 0; 0; 0; 0; 0])
    0 (quiet_tick 0 1000)
    {| seq_ := 0; stage1_queues := [empty_queue zero_message]; produced := 0 |}
  = Undefined.
Proof. reflexivity. Qed.





(** C3, as stated, fails: with one thread of each kind the strategy is the
    third thread created and the processor the second. *)
Lemma strategies_not_first :
  let threads :=
    spawned (main_start fair_world ["pipeline"; "unit.json"; "results"]
               (only unit_document)) in
  threads = [ProducerThread 0; ProcessorThread 0; StrategyThread 0] /\
  ~ (created_before is_strategy is_processor threads /\
     created_before is_processor is_producer threads).
Proof.
  split; [reflexivity |]. intros [H _].
  specialize (H 2%nat 1%nat (StrategyThread 0) (ProcessorThread 0)
                eq_refl eq_refl I I).
  lia.
Qed.

Lemma created_before_take (P Q : thread -> Prop) (l : list thread) (n : nat) :
  created_before P Q l -> created_before P Q (take n l).
Proof.
  intros H i j a b Hi Hj. apply (H i j a b).
  - apply lookup_take_Some in Hi as [Hi _]. exact Hi.
  - apply lookup_take_Some in Hj as [Hj _]. exact Hj.
Qed.

(** C3, amended: main creates the threads roots first. Whatever the
    arguments, the configuration and the world main runs in, every producer
    thread is created before every processor thread, and every processor
    thread before every strategy thread. *)
Theorem spawn_roots_first {J : Type} `{!Json J}
    (w : world) (argv : list string) (fs : string -> file J) :
  created_before is_producer is_processor (spawned (main_start w argv fs)) /\
  created_before is_processor is_strategy (spawned (main_start w argv fs)) /\
  created_before is_producer is_strategy (spawned (main_start w argv fs)).
Proof.
  assert (Hcases : spawned (main_start w argv fs) = []
                   \/ exists cfg n, spawned (main_start w argv fs) = take n (spawn cfg)).
  { unfold main_start.
    destruct argv as [| prog [| path [| dir more]]]; try (left; reflexivity).
    destruct (mkdir w dir); [| left; reflexivity].
    destruct (load_config fs path) as [cfg | e |]; cbn [mbind outcome_bind];
      [| left; reflexivity | left; reflexivity].
    destruct (build_queues w cfg) as [queues | e |]; cbn [mbind outcome_bind];
      [| left; reflexivity | left; reflexivity].
    right. exists cfg.
    destruct (Nat.leb_spec (length (spawn cfg)) (thread_limit w)) as [Hle | Hgt];
      cbn [spawned].
    - exists (length (spawn cfg)). rewrite take_ge by lia. reflexivity.
    - exists (thread_limit w). reflexivity. }
  destruct Hcases as [-> | (cfg & n & ->)].
  - repeat split; apply created_before_nil.
  - destruct (spawn_order cfg) as (H1 & H2 & H3).
    split; [| split]; apply created_before_take; assumption.
Qed.

Lemma spsc_full_empty_witness :
  let q := {| SPSC.buffer_ := replicate 8 0; SPSC.head_ := 7; SPSC.tail_ := 0 |} in
  0 < 8 <= 2 ^ 63 /\ SPSC.wf 8 q /\
  (fst (SPSC.push 8 q 42) = false <-> SPSC.size 8 q = 8 - 1).
Proof.
  intros q.
  assert (HC : 0 < 8 <= 2 ^ 63) by lia.
  assert (Hq : SPSC.wf 8 q) by (unfold SPSC.wf; cbn; lia).
  split; [exact HC | split; [exact Hq |]].
  apply (spsc_full_empty 8 q 42 HC Hq).
Defined.

Lemma spsc_fifo_witness :
  let s := SPSC.run 4
             (replicate 4 (SPSC.Producer 10) ++ replicate 2 (SPSC.Consumer 0)
              ++ replicate 3 (SPSC.Producer 20) ++ replicate 2 (SPSC.Consumer 0)
              ++ [SPSC.Producer 20])
             (SPSC.start (replicate 4 0)) in
  SPSC.pushed s = [10; 20] /\ SPSC.popped s = [10] /\
  SPSC.popped s `prefix_of` SPSC.pushed s.
Proof.
  intros s. split; [reflexivity | split; [reflexivity |]].
  apply (spsc_fifo 4 (replicate 4 0)); [lia | reflexivity].
Defined.

(** A ring of capacity 8 takes seven items and refuses the eighth; it then
    gives the seven back in order and refuses an eighth pop. *)
Example ring_of_eight :
  let push_all :=
    fold_left (fun acc x =>
                 (acc.1 ++ [fst (SPSC.push 8 acc.2 x)], snd (SPSC.push 8 acc.2 x)))
              [1; 2; 3; 4; 5; 6; 7; 8] ([], SPSC.new (replicate 8 0)) in
  let pop_all :=
    fold_left (fun acc _ =>
                 (acc.1 ++ [fst (SPSC.pop 8 acc.2 0)], snd (SPSC.pop 8 acc.2 0)))
              [1; 2; 3; 4; 5; 6; 7; 8] ([], push_all.2) in
  push_all.1 = [true; true; true; true; true; true; true; false] /\
  SPSC.size 8 push_all.2 = 7 /\
  pop_all.1 = [(true, 1); (true, 2); (true, 3); (true, 4); (true, 5); (true, 6);
               (true, 7); (false, 0)] /\
  SPSC.size 8 pop_all.2 = 0.
Proof. vm_compute. repeat split; reflexivity. Qed.

(** ** The producer loop *)

Lemma racing_push_calm (q : Queue) (item : Message) :
  racing_push calm q item = SPSC.push QUEUE_SIZE q item.
Proof.
  unfold racing_push, SPSC.push, calm. cbn [head_read before_slot before_head].
  destruct (_ =? _); reflexivity.
Qed.

Lemma racing_push_refused (r : race) (q : Queue) (item : Message) :
  fst (racing_push r q item) = false -> snd (racing_push r q item) = q.
Proof.
  unfold racing_push. destruct (_ =? _); cbn; [reflexivity | discriminate].
Qed.

Section ProducerLoop.

Variable cfg : Config.
Variable pid : Z.

Lemma producer_body_ok (t : tick) (st : producer_state)
    (msg : Message) (ok : bool) (st' : producer_state) :
  producer_body cfg pid t st = Ok (msg, ok, st') ->
  msg = built pid t (seq_ st) /\
  seq_ st' = wrap32 (seq_ st + 1) /\
  produced st' = (if ok then wrap64 (produced st + 1) else produced st) /\
  exists proc_id q,
    index (stage1_routing cfg) (msg_type msg) = Ok proc_id /\
    index (meanwhile t (stage1_queues st)) proc_id = Ok q /\
    ok = fst (racing_push (pushing t) q msg) /\
    stage1_queues st' =
      <[Z.to_nat proc_id := snd (racing_push (pushing t) q msg)]>
        (meanwhile t (stage1_queues st)).
Proof.
  unfold producer_body. fold (built pid t (seq_ st)).
  destruct (index (stage1_routing cfg) _) as [proc_id | |] eqn:Hr; cbn;
    try discriminate.
  destruct (index (meanwhile t (stage1_queues st)) proc_id) as [q | |] eqn:Hq;
    cbn; try discriminate.
  destruct (racing_push (pushing t) q (built pid t (seq_ st))) as [ok' q'] eqn:Hpush.
  intros E. inversion E; subst. cbn.
  split; [reflexivity | split; [reflexivity | split; [reflexivity |]]].
  exists proc_id, q. rewrite Hpush. cbn.
  split; [exact Hr | split; [exact Hq | split; reflexivity]].
Qed.

(** A refused push leaves the queues as the other threads left them. *)
Lemma producer_body_refused (t : tick) (st : producer_state)
    (msg : Message) (st' : producer_state) :
  producer_body cfg pid t st = Ok (msg, false, st') ->
  stage1_queues st' = meanwhile t (stage1_queues st) /\
  produced st' = produced st.
Proof.
  intros E. apply producer_body_ok in E
    as (_ & _ & Hp & proc_id & q & _ & Hq & Hok & Hqs).
  split; [| exact Hp]. rewrite Hqs. clear Hqs.
  assert (Hsame : snd (racing_push (pushing t) q msg) = q).
  { apply racing_push_refused. symmetry. exact Hok. }
  rewrite Hsame. apply list_insert_id.
  revert Hq. unfold index. destruct (0 <=? proc_id); [| discriminate].
  destruct (_ !! _) as [q0 |]; [| discriminate]. intros E. inversion E. reflexivity.
Qed.

Lemma producer_loop_cons (t : tick) (rest : list tick) (st : producer_state)
    (log : list (Message * bool)) (st'' : producer_state) :
  producer_loop cfg pid (t :: rest) st = Ok (log, st'') ->
  (stop_seen t = true /\ log = [] /\ st'' = st) \/
  (stop_seen t = false /\
   exists msg ok st' log',
     producer_body cfg pid t st = Ok (msg, ok, st') /\
     producer_loop cfg pid rest st' = Ok (log', st'') /\
     log = (msg, ok) :: log').
Proof.
  cbn [producer_loop]. destruct (stop_seen t).
  - intros E. inversion E. left. repeat split; reflexivity.
  - destruct (producer_body cfg pid t st) as [[[msg ok] st'] | |] eqn:Hb; cbn;
      try discriminate.
    destruct (producer_loop cfg pid rest st') as [[log' st3] | |] eqn:Hl; cbn;
      try discriminate.
    intros E. inversion E; subst. right. split; [reflexivity |].
    exists msg, ok, st', log'. split; [reflexivity | split; [exact Hl | reflexivity]].
Qed.

Lemma accepted_cons (msg : Message) (ok : bool) (log : list (Message * bool)) :
  accepted ((msg, ok) :: log) = (if ok then 1 else 0) + accepted log.
Proof.
  unfold accepted. rewrite filter_cons. cbn [snd].
  destruct ok; destruct (decide _) as [E | E]; cbn [length];
    try discriminate; try (exfalso; apply E; reflexivity); lia.
Qed.

Lemma accepted_bounds (log : list (Message * bool)) :
  0 <= accepted log <= Z.of_nat (length log).
Proof.
  unfold accepted. pose proof (length_filter (fun e : Message * bool => snd e = true) log).
  lia.
Qed.

(** The loop, pass by pass: the i-th logged message is built from the
    i-th tick and carries the i-th sequence number after the first. *)
Lemma producer_loop_spec (ticks : list tick) :
  forall (st : producer_state) (log : list (Message * bool)) (st' : producer_state),
    0 <= seq_ st < 2 ^ 32 ->
    0 <= produced st < 2 ^ 64 ->
    producer_loop cfg pid ticks st = Ok (log, st') ->
    seq_ st' = (seq_ st + Z.of_nat (length log)) mod 2 ^ 32 /\
    produced st' = (produced st + accepted log) mod 2 ^ 64 /\
    forall (i : nat) (m : Message) (ok : bool),
      log !! i = Some (m, ok) ->
      exists t,
        ticks !! i = Some t /\ stop_seen t = false /\
        m = built pid t ((seq_ st + Z.of_nat i) mod 2 ^ 32).
Proof.
  induction ticks as [| t rest IH]; intros st log st' Hseq Hprod E.
  - inversion E; subst. cbn. rewrite !Z.add_0_r, !Z.mod_small by lia.
    split; [reflexivity | split; [reflexivity |]].
    intros i m ok Hi. rewrite lookup_nil in Hi. discriminate.
  - apply producer_loop_cons in E
      as [(_ & -> & ->) | (Hstop & msg & ok & st1 & log' & Hb & E & ->)].
    + cbn. rewrite !Z.add_0_r, !Z.mod_small by lia.
      split; [reflexivity | split; [reflexivity |]].
      intros i m ok Hi. rewrite lookup_nil in Hi. discriminate.
    + apply producer_body_ok in Hb as (-> & Hs1 & Hp1 & _).
      assert (Hseq1 : 0 <= seq_ st1 < 2 ^ 32).
      { rewrite Hs1. apply Z.mod_pos_bound. lia. }
      assert (Hprod1 : 0 <= produced st1 < 2 ^ 64).
      { rewrite Hp1. destruct ok; [apply Z.mod_pos_bound |]; lia. }
      destruct (IH st1 log' st' Hseq1 Hprod1 E) as (Hs & Hp & Hlog).
      split; [| split].
      * rewrite Hs, Hs1. unfold wrap32. rewrite Zplus_mod_idemp_l.
        f_equal. cbn [length]. lia.
      * rewrite Hp, Hp1, accepted_cons. destruct ok.
        -- unfold wrap64. rewrite Zplus_mod_idemp_l. f_equal. lia.
        -- f_equal.
      * intros [| i] m ok' Hi; cbn in Hi.
        -- inversion Hi; subst. exists t. split; [reflexivity |].
           split; [exact Hstop |].
           rewrite Z.add_0_r, Z.mod_small by lia. reflexivity.
        -- destruct (Hlog i m ok' Hi) as (t' & Ht' & Hst' & ->).
           exists t'. split; [exact Ht' | split; [exact Hst' |]].
           f_equal. rewrite Hs1. unfold wrap32. rewrite Zplus_mod_idemp_l.
           f_equal. lia.
Qed.

End ProducerLoop.

(** ** The producer: refused messages and sequence numbers *)

Lemma push_full_queue (m x : Message) :
  SPSC.push QUEUE_SIZE (full_queue m) x = (false, full_queue m).
Proof. reflexivity. Qed.

(** Against a queue that stays full every pass is refused, however many
    passes there are. *)
Lemma full_loop (n : nat) :
  forall st : producer_state,
    stage1_queues st = [full_queue zero_message] ->
    exists log st',
      producer_loop flat_config 0 (replicate n (quiet_tick 0 0)) st = Ok (log, st') /\
      length log = n /\ accepted log = 0.
Proof.
  induction n as [| n IH]; intros st Hq.
  - exists [], st. repeat split; reflexivity.
  - assert (Hb : producer_body flat_config 0 (quiet_tick 0 0) st =
                 Ok (built 0 (quiet_tick 0 0) (seq_ st), false,
                     {| seq_ := wrap32 (seq_ st + 1);
                        stage1_queues := [full_queue zero_message];
                        produced := produced st |})).
    { unfold producer_body. cbn [meanwhile quiet_tick]. rewrite Hq. reflexivity. }
    destruct (IH {| seq_ := wrap32 (seq_ st + 1);
                    stage1_queues := [full_queue zero_message];
                    produced := produced st |} eq_refl)
      as (log & st' & Hl & Hlen & Hacc).
    exists ((built 0 (quiet_tick 0 0) (seq_ st), false) :: log), st'.
    split; [| split].
    + cbn [replicate producer_loop]. cbn [stop_seen quiet_tick].
      rewrite Hb. cbn [mbind outcome_bind]. rewrite Hl. reflexivity.
    + cbn [length]. rewrite Hlen. reflexivity.
    + rewrite accepted_cons, Hacc. reflexivity.
Qed.

(** C2, as stated, fails: against a full queue the message of the second
    pass is not the refused message of the first; it has the next sequence
    number and the new timestamp. *)
Lemma refused_message_replaced :
  exists m0 m1 st,
    producer_thread flat_config 0 [quiet_tick 0 100; quiet_tick 0 200]
      [full_queue zero_message] 0
    = Ok ([(m0, false); (m1, false)], st) /\
    sequence m0 = 0 /\ sequence m1 = 1 /\
    timestamp_ns m0 = 100 /\ timestamp_ns m1 = 200 /\
    m1 <> m0.
Proof.
  exists (built 0 (quiet_tick 0 100) 0), (built 0 (quiet_tick 0 200) 1).
  eexists. split; [vm_compute; reflexivity |].
  repeat (split; [reflexivity |]). discriminate.
Qed.

(** C2, amended: a refused message is dropped, not retried. In the log of a
    producer, the message after any message, refused or accepted, is built
    anew from the next pass: the type drawn in that pass, the next sequence
    number modulo 2^32, the clock read in that pass; it is a different
    message. A pass whose push is refused leaves the queues and [produced]
    as they were and still advances the sequence counter. *)
Theorem refused_message_dropped
    (cfg : Config) (pid : Z) (ticks : list tick) (queues : list Queue) (produced0 : Z)
    (log : list (Message * bool)) (st : producer_state)
    (i : nat) (m m' : Message) (ok ok' : bool) :
  0 <= produced0 < 2 ^ 64 ->
  producer_thread cfg pid ticks queues produced0 = Ok (log, st) ->
  log !! i = Some (m, ok) ->
  log !! S i = Some (m', ok') ->
  (exists t',
     ticks !! S i = Some t' /\ stop_seen t' = false /\
     m' = built pid t' (wrap32 (sequence m + 1))) /\
  sequence m' = wrap32 (sequence m + 1) /\
  m' <> m /\
  (forall t st0 m1 st1,
     producer_body cfg pid t st0 = Ok (m1, false, st1) ->
     stage1_queues st1 = meanwhile t (stage1_queues st0) /\
     produced st1 = produced st0 /\
     seq_ st1 = wrap32 (seq_ st0 + 1)).
Proof.
  intros Hp E Hi Hi'. unfold producer_thread in E.
  apply producer_loop_spec in E as (_ & _ & Hlog); cbn; try lia.
  destruct (Hlog i m ok Hi) as (t & _ & _ & Hm).
  destruct (Hlog (S i) m' ok' Hi') as (t' & Ht' & Hstop & Hm').
  cbn [seq_] in Hm, Hm'. rewrite Z.add_0_l in Hm, Hm'.
  assert (Hseq : sequence m = Z.of_nat i mod 2 ^ 32) by (rewrite Hm; reflexivity).
  assert (Hnext : Z.of_nat (S i) mod 2 ^ 32 = wrap32 (sequence m + 1)).
  { rewrite Hseq. unfold wrap32. rewrite Zplus_mod_idemp_l. f_equal. lia. }
  rewrite Hnext in Hm'.
  split; [exists t'; split; [exact Ht' | split; [exact Hstop | exact Hm']] |].
  split; [rewrite Hm'; reflexivity |].
  split.
  - intros ->. assert (Hs : sequence m = wrap32 (sequence m + 1)).
    { rewrite Hm' at 1. reflexivity. }
    pose proof (Z.mod_pos_bound (Z.of_nat i) (2 ^ 32) ltac:(lia)) as Hb.
    rewrite <- Hseq in Hb. unfold wrap32 in Hs.
    destruct (Z.eq_dec (sequence m + 1) (2 ^ 32)) as [Heq | Hne].
    + rewrite Heq, Z.mod_same in Hs by lia. lia.
    + rewrite Z.mod_small in Hs by lia. lia.
  - intros t0 st0 m1 st1 Hb.
    destruct (producer_body_refused _ _ _ _ _ _ Hb) as [Hq Hpr].
    apply producer_body_ok in Hb as (_ & Hs & _).
    split; [exact Hq | split; [exact Hpr | exact Hs]].
Qed.

Lemma refused_message_dropped_witness :
  let m := built 0 (quiet_tick 0 100) 0 in
  let m' := built 0 (quiet_tick 3 200) 1 in
  sequence m' = wrap32 (sequence m + 1) /\ m' <> m.
Proof.
  intros m m'.
  destruct (refused_message_dropped flat_config 0
    [quiet_tick 0 100; quiet_tick 3 200] [full_queue zero_message] 0
    [(m, false); (m', false)]
    {| seq_ := 2; stage1_queues := [full_queue zero_message]; produced := 0 |}
    0%nat m m' false false ltac:(lia) ltac:(vm_compute; reflexivity)
    eq_refl eq_refl) as (_ & Hseq & Hne & _).
  split; [exact Hseq | exact Hne].
Defined.

(** C7, as stated, fails at the width of the counter: after 2^32 passes,
    all refused, the next sequence value is 0 and not the number of
    passes. *)
Lemma sequence_wraps :
  exists log st,
    producer_thread flat_config 0 (replicate (Z.to_nat (2 ^ 32)) (quiet_tick 0 0))
      [full_queue zero_message] 0
    = Ok (log, st) /\
    Z.of_nat (length log) = 2 ^ 32 /\
    accepted log = 0 /\
    seq_ st = 0 /\
    seq_ st <> Z.of_nat (length log).
Proof.
  destruct (full_loop (Z.to_nat (2 ^ 32))
              {| seq_ := 0; stage1_queues := [full_queue zero_message]; produced := 0 |}
              eq_refl) as (log & st & Hl & Hlen & Hacc).
  assert (Hk : Z.of_nat (length log) = 2 ^ 32).
  { rewrite Hlen. apply Z2Nat.id. lia. }
  assert (Hseq : seq_ st = 0).
  { apply producer_loop_spec in Hl as (Hs & _); [| cbn [seq_]; lia | cbn [produced]; lia].
    rewrite Hs, Hk. reflexivity. }
  exists log, st. split; [exact Hl |].
  split; [exact Hk | split; [exact Hacc | split; [exact Hseq |]]].
  rewrite Hseq, Hk. lia.
Qed.

(** C7, amended: the sequence counter advances by one, modulo 2^32, with
    every pass whether or not its push is accepted, and [produced]
    advances, modulo 2^64, only when it is. After [k] passes of which [s]
    were accepted, the i-th message carries [i mod 2^32], the next sequence
    value is [k mod 2^32] and [produced] has grown by [s] modulo 2^64.
    While [k < 2^32] the next sequence value is [k] itself, and it differs
    from [s] as soon as one push was refused. *)
Theorem sequence_counts_passes
    (cfg : Config) (pid : Z) (ticks : list tick) (queues : list Queue) (produced0 : Z)
    (log : list (Message * bool)) (st : producer_state) :
  0 <= produced0 < 2 ^ 64 ->
  producer_thread cfg pid ticks queues produced0 = Ok (log, st) ->
  let k := Z.of_nat (length log) in
  let s := accepted log in
  (forall t st0 m ok st1,
     producer_body cfg pid t st0 = Ok (m, ok, st1) ->
     sequence m = seq_ st0 /\
     seq_ st1 = wrap32 (seq_ st0 + 1) /\
     produced st1 = if ok then wrap64 (produced st0 + 1) else produced st0) /\
  (forall i m ok, log !! i = Some (m, ok) -> sequence m = Z.of_nat i mod 2 ^ 32) /\
  seq_ st = k mod 2 ^ 32 /\
  produced st = (produced0 + s) mod 2 ^ 64 /\
  0 <= s <= k /\
  (k < 2 ^ 32 -> seq_ st = k) /\
  (produced0 + s < 2 ^ 64 -> produced st = produced0 + s) /\
  (k < 2 ^ 32 -> s < k -> seq_ st <> s).
Proof.
  intros Hp E k s. unfold producer_thread in E.
  apply producer_loop_spec in E as (Hs & Hpr & Hlog); cbn [seq_ produced]; try lia.
  cbn [seq_ produced] in Hs, Hpr. rewrite Z.add_0_l in Hs.
  pose proof (accepted_bounds log) as Hb. fold k in Hs, Hb. fold s in Hpr, Hb.
  split.
  { intros t st0 m ok st1 Hbody.
    apply producer_body_ok in Hbody as (-> & H1 & H2 & _).
    split; [reflexivity | split; assumption]. }
  split.
  { intros i m ok Hi. destruct (Hlog i m ok Hi) as (t & _ & _ & ->). reflexivity. }
  split; [exact Hs |]. split; [exact Hpr |]. split; [exact Hb |].
  split; [intros Hk; rewrite Hs; apply Z.mod_small; lia |].
  split; [intros Hlt; rewrite Hpr; apply Z.mod_small; lia |].
  intros Hk Hlt. rewrite Hs, Z.mod_small by lia. lia.
Qed.

Lemma sequence_counts_passes_witness :
  exists log st,
    producer_thread flat_config 0 [quiet_tick 0 100; quiet_tick 3 200]
      [{| SPSC.buffer_ := replicate (Z.to_nat QUEUE_SIZE) zero_message;
          SPSC.head_ := QUEUE_SIZE - 2; SPSC.tail_ := 0 |}] 7
    = Ok (log, st) /\
    length log = 2%nat /\ accepted log = 1 /\
    seq_ st = 2 /\ produced st = 8.
Proof.
  eexists. eexists.
  split; [vm_compute; reflexivity |].
  split; [reflexivity | split; [reflexivity |]].
  match goal with
  | |- seq_ ?st = _ /\ _ =>
      pose proof (sequence_counts_passes flat_config 0
        [quiet_tick 0 100; quiet_tick 3 200]
        [{| SPSC.buffer_ := replicate (Z.to_nat QUEUE_SIZE) zero_message;
            SPSC.head_ := QUEUE_SIZE - 2; SPSC.tail_ := 0 |}] 7
        _ st ltac:(lia) ltac:(vm_compute; reflexivity)) as H
  end.
  destruct H as (_ & _ & Hs & Hp & _). split; [exact Hs | exact Hp].
Defined.

(** ** The monitoring loop *)

Lemma monitor_loop_length (snaps : list snapshot) :
  forall prev, length (monitor_loop prev snaps) = length snaps.
Proof.
  induction snaps as [| s snaps IH]; intros prev; [reflexivity |].
  cbn. rewrite IH. reflexivity.
Qed.

Lemma monitor_loop_lookup (snaps : list snapshot) :
  forall (prev : counters) (i : nat) (s : snapshot),
    snaps !! i = Some s ->
    monitor_loop prev snaps !! i =
    Some (fst (monitor_body
                 (match i with
                  | O => prev
                  | S _ => previous snaps i
                  end) s)).
Proof.
  induction snaps as [| s0 snaps IH]; intros prev i s Hi.
  - rewrite lookup_nil in Hi. discriminate.
  - destruct i as [| i]; cbn in Hi.
    + inversion Hi; subst. reflexivity.
    + cbn [monitor_loop monitor_body fst snd]. cbn [lookup list_lookup].
      rewrite (IH _ i s Hi). destruct i as [| i]; [reflexivity |].
      cbn [previous]. cbn [lookup list_lookup]. reflexivity.
Qed.

Lemma wrap64_sub (a b : Z) : wrap64 (wrap64 a - wrap64 b) = (a - b) mod 2 ^ 64.
Proof. unfold wrap64. rewrite Zminus_mod_idemp_l, Zminus_mod_idemp_r. reflexivity. Qed.

(** C8: the pass for second [i] logs one line; its "Lost" number is
    [(p - d) - (p_prev - d_prev)], each subtraction wrapped to 64 bits, of
    this second's snapshot and the one before (zeros in the first second),
    which is the difference taken in the integers reduced modulo 2^64, and
    the printed value is that integer converted to double and divided by
    1e6. It is a per-interval difference and not a running total: when the
    backlog [p - d] stays at 6 from one second to the next, the second line
    reports 0. *)
Theorem lost_is_interval_delta (snaps : list snapshot) (i : nat) (s : snapshot) :
  snaps !! i = Some s ->
  exists l,
    monitor snaps !! i = Some l /\
    lost_now l =
      wrap64 (wrap64 (snap_p s - snap_d s)
              - wrap64 (prev_prod (previous snaps i) - prev_del (previous snaps i))) /\
    lost_now l =
      ((snap_p s - snap_d s)
       - (prev_prod (previous snaps i) - prev_del (previous snaps i))) mod 2 ^ 64 /\
    lost_m l = (double_of_Z (lost_now l) / 1e6)%float /\
    length (monitor snaps) = length snaps /\
    lost_now <$> monitor [mkSnapshot 10 7 4; mkSnapshot 20 17 14] = [6; 0].
Proof.
  intros Hi. unfold monitor.
  exists (fst (monitor_body (previous snaps i) s)).
  split.
  { rewrite (monitor_loop_lookup snaps _ i s Hi). destruct i; reflexivity. }
  cbn [monitor_body fst lost_now lost_m].
  split; [reflexivity |]. split; [apply wrap64_sub |]. split; [reflexivity |].
  split; [apply monitor_loop_length | reflexivity].
Qed.

Lemma lost_is_interval_delta_witness :
  exists l,
    monitor [mkSnapshot 10 7 4; mkSnapshot 12 10 9] !! 1%nat = Some l /\
    lost_now l = 2 ^ 64 - 3 /\
    lost_m l = (double_of_Z (2 ^ 64 - 3) / 1e6)%float.
Proof.
  destruct (lost_is_interval_delta [mkSnapshot 10 7 4; mkSnapshot 12 10 9] 1
              (mkSnapshot 12 10 9) eq_refl) as (l & Hl & Hlost & _ & Hm & _).
  exists l. split; [exact Hl |].
  assert (E : lost_now l = 2 ^ 64 - 3) by (rewrite Hlost; reflexivity).
  split; [exact E |]. rewrite Hm, E. reflexivity.
Defined.

(** ** The order of the doubles

    The comparisons of the primitive floats are those of the binary64
    specification, which orders the values other than NaN by sign, exponent
    and mantissa. *)

Ltac cmp_cases :=
  repeat match goal with
         | H : context [Z.compare ?a ?b] |- _ => destruct (Z.compare_spec a b)
         | |- context [Z.compare ?a ?b] => destruct (Z.compare_spec a b)
         | H : context [Pos.compare_cont Eq ?a ?b] |- _ =>
             change (Pos.compare_cont Eq a b) with (Pos.compare a b) in *;
             destruct (Pos.compare_spec a b)
         | |- context [Pos.compare_cont Eq ?a ?b] =>
             change (Pos.compare_cont Eq a b) with (Pos.compare a b) in *;
             destruct (Pos.compare_spec a b)
         end.

Lemma SFleb_refl (x : spec_float) : x <> S754_nan -> SFleb x x = true.
Proof.
  intros H. destruct x as [s | s | | s m e]; try congruence; unfold SFleb; cbn.
  - reflexivity.
  - destruct s; reflexivity.
  - destruct s; cmp_cases; cbn; try reflexivity; try lia.
Qed.

Lemma SFltb_leb (x y : spec_float) : SFltb x y = true -> SFleb x y = true.
Proof. unfold SFltb, SFleb. destruct (SFcompare x y) as [[] |]; congruence. Qed.

Lemma SFltb_false_leb (x y : spec_float) :
  x <> S754_nan -> y <> S754_nan -> SFltb x y = false -> SFleb y x = true.
Proof.
  intros Hx Hy. unfold SFltb, SFleb.
  destruct x as [s1 | s1 | | s1 m1 e1], y as [s2 | s2 | | s2 m2 e2];
    try congruence; cbn;
    try (destruct s1; cbn; congruence);
    try (destruct s2; cbn; congruence);
    try (destruct s1, s2; cbn; congruence).
  destruct s1, s2; cbn; try congruence; cmp_cases; cbn; try congruence; try lia.
Qed.

Lemma SFleb_trans (x y z : spec_float) :
  SFleb x y = true -> SFleb y z = true -> SFleb x z = true.
Proof.
  unfold SFleb.
  destruct x as [s1 | s1 | | s1 m1 e1], y as [s2 | s2 | | s2 m2 e2],
    z as [s3 | s3 | | s3 m3 e3]; cbn; try congruence;
    try (destruct s1; cbn; congruence);
    try (destruct s2; cbn; congruence);
    try (destruct s3; cbn; congruence);
    try (destruct s1, s2; cbn; congruence);
    try (destruct s1, s3; cbn; congruence);
    try (destruct s2, s3; cbn; congruence);
    try (destruct s1, s2, s3; cbn; congruence).
  all: destruct s1, s2, s3; cbn; try congruence; cmp_cases; cbn;
    try congruence; try lia.
Qed.

Lemma ordered_not_nan (x : float) : ordered x -> Prim2SF x <> S754_nan.
Proof.
  unfold ordered, is_nan. rewrite FloatAxioms.eqb_spec. intros H E. rewrite E in H.
  discriminate.
Qed.

Lemma fle_refl (x : float) : ordered x -> fle x x.
Proof.
  intros H. unfold fle. rewrite FloatAxioms.leb_spec. apply SFleb_refl, ordered_not_nan, H.
Qed.

Lemma flt_fle (x y : float) : (x <? y)%float = true -> fle x y.
Proof. unfold fle. rewrite FloatAxioms.ltb_spec, FloatAxioms.leb_spec. apply SFltb_leb. Qed.

Lemma not_flt_fle (x y : float) :
  ordered x -> ordered y -> (x <? y)%float = false -> fle y x.
Proof.
  intros Hx Hy. unfold fle. rewrite FloatAxioms.ltb_spec, FloatAxioms.leb_spec.
  apply SFltb_false_leb; apply ordered_not_nan; assumption.
Qed.

Lemma fle_trans (x y z : float) : fle x y -> fle y z -> fle x z.
Proof. unfold fle. rewrite !FloatAxioms.leb_spec. apply SFleb_trans. Qed.

(** ** std::sort *)

Lemma insert_sorted_perm (x : float) (l : list float) :
  insert_sorted x l ≡ₚ x :: l.
Proof.
  induction l as [| y l IH]; cbn; [reflexivity |].
  destruct (x <? y)%float; [reflexivity |].
  rewrite IH. apply perm_swap.
Qed.

Lemma sort_perm (v : list float) : sort v ≡ₚ v.
Proof.
  induction v as [| x v IH]; cbn; [reflexivity |].
  rewrite insert_sorted_perm, IH. reflexivity.
Qed.

Lemma sort_length (v : list float) : length (sort v) = length v.
Proof. apply Permutation_length, sort_perm. Qed.

Lemma insert_sorted_sorted (x : float) (l : list float) :
  ordered x -> Forall ordered l ->
  StronglySorted fle l -> StronglySorted fle (insert_sorted x l).
Proof.
  intros Hx Hl Hs. induction Hs as [| y l Hs IH Hy]; cbn.
  - constructor; constructor.
  - inversion Hl as [| ? ? Hoy Hol]; subst.
    destruct (x <? y)%float eqn:Hlt.
    + constructor; [constructor; assumption |].
      constructor; [apply flt_fle; exact Hlt |].
      eapply Forall_impl; [exact Hy |]. intros z Hz. cbn in Hz.
      eapply fle_trans; [apply flt_fle; exact Hlt | exact Hz].
    + constructor; [apply IH; exact Hol |].
      rewrite insert_sorted_perm. constructor; [| exact Hy].
      apply not_flt_fle; assumption.
Qed.

Lemma sort_sorted (v : list float) :
  Forall ordered v -> StronglySorted fle (sort v).
Proof.
  induction v as [| x v IH]; intros Hv; cbn; [constructor |].
  inversion Hv as [| ? ? Hx Hv']; subst.
  apply insert_sorted_sorted; [exact Hx | | apply IH; exact Hv'].
  rewrite sort_perm. exact Hv'.
Qed.

Lemma sorted_lookup_le (l : list float) :
  StronglySorted fle l ->
  forall (i j : nat) (a b : float),
    l !! i = Some a -> l !! j = Some b -> (i < j)%nat -> fle a b.
Proof.
  induction 1 as [| x l Hs IH Hx]; intros i j a b Hi Hj Hlt.
  - rewrite lookup_nil in Hi. discriminate.
  - destruct j as [| j]; [lia |]. cbn in Hj. destruct i as [| i]; cbn in Hi.
    + inversion Hi; subst. rewrite Forall_forall in Hx. apply Hx.
      eapply list_elem_of_lookup_2. exact Hj.
    + apply (IH i j); [assumption | assumption | lia].
Qed.

(** ** Small integers as doubles

    An integer below 2^53 converts to a double without rounding, and
    multiplying it by 1.0 or by 0.0 is exact. *)

Lemma digits2_pos_iter (m k : positive) :
  digits2_pos (Pos.iter xO m k) = (digits2_pos m + k)%positive.
Proof.
  induction k as [| k IH] using Pos.peano_ind.
  - cbn. lia.
  - rewrite Pos.iter_succ. cbn [digits2_pos]. rewrite IH. lia.
Qed.

Lemma iter_xO_value (m k : positive) :
  Z.pos (Pos.iter xO m k) = Z.pos m * 2 ^ Z.pos k.
Proof.
  induction k as [| k IH] using Pos.peano_ind.
  - cbn. lia.
  - rewrite Pos.iter_succ, Pos2Z.inj_xO, IH, Pos2Z.inj_succ, Z.pow_succ_r by lia.
    ring.
Qed.

Lemma digits2_pos_lower (m : positive) :
  2 ^ (Z.pos (digits2_pos m) - 1) <= Z.pos m.
Proof.
  induction m as [m IH | m IH |]; cbn [digits2_pos].
  - rewrite Pos2Z.inj_succ.
    replace (Z.succ (Z.pos (digits2_pos m)) - 1)
      with (Z.succ (Z.pos (digits2_pos m) - 1)) by lia.
    rewrite Z.pow_succ_r by lia. lia.
  - rewrite Pos2Z.inj_succ.
    replace (Z.succ (Z.pos (digits2_pos m)) - 1)
      with (Z.succ (Z.pos (digits2_pos m) - 1)) by lia.
    rewrite Z.pow_succ_r by lia. lia.
  - cbn. lia.
Qed.

Lemma digits2_pos_small (m : positive) :
  Z.pos m < 2 ^ 53 -> Z.pos (digits2_pos m) <= 53.
Proof.
  intros Hm. pose proof (digits2_pos_lower m) as Hl.
  destruct (Z.le_gt_cases (Z.pos (digits2_pos m)) 53) as [H | H]; [exact H |].
  exfalso. assert (2 ^ 53 <= 2 ^ (Z.pos (digits2_pos m) - 1)).
  { apply Z.pow_le_mono_r; lia. }
  lia.
Qed.

(** A mantissa of 53 digits with an exponent in range is its own
    rounding. *)
Lemma round_canonical (s : bool) (M : positive) (E : Z) :
  Z.pos (digits2_pos M) = 53 -> -1074 <= E <= 971 ->
  binary_round_aux prec emax s (Z.pos M) E loc_Exact = S754_finite s M E.
Proof.
  intros HM HE. unfold binary_round_aux, shr_fexp.
  cbn [Zdigits2 shr_record_of_loc]. rewrite HM.
  assert (Hf : fexp prec emax (53 + E) - E = 0).
  { unfold fexp, emin, prec, emax. lia. }
  rewrite Hf.
  cbn [shr shr_m loc_of_shr_record round_nearest_even Zdigits2 shr_record_of_loc].
  rewrite HM, Hf. cbn [shr shr_m].
  destruct (Z.leb_spec E (emax - prec)) as [_ | H]; [reflexivity |].
  unfold emax, prec in H. lia.
Qed.

Lemma normalize_small (m : positive) :
  Z.pos m < 2 ^ 53 ->
  exists M E,
    binary_normalize prec emax (Z.pos m) 0 false = S754_finite false M E /\
    Z.pos (digits2_pos M) = 53 /\ -52 <= E <= 0 /\
    Z.pos M = Z.pos m * 2 ^ (- E).
Proof.
  intros Hm. pose proof (digits2_pos_small m Hm) as Hd.
  unfold binary_normalize, binary_round.
  assert (Hf : fexp prec emax (Z.pos (digits2_pos m) + 0)
               = Z.pos (digits2_pos m) - 53).
  { unfold fexp, emin, prec, emax. lia. }
  rewrite Hf. unfold shl_align.
  destruct (Z.pos (digits2_pos m) - 53 - 0) as [| k | k] eqn:Hk; try lia.
  - exists m, 0. rewrite round_canonical by lia.
    split; [reflexivity | split; [lia | split; [lia |]]]. cbn. lia.
  - exists (Pos.iter xO m k), (Z.pos (digits2_pos m) - 53).
    assert (HM : Z.pos (digits2_pos (Pos.iter xO m k)) = 53).
    { rewrite digits2_pos_iter. lia. }
    rewrite round_canonical by lia.
    split; [reflexivity | split; [exact HM | split; [lia |]]].
    rewrite iter_xO_value. f_equal. f_equal. lia.
Qed.

Lemma mul_pow52 (M : positive) :
  (4503599627370496 * M)%positive = Pos.iter xO M 52.
Proof. reflexivity. Qed.

Lemma shr_pow52 (M : positive) :
  SpecFloat.iter_pos shr_1 52
    {| shr_m := Z.pos (4503599627370496 * M); shr_r := false; shr_s := false |}
  = {| shr_m := Z.pos M; shr_r := false; shr_s := false |}.
Proof. reflexivity. Qed.

(** 1.0 is the mantissa 2^52 at exponent -52. *)
Lemma mul_one_canonical (M : positive) (E : Z) :
  Z.pos (digits2_pos M) = 53 -> -1022 <= E <= 971 ->
  SFmul prec emax (Prim2SF 1) (S754_finite false M E) = S754_finite false M E.
Proof.
  intros HM HE.
  change (Prim2SF 1) with (S754_finite false 4503599627370496 (-52)).
  cbn [SFmul xorb]. unfold binary_round_aux, shr_fexp.
  cbn [Zdigits2 shr_record_of_loc].
  assert (Hf : fexp prec emax
                 (Z.pos (digits2_pos (4503599627370496 * M)) + (-52 + E))
               - (-52 + E) = 52).
  { rewrite mul_pow52, digits2_pos_iter. unfold fexp, emin, prec, emax. lia. }
  rewrite Hf. cbn [shr]. rewrite shr_pow52.
  cbn [shr_m loc_of_shr_record round_nearest_even Zdigits2].
  assert (Hf' : fexp prec emax (Z.pos (digits2_pos M) + (-52 + E + 52))
                - (-52 + E + 52) = 0).
  { rewrite HM. unfold fexp, emin, prec, emax. lia. }
  rewrite Hf'. cbn [shr shr_m].
  destruct (Z.leb_spec (-52 + E + 52) (emax - prec)) as [_ | H].
  - f_equal. lia.
  - unfold emax, prec in H. lia.
Qed.

Lemma double_of_small (n : Z) :
  0 < n < 2 ^ 53 ->
  exists M E,
    Prim2SF (double_of_Z n) = S754_finite false M E /\
    Z.pos (digits2_pos M) = 53 /\ -52 <= E <= 0 /\
    Z.pos M = n * 2 ^ (- E).
Proof.
  intros Hn. destruct n as [| m | m]; try lia.
  destruct (normalize_small m ltac:(lia)) as (M & E & Hnorm & HM & HE & Hval).
  exists M, E. split; [| split; [exact HM | split; [exact HE | exact Hval]]].
  unfold double_of_Z. rewrite Hnorm. apply Prim2SF_SF2Prim.
  cbn [valid_binary]. unfold bounded, canonical_mantissa. rewrite HM.
  apply andb_true_intro. split.
  - apply Z.eqb_eq. unfold fexp, emin, prec, emax. lia.
  - apply Z.leb_le. unfold prec, emax. lia.
Qed.

Lemma truncate_one_times (n : Z) :
  0 < n < 2 ^ 53 -> truncate (1 * double_of_Z n) = Some n.
Proof.
  intros Hn. destruct (double_of_small n Hn) as (M & E & Hd & HM & HE & Hval).
  unfold truncate. rewrite mul_spec, Hd. unfold SF64mul.
  rewrite mul_one_canonical by lia. f_equal.
  rewrite <- (Z.opp_involutive E), Z.shiftl_opp_r, Z.shiftr_div_pow2 by lia.
  rewrite Hval. apply Z.div_mul. apply Z.pow_nonzero; lia.
Qed.

Lemma truncate_zero_times (n : Z) :
  0 < n < 2 ^ 53 -> truncate (0 * double_of_Z n) = Some 0.
Proof.
  intros Hn. destruct (double_of_small n Hn) as (M & E & Hd & _).
  unfold truncate. rewrite mul_spec, Hd. reflexivity.
Qed.

(** ** percentile *)

Lemma percentile_nonempty (v : list float) (p : float) :
  v <> [] -> Z.of_nat (length v) < 2 ^ 64 ->
  percentile v p =
  (i ← size_t_of_double (p * double_of_Z (Z.of_nat (length v)));
   x ← index (sort v) (Z.min i (Z.of_nat (length v) - 1));
   Ok (x, sort v)).
Proof.
  intros Hv Hn. unfold percentile. destruct v as [| x v]; [congruence |].
  rewrite sort_length. unfold wrap64. rewrite Z.mod_small; [reflexivity |].
  cbn [length] in *. lia.
Qed.

Lemma percentile_at (v : list float) (p : float) (i : Z) (x : float) :
  v <> [] -> Z.of_nat (length v) < 2 ^ 64 ->
  truncate (p * double_of_Z (Z.of_nat (length v))) = Some i ->
  0 <= i < 2 ^ 64 ->
  sort v !! Z.to_nat (Z.min i (Z.of_nat (length v) - 1)) = Some x ->
  percentile v p = Ok (x, sort v).
Proof.
  intros Hv Hn Ht Hi Hx. rewrite percentile_nonempty by assumption.
  unfold size_t_of_double. rewrite Ht.
  destruct (Z.leb_spec 0 i); [| lia]. destruct (Z.ltb_spec i (2 ^ 64)); [| lia].
  cbn [andb mbind outcome_bind].
  rewrite (index_lookup _ _ x); [reflexivity | | exact Hx].
  destruct v; [congruence |]. cbn [length]. lia.
Qed.

#[local] Set Warnings "-inexact-float".

(** C6: percentile returns 0 for an empty series. For any other series it
    sorts the series in place — the vector it leaves is an ascending
    rearrangement of the samples — and returns the element at index
    [min ((size_t)(p * n), n - 1)], where [n] is the number of samples, the
    product is a double product and the conversion keeps the integer part
    (the floor, for a product that is not negative). On 1, 2, ..., 100 it
    returns 51 at 0.50, 91 at 0.90 and 100 at 0.99. On any non-empty series
    without NaN it returns the minimum at 0.0 and the maximum at 1.0. *)
Theorem percentile_sorts_and_indexes (v : list float) :
  Forall ordered v ->
  Z.of_nat (length v) < 2 ^ 53 ->
  (forall p, percentile [] p = Ok (0%float, [])) /\
  sort v ≡ₚ v /\
  StronglySorted fle (sort v) /\
  (forall p, v <> [] ->
     percentile v p =
     (i ← size_t_of_double (p * double_of_Z (Z.of_nat (length v)));
      x ← index (sort v) (Z.min i (Z.of_nat (length v) - 1));
      Ok (x, sort v))) /\
  percentile one_to_hundred 0.50 = Ok (51%float, one_to_hundred) /\
  percentile one_to_hundred 0.90 = Ok (91%float, one_to_hundred) /\
  percentile one_to_hundred 0.99 = Ok (100%float, one_to_hundred) /\
  (v <> [] ->
   exists lo hi,
     percentile v 0 = Ok (lo, sort v) /\
     percentile v 1 = Ok (hi, sort v) /\
     lo ∈ v /\ hi ∈ v /\
     forall y, y ∈ v -> fle lo y /\ fle y hi).
Proof.
  intros Hord Hlen.
  split; [reflexivity |].
  split; [apply sort_perm |].
  split; [apply sort_sorted; exact Hord |].
  split; [intros p Hv; apply percentile_nonempty; [exact Hv | lia] |].
  split; [vm_compute; reflexivity |].
  split; [vm_compute; reflexivity |].
  split; [vm_compute; reflexivity |].
  intros Hv.
  assert (Hn : 0 < Z.of_nat (length v) < 2 ^ 53).
  { destruct v; [congruence |]. cbn [length] in *. lia. }
  pose proof (sort_sorted v Hord) as Hsorted.
  assert (Hsord : Forall ordered (sort v)) by (rewrite sort_perm; exact Hord).
  destruct (lookup_lt_is_Some_2 (sort v) 0) as [lo Hlo].
  { rewrite sort_length. lia. }
  destruct (lookup_lt_is_Some_2 (sort v) (Z.to_nat (Z.of_nat (length v) - 1)))
    as [hi Hhi].
  { rewrite sort_length. lia. }
  exists lo, hi.
  split.
  { apply (percentile_at v 0 0 lo); try lia; try assumption.
    - apply truncate_zero_times. exact Hn.
    - rewrite Z.min_l by lia. exact Hlo. }
  split.
  { apply (percentile_at v 1 (Z.of_nat (length v)) hi); try lia; try assumption.
    - apply truncate_one_times. exact Hn.
    - rewrite Z.min_r by lia. exact Hhi. }
  split; [rewrite <- (sort_perm v); eapply list_elem_of_lookup_2; exact Hlo |].
  split; [rewrite <- (sort_perm v); eapply list_elem_of_lookup_2; exact Hhi |].
  intros y Hy. rewrite <- (sort_perm v) in Hy.
  apply list_elem_of_lookup_1 in Hy as [j Hj].
  assert (Hoy : ordered y).
  { rewrite Forall_forall in Hsord. apply Hsord.
    eapply list_elem_of_lookup_2. exact Hj. }
  pose proof (lookup_lt_Some _ _ _ Hj) as Hjlt. rewrite sort_length in Hjlt.
  split.
  - destruct j as [| j].
    + rewrite Hlo in Hj. inversion Hj; subst. apply fle_refl. exact Hoy.
    + apply (sorted_lookup_le _ Hsorted 0 (S j)); [exact Hlo | exact Hj | lia].
  - destruct (Nat.eq_dec j (Z.to_nat (Z.of_nat (length v) - 1))) as [-> | Hne].
    + rewrite Hhi in Hj. inversion Hj; subst. apply fle_refl. exact Hoy.
    + apply (sorted_lookup_le _ Hsorted j (Z.to_nat (Z.of_nat (length v) - 1)));
        [exact Hj | exact Hhi | lia].
Qed.

Lemma percentile_sorts_and_indexes_witness :
  exists lo hi,
    percentile [3; 1; 2]%float 0 = Ok (lo, [1; 2; 3]%float) /\
    percentile [3; 1; 2]%float 1 = Ok (hi, [1; 2; 3]%float) /\
    fle lo 2 /\ fle 2 hi.
Proof.
  assert (Hord : Forall ordered [3; 1; 2]%float)
    by (repeat constructor).
  assert (Hlen : Z.of_nat (length [3; 1; 2]%float) < 2 ^ 53) by (cbn; lia).
  destruct (percentile_sorts_and_indexes [3; 1; 2]%float Hord Hlen)
    as (_ & _ & _ & _ & _ & _ & _ & H).
  destruct (H ltac:(discriminate)) as (lo & hi & Hlo & Hhi & _ & _ & Hy).
  exists lo, hi. split; [exact Hlo | split; [exact Hhi |]].
  apply Hy. right. right. left.
Defined.

(** * Further properties *)

(** ** The queue as a list *)

Section Fifo.

Context {T : Type}.
Variable C : Z.
Hypothesis C_range : 0 < C <= 2 ^ 63.

Lemma push_contents (q : SPSC.SPSCQueue T) (item : T) :
  SPSC.wf C q ->
  fst (SPSC.push C q item) = true ->
  SPSC.contents C (snd (SPSC.push C q item)) = SPSC.contents C q ++ [Some item].
Proof.
  intros Hq Hok. pose proof (push_wf C C_range q item Hq) as Hq'.
  pose proof (push_size C C_range q item Hq Hok) as Hsz.
  pose proof (size_bounds C C_range q Hq) as Hb.
  pose proof (size_bounds C C_range _ Hq') as Hb'.
  unfold SPSC.contents. rewrite Hsz.
  rewrite Z2Nat.inj_add by lia. change (Z.to_nat 1) with 1%nat.
  rewrite Nat.add_1_r, window_snoc.
  pose proof Hq as (Hlen & Hh & Ht).
  assert (Hhd : (SPSC.tail_ q + Z.of_nat (Z.to_nat (SPSC.size C q))) mod C
                = SPSC.head_ q).
  { rewrite Z2Nat.id by lia. rewrite (size_eq C C_range) by assumption.
    pose proof (Z.mod_pos_bound (SPSC.head_ q - SPSC.tail_ q) C ltac:(lia)).
    rewrite add_mod by lia. rewrite sub_mod by assumption. ring_cases; lia. }
  revert Hok Hsz Hb'. unfold SPSC.push.
  destruct (_ =? _); cbn [fst snd]; [discriminate | intros _ _ _].
  cbn [SPSC.buffer_ SPSC.tail_]. rewrite Hhd. f_equal.
  - rewrite <- Hhd at 1. apply (window_insert C C_range); [assumption | lia].
  - f_equal. apply list_lookup_insert_eq. lia.
Qed.

Lemma pop_contents (q : SPSC.SPSCQueue T) (item : T) :
  SPSC.wf C q ->
  fst (fst (SPSC.pop C q item)) = true ->
  SPSC.contents C q =
  Some (snd (fst (SPSC.pop C q item))) :: SPSC.contents C (snd (SPSC.pop C q item)).
Proof.
  intros Hq Hok. pose proof (pop_wf C C_range q item Hq) as Hq'.
  pose proof (pop_size C C_range q item Hq Hok) as Hsz.
  pose proof (size_bounds C C_range _ Hq') as Hb'.
  unfold SPSC.contents.
  replace (SPSC.size C q) with (SPSC.size C (snd (SPSC.pop C q item)) + 1) by lia.
  rewrite Z2Nat.inj_add by lia. change (Z.to_nat 1) with 1%nat.
  rewrite Nat.add_1_r. destruct Hq as (Hlen & Hh & Ht).
  rewrite window_cons by assumption.
  revert Hok Hsz Hb'. unfold SPSC.pop.
  destruct (_ =? _); cbn [fst snd]; [discriminate | intros _ _ _].
  cbn [SPSC.buffer_ SPSC.tail_]. rewrite (next_index C C_range) by assumption.
  f_equal. unfold SPSC.slot.
  destruct (lookup_lt_is_Some_2 (SPSC.buffer_ q) (Z.to_nat (SPSC.tail_ q)) ltac:(lia))
    as [x Hx].
  rewrite Hx. reflexivity.
Qed.

End Fifo.

Section Batches.

Context {T : Type}.
Variable C : Z.
Hypothesis C_range : 0 < C <= 2 ^ 63.

Lemma contents_length (q : SPSC.SPSCQueue T) :
  SPSC.wf C q -> Z.of_nat (length (SPSC.contents C q)) = SPSC.size C q.
Proof.
  intros Hq. unfold SPSC.contents. rewrite window_length.
  pose proof (size_bounds C C_range q Hq). lia.
Qed.

Lemma push_accepted_below (q : SPSC.SPSCQueue T) (item : T) :
  SPSC.wf C q -> SPSC.size C q < C - 1 -> fst (SPSC.push C q item) = true.
Proof.
  intros Hq Hlt. destruct (fst (SPSC.push C q item)) eqn:E; [reflexivity |].
  apply (push_full_iff C C_range q item Hq) in E.
  apply (full_size C C_range q Hq) in E. lia.
Qed.

Lemma push_all_spec (items : list T) :
  forall q : SPSC.SPSCQueue T,
    SPSC.wf C q ->
    SPSC.size C q + Z.of_nat (length items) <= C - 1 ->
    fst (push_all C q items) = replicate (length items) true /\
    SPSC.wf C (snd (push_all C q items)) /\
    SPSC.contents C (snd (push_all C q items))
    = SPSC.contents C q ++ (Some <$> items).
Proof.
  induction items as [| x items IH]; intros q Hq Hroom.
  - cbn. rewrite app_nil_r. split; [reflexivity | split; [exact Hq | reflexivity]].
  - cbn [length] in Hroom.
    assert (Hok : fst (SPSC.push C q x) = true)
      by (apply push_accepted_below; [exact Hq | lia]).
    pose proof (push_wf C C_range q x Hq) as Hq1.
    pose proof (push_size C C_range q x Hq Hok) as Hsz.
    pose proof (push_contents C C_range q x Hq Hok) as Hc.
    cbn [push_all]. destruct (SPSC.push C q x) as [ok q1]. cbn [fst snd] in *.
    subst ok. destruct (IH q1 Hq1 ltac:(lia)) as (Hoks & Hwf & Hcs).
    destruct (push_all C q1 items) as [oks q2]. cbn [fst snd] in *.
    split; [cbn; rewrite Hoks; reflexivity |].
    split; [exact Hwf |].
    rewrite Hcs, Hc, <- app_assoc. reflexivity.
Qed.

Lemma pop_all_spec (l : list T) :
  forall (q : SPSC.SPSCQueue T) (rest : list (option T)) (item : T),
    SPSC.wf C q ->
    SPSC.contents C q = (Some <$> l) ++ rest ->
    fst (pop_all C q (length l) item) = (fun x => (true, x)) <$> l /\
    SPSC.wf C (snd (pop_all C q (length l) item)) /\
    SPSC.contents C (snd (pop_all C q (length l) item)) = rest.
Proof.
  induction l as [| x l IH]; intros q rest item Hq Hc.
  - cbn. split; [reflexivity | split; assumption].
  - assert (Hok : fst (fst (SPSC.pop C q item)) = true).
    { destruct (fst (fst (SPSC.pop C q item))) eqn:E; [reflexivity |].
      apply (pop_empty_iff C q item) in E. apply (empty_size C C_range q Hq) in E.
      rewrite <- (contents_length q Hq), Hc in E. cbn in E. lia. }
    pose proof (pop_wf C C_range q item Hq) as Hq1.
    pose proof (pop_contents C C_range q item Hq Hok) as Hpc.
    rewrite Hc in Hpc. cbn [fmap list_fmap app] in Hpc.
    cbn [length pop_all].
    destruct (SPSC.pop C q item) as [[ok y] q1]. cbn [fst snd] in *.
    subst ok. assert (Hx : x = y) by congruence.
    assert (Hrest : SPSC.contents C q1 = (Some <$> l) ++ rest) by congruence.
    destruct (IH q1 rest y Hq1 Hrest) as (Hrs & Hwf & Hcs).
    destruct (pop_all C q1 (length l) y) as [rs q2]. cbn [fst snd] in *.
    split; [cbn; rewrite Hrs, Hx; reflexivity |].
    split; assumption.
Qed.

End Batches.

(** X1: on a queue whose indices address the array, the slots from [tail]
    up to [head] behave as a list: an accepted [push] appends its item at
    the end, a refused [push] leaves the list alone, an accepted [pop]
    returns the first element and removes it, and [pop] is refused exactly
    when the list is empty; the list is as long as [size] says. *)
Theorem queue_is_fifo_list {T : Type} (C : Z) (q : SPSC.SPSCQueue T) (item : T) :
  0 < C <= 2 ^ 63 ->
  SPSC.wf C q ->
  (fst (SPSC.push C q item) = true ->
   SPSC.contents C (snd (SPSC.push C q item)) = SPSC.contents C q ++ [Some item]) /\
  (fst (SPSC.push C q item) = false ->
   SPSC.contents C (snd (SPSC.push C q item)) = SPSC.contents C q) /\
  (fst (fst (SPSC.pop C q item)) = true ->
   SPSC.contents C q =
   Some (snd (fst (SPSC.pop C q item))) :: SPSC.contents C (snd (SPSC.pop C q item))) /\
  (fst (fst (SPSC.pop C q item)) = false <-> SPSC.contents C q = []) /\
  Z.of_nat (length (SPSC.contents C q)) = SPSC.size C q.
Proof.
  intros HC Hq.
  split; [apply push_contents; assumption |].
  split.
  { unfold SPSC.push. destruct (_ =? _); cbn [fst snd]; [reflexivity | discriminate]. }
  split; [apply pop_contents; assumption |].
  split; [| apply contents_length; assumption].
  rewrite (pop_empty_iff C q item), (empty_size C HC q Hq).
  rewrite <- (contents_length C HC q Hq). split.
  - intros E. destruct (SPSC.contents C q); [reflexivity | cbn in E; lia].
  - intros ->. reflexivity.
Qed.

Lemma queue_is_fifo_list_witness :
  let q := {| SPSC.buffer_ := [10; 20; 30; 40]; SPSC.head_ := 1; SPSC.tail_ := 3 |} in
  SPSC.contents 4 q = [Some 40; Some 10] /\
  SPSC.contents 4 (snd (SPSC.push 4 q 50)) = [Some 40; Some 10; Some 50] /\
  SPSC.contents 4 q = Some 40 :: SPSC.contents 4 (snd (SPSC.pop 4 q 0)).
Proof.
  intros q.
  assert (HC : 0 < 4 <= 2 ^ 63) by lia.
  assert (Hq : SPSC.wf 4 q) by (unfold SPSC.wf; cbn; lia).
  destruct (queue_is_fifo_list 4 q 50 HC Hq) as (Hpush & _).
  destruct (queue_is_fifo_list 4 q 0 HC Hq) as (_ & _ & Hpop & _).
  split; [reflexivity |].
  split; [exact (Hpush eq_refl) | exact (Hpop eq_refl)].
Defined.

(** X2: into an empty queue of capacity [C], a batch of at most [C - 1]
    items is accepted item by item; as many [pop] calls then return the
    items in the order they were pushed and leave the queue empty, and one
    more [pop] is refused. With exactly [C - 1] items in the queue a further
    [push] is refused. *)
Theorem batch_round_trip {T : Type} (C : Z) (init items : list T) (item x : T) :
  0 < C <= 2 ^ 63 ->
  Z.of_nat (length init) = C ->
  Z.of_nat (length items) <= C - 1 ->
  let filled := push_all C (SPSC.new init) items in
  let drained := pop_all C (snd filled) (length items) item in
  fst filled = replicate (length items) true /\
  SPSC.size C (snd filled) = Z.of_nat (length items) /\
  (Z.of_nat (length items) = C - 1 -> fst (SPSC.push C (snd filled) x) = false) /\
  fst drained = (fun y => (true, y)) <$> items /\
  SPSC.size C (snd drained) = 0 /\
  fst (fst (SPSC.pop C (snd drained) x)) = false.
Proof.
  intros HC Hlen Hitems filled drained.
  assert (Hnew : SPSC.wf C (SPSC.new init)).
  { unfold SPSC.wf, SPSC.new; cbn. lia. }
  assert (Hempty : SPSC.contents C (SPSC.new init) = []).
  { unfold SPSC.contents, SPSC.size, SPSC.new; cbn.
    rewrite (size_index C HC 0 0) by lia. rewrite Z.mod_0_l by lia. reflexivity. }
  assert (Hsz0 : SPSC.size C (SPSC.new init) = 0).
  { rewrite <- (contents_length C HC _ Hnew), Hempty. reflexivity. }
  destruct (push_all_spec C HC items (SPSC.new init) Hnew ltac:(lia))
    as (Hoks & Hwf & Hcs).
  fold filled in Hoks, Hwf, Hcs. rewrite Hempty in Hcs. cbn [app] in Hcs.
  assert (Hsz : SPSC.size C (snd filled) = Z.of_nat (length items)).
  { rewrite <- (contents_length C HC _ Hwf), Hcs, length_fmap. reflexivity. }
  destruct (pop_all_spec C HC items (snd filled) [] item Hwf)
    as (Hrs & Hwf' & Hcs').
  { rewrite Hcs, app_nil_r. reflexivity. }
  fold drained in Hrs, Hwf', Hcs'.
  assert (Hsz' : SPSC.size C (snd drained) = 0).
  { rewrite <- (contents_length C HC _ Hwf'), Hcs'. reflexivity. }
  split; [exact Hoks |]. split; [exact Hsz |].
  split.
  { intros Hfull. apply (push_full_iff C HC _ x Hwf).
    apply (full_size C HC _ Hwf). lia. }
  split; [exact Hrs |]. split; [exact Hsz' |].
  apply (pop_empty_iff C _ x). apply (empty_size C HC _ Hwf'). exact Hsz'.
Qed.

Lemma batch_round_trip_witness :
  let filled := push_all 4 (SPSC.new [0; 0; 0; 0]) [7; 8; 9] in
  fst filled = [true; true; true] /\
  fst (SPSC.push 4 (snd filled) 1) = false /\
  fst (pop_all 4 (snd filled) 3 0) = [(true, 7); (true, 8); (true, 9)].
Proof.
  intros filled.
  destruct (batch_round_trip 4 [0; 0; 0; 0] [7; 8; 9] 0 1
              ltac:(lia) eq_refl ltac:(cbn; lia))
    as (Hoks & _ & Hfull & Hrs & _).
  split; [exact Hoks | split; [exact (Hfull eq_refl) | exact Hrs]].
Defined.

(** ** The processor thread *)

Lemma QUEUE_SIZE_range : 0 < QUEUE_SIZE <= 2 ^ 63.
Proof. unfold QUEUE_SIZE. change (Z.shiftl 1 14) with 16384. lia. Qed.

Lemma index_ok {A : Type} (v : list A) (i : Z) (x : A) :
  index v i = Ok x -> 0 <= i /\ v !! Z.to_nat i = Some x.
Proof.
  unfold index. destruct (Z.leb_spec 0 i); [| discriminate].
  destruct (v !! Z.to_nat i) as [y |]; [| discriminate].
  intros E. inversion E. split; [assumption | reflexivity].
Qed.

Lemma refused_unchanged (r : race) (queues : list Queue) (d : Z) (q : Queue)
    (m : Message) :
  index queues d = Ok q ->
  fst (racing_push r q m) = false ->
  <[Z.to_nat d := snd (racing_push r q m)]> queues = queues.
Proof.
  intros Hq Hok. apply index_ok in Hq as [_ Hq].
  rewrite (racing_push_refused r q m Hok). apply list_insert_id. exact Hq.
Qed.

(** *** A push that races with pops only *)

Lemma pop_all_frame (n : nat) :
  forall (q : Queue) (item : Message),
    SPSC.buffer_ (snd (pop_all QUEUE_SIZE q n item)) = SPSC.buffer_ q /\
    SPSC.head_ (snd (pop_all QUEUE_SIZE q n item)) = SPSC.head_ q.
Proof.
  induction n as [| n IH]; intros q item; [split; reflexivity |].
  cbn [pop_all].
  destruct (SPSC.pop QUEUE_SIZE q item) as [[ok item'] q1] eqn:Hpop.
  destruct (IH q1 item') as [Hb Hh].
  destruct (pop_all QUEUE_SIZE q1 n item') as [rs q2]. cbn [snd] in *.
  rewrite Hb, Hh. revert Hpop. unfold SPSC.pop.
  destruct (_ =? _); intros E; inversion E; subst; split; reflexivity.
Qed.

(** Where the pops leave [tail_] depends on the two indices only. *)
Lemma pop_all_tail (n : nat) :
  forall (q q' : Queue) (item item' : Message),
    SPSC.head_ q = SPSC.head_ q' ->
    SPSC.tail_ q = SPSC.tail_ q' ->
    SPSC.tail_ (snd (pop_all QUEUE_SIZE q n item))
    = SPSC.tail_ (snd (pop_all QUEUE_SIZE q' n item')).
Proof.
  induction n as [| n IH]; intros q q' item item' Hh Ht; [exact Ht |].
  cbn [pop_all].
  destruct (SPSC.pop QUEUE_SIZE q item) as [[ok x] q1] eqn:Hpop.
  destruct (SPSC.pop QUEUE_SIZE q' item') as [[ok' x'] q1'] eqn:Hpop'.
  assert (Hq1 : SPSC.head_ q1 = SPSC.head_ q1' /\ SPSC.tail_ q1 = SPSC.tail_ q1').
  { revert Hpop Hpop'. unfold SPSC.pop. rewrite Hh, Ht.
    destruct (_ =? _); intros E E'; inversion E; inversion E'; subst; cbn;
      split; congruence. }
  destruct Hq1 as [Hh1 Ht1]. specialize (IH q1 q1' x x' Hh1 Ht1).
  destruct (pop_all QUEUE_SIZE q1 n x) as [rs q2].
  destruct (pop_all QUEUE_SIZE q1' n x') as [rs' q2']. exact IH.
Qed.

Lemma pop_all_contents (n : nat) :
  forall (q : Queue) (item : Message),
    SPSC.wf QUEUE_SIZE q ->
    SPSC.wf QUEUE_SIZE (snd (pop_all QUEUE_SIZE q n item)) /\
    SPSC.contents QUEUE_SIZE (snd (pop_all QUEUE_SIZE q n item))
    = drop n (SPSC.contents QUEUE_SIZE q).
Proof.
  pose proof QUEUE_SIZE_range as HC.
  induction n as [| n IH]; intros q item Hq; [split; [exact Hq | reflexivity] |].
  cbn [pop_all].
  pose proof (pop_wf QUEUE_SIZE HC q item Hq) as Hq1.
  pose proof (pop_contents QUEUE_SIZE HC q item Hq) as Hc.
  destruct (fst (fst (SPSC.pop QUEUE_SIZE q item))) eqn:Hok.
  - specialize (Hc eq_refl).
    destruct (SPSC.pop QUEUE_SIZE q item) as [[ok x] q1]. cbn [fst snd] in *.
    destruct (IH q1 x Hq1) as [Hwf Hd].
    destruct (pop_all QUEUE_SIZE q1 n x) as [rs q2]. cbn [snd] in *.
    split; [exact Hwf |]. rewrite Hd, Hc. reflexivity.
  - assert (Hempty : SPSC.contents QUEUE_SIZE q = []).
    { apply nil_length_inv. pose proof (contents_length QUEUE_SIZE HC q Hq) as Hl.
      apply pop_empty_iff in Hok. apply (empty_size QUEUE_SIZE HC q Hq) in Hok. lia. }
    assert (Hsame : snd (SPSC.pop QUEUE_SIZE q item) = q).
    { revert Hok. unfold SPSC.pop. destruct (_ =? _); cbn; [reflexivity | discriminate]. }
    destruct (SPSC.pop QUEUE_SIZE q item) as [[ok x] q1]. cbn [fst snd] in *. subst q1.
    destruct (IH q x Hq) as [Hwf Hd].
    destruct (pop_all QUEUE_SIZE q n x) as [rs q2]. cbn [snd] in *.
    split; [exact Hwf |]. rewrite Hd, Hempty, !drop_nil. reflexivity.
Qed.

(** The push of a thread that is alone in [push] on its queue appends: the
    queue it leaves holds what the pops of the other thread have left of the
    earlier contents, followed by the item. *)
Lemma racing_push_appends (r : race) (q : Queue) (m : Message) :
  SPSC.wf QUEUE_SIZE q ->
  sole_pusher r ->
  fst (racing_push r q m) = true ->
  exists k : nat,
    SPSC.wf QUEUE_SIZE (snd (racing_push r q m)) /\
    SPSC.contents QUEUE_SIZE (snd (racing_push r q m))
    = drop k (SPSC.contents QUEUE_SIZE q) ++ [Some m].
Proof.
  pose proof QUEUE_SIZE_range as HC.
  intros Hq (Hhead & Hslot & Hpub) Hok.
  destruct (Hslot q) as [n2 H2].
  destruct (Hpub {| SPSC.buffer_ :=
                      <[Z.to_nat (SPSC.head_ q) := m]> (SPSC.buffer_ (before_slot r q));
                    SPSC.head_ := SPSC.head_ (before_slot r q);
                    SPSC.tail_ := SPSC.tail_ (before_slot r q) |}) as [n3 H3].
  set (qc := snd (pop_all QUEUE_SIZE (before_slot r q) n3 zero_message)).
  destruct (pop_all_frame n2 q zero_message) as [Hb2 Hh2]. rewrite <- H2 in Hb2, Hh2.
  destruct (pop_all_contents n2 q zero_message Hq) as [Hwf2 Hc2].
  rewrite <- H2 in Hwf2, Hc2.
  destruct (pop_all_frame n3 (before_slot r q) zero_message) as [Hbc Hhc].
  destruct (pop_all_contents n3 (before_slot r q) zero_message Hwf2) as [Hwfc Hcc].
  fold qc in Hbc, Hhc, Hwfc, Hcc.
  assert (Hfull : (SPSC.head_ q + 1) mod QUEUE_SIZE <> SPSC.tail_ q).
  { revert Hok. unfold racing_push. rewrite Hhead.
    pose proof Hq as (_ & Hrange & _).
    rewrite (next_index QUEUE_SIZE HC) by exact Hrange.
    destruct (Z.eqb_spec ((SPSC.head_ q + 1) mod QUEUE_SIZE) (SPSC.tail_ q));
      cbn; [discriminate | intros _; assumption]. }
  assert (Hroom : SPSC.size QUEUE_SIZE q < QUEUE_SIZE - 1).
  { pose proof (size_bounds QUEUE_SIZE HC q Hq).
    pose proof (full_size QUEUE_SIZE HC q Hq) as Hf.
    destruct (Z.eq_dec (SPSC.size QUEUE_SIZE q) (QUEUE_SIZE - 1)) as [E | E];
      [apply Hf in E; contradiction | lia]. }
  assert (Hroomc : SPSC.size QUEUE_SIZE qc < QUEUE_SIZE - 1).
  { rewrite <- (contents_length QUEUE_SIZE HC qc Hwfc), Hcc, Hc2.
    rewrite <- (contents_length QUEUE_SIZE HC q Hq) in Hroom.
    rewrite !length_drop. lia. }
  pose proof (push_accepted_below QUEUE_SIZE HC qc m Hwfc Hroomc) as Hokc.
  assert (Hsame : snd (racing_push r q m) = snd (SPSC.push QUEUE_SIZE qc m)).
  { revert Hok Hokc. unfold racing_push, SPSC.push. rewrite Hhead.
    destruct (_ =? SPSC.tail_ q); cbn [fst snd]; [discriminate | intros _].
    destruct (_ =? SPSC.tail_ qc); cbn [fst snd]; [discriminate | intros _].
    rewrite H3.
    set (qw := {| SPSC.buffer_ :=
                    <[Z.to_nat (SPSC.head_ q) := m]> (SPSC.buffer_ (before_slot r q));
                  SPSC.head_ := SPSC.head_ (before_slot r q);
                  SPSC.tail_ := SPSC.tail_ (before_slot r q) |}).
    destruct (pop_all_frame n3 qw zero_message) as [Hb _].
    pose proof (pop_all_tail n3 qw (before_slot r q) zero_message zero_message
                  eq_refl eq_refl) as Ht.
    fold qc in Ht. rewrite Hb, Ht. unfold qw. cbn [SPSC.buffer_].
    rewrite Hhc, Hbc, Hh2. reflexivity. }
  exists (n2 + n3)%nat. rewrite Hsame.
  split; [apply (push_wf QUEUE_SIZE HC); exact Hwfc |].
  rewrite (push_contents QUEUE_SIZE HC qc m Hwfc Hokc), Hcc, Hc2, drop_drop.
  reflexivity.
Qed.

Lemma calm_sole_pusher : sole_pusher calm.
Proof.
  split; [intros q; reflexivity |].
  split; intros q; exists 0%nat; reflexivity.
Qed.

(** Two threads inside [push] on one queue: the other thread makes its
    whole push, of the message with sequence number 20, between this
    thread's store to the slot and its store of [head_]. Both calls return
    [true] and the queue holds the other thread's message only. *)
Example racing_push_loses :
  let other := mkMessage 0 1 20 0 0 0 in
  let mine := mkMessage 0 0 10 0 0 0 in
  let r := {| head_read := SPSC.head_;
              before_slot := fun q => q;
              before_head := fun q => snd (SPSC.push QUEUE_SIZE q other) |} in
  fst (SPSC.push QUEUE_SIZE
         {| SPSC.buffer_ := <[0%nat := mine]> (SPSC.buffer_ (empty_queue zero_message));
            SPSC.head_ := 0; SPSC.tail_ := 0 |} other) = true /\
  fst (racing_push r (empty_queue zero_message) mine) = true /\
  SPSC.contents QUEUE_SIZE (snd (racing_push r (empty_queue zero_message) mine))
  = [Some other].
Proof. vm_compute. repeat split; reflexivity. Qed.

Lemma interference_cons (r : Processor.retry) (turns : list Processor.retry)
    (queues : list Queue) :
  Processor.interference (r :: turns) queues
  = Processor.interference turns (Processor.before_push r queues).
Proof. reflexivity. Qed.

(** How the inner loop ends, in terms of the turn it ends at. *)
Lemma forward_spec (m : Message) (d : Z) (turns : list Processor.retry) :
  forall (queues : list Queue) (r : Processor.forwarded),
    Processor.forward m d turns queues = Ok r ->
    match r with
    | Processor.Pushed queues' =>
        exists (k : nat) (t : Processor.retry) (q : Queue),
          turns !! k = Some t /\
          index (Processor.interference (take (S k) turns) queues) d = Ok q /\
          fst (racing_push (Processor.pushing t) q m) = true /\
          queues' = <[Z.to_nat d := snd (racing_push (Processor.pushing t) q m)]>
                      (Processor.interference (take (S k) turns) queues)
    | Processor.Returned queues' =>
        exists (k : nat) (t : Processor.retry),
          turns !! k = Some t /\ Processor.stop_then t = true /\
          queues' = Processor.interference (take (S k) turns) queues
    | Processor.Retrying queues' =>
        queues' = Processor.interference turns queues
    end.
Proof.
  induction turns as [| t turns IH]; intros queues r E.
  - inversion E. reflexivity.
  - cbn [Processor.forward] in E.
    destruct (index (Processor.before_push t queues) d) as [q | |] eqn:Hq;
      cbn in E; try discriminate.
    destruct (racing_push (Processor.pushing t) q m) as [ok q'] eqn:Hpush.
    destruct ok.
    + inversion E; subst r. exists 0%nat, t, q. rewrite Hpush. cbn.
      split; [reflexivity | split; [exact Hq | split; reflexivity]].
    + assert (Hsame : <[Z.to_nat d := q']> (Processor.before_push t queues)
                      = Processor.before_push t queues).
      { replace q' with (snd (racing_push (Processor.pushing t) q m))
          by (rewrite Hpush; reflexivity).
        apply refused_unchanged; [exact Hq | rewrite Hpush; reflexivity]. }
      rewrite Hsame in E. destruct (Processor.stop_then t) eqn:Hstop.
      * inversion E; subst r. exists 0%nat, t.
        split; [reflexivity | split; [exact Hstop | reflexivity]].
      * specialize (IH _ _ E). destruct r as [queues' | queues' | queues'].
        -- destruct IH as (k & t0 & q0 & Hk & Hq0 & Hok & ->).
           exists (S k), t0, q0. cbn [take]. rewrite interference_cons.
           split; [exact Hk | split; [exact Hq0 | split; [exact Hok | reflexivity]]].
        -- destruct IH as (k & t0 & Hk & Hst & ->).
           exists (S k), t0. cbn [take]. rewrite interference_cons.
           split; [exact Hk | split; [exact Hst | reflexivity]].
        -- rewrite interference_cons. exact IH.
Qed.

(** What a pass that popped a message did before the inner loop. *)
Lemma body_popped (cfg : Config) (proc_id : Z) (t : Processor.tick)
    (st : Processor.state) (p : Processor.pass) (st' : Processor.state) :
  Processor.body cfg proc_id t st = Ok (p, st') ->
  exists q1,
    index (Processor.meanwhile t (Processor.stage1_queues st)) proc_id = Ok q1 /\
    Processor.stage1_queues st' =
      <[Z.to_nat proc_id := snd (SPSC.pop QUEUE_SIZE q1 (Processor.msg st))]>
        (Processor.meanwhile t (Processor.stage1_queues st)) /\
    match p with
    | Processor.Idle =>
        fst (fst (SPSC.pop QUEUE_SIZE q1 (Processor.msg st))) = false /\
        Processor.msg st' = Processor.msg st /\
        Processor.stage2_queues st' = Processor.stage2_queues st /\
        Processor.processed st' = Processor.processed st
    | Processor.Forwarded m d =>
        fst (fst (SPSC.pop QUEUE_SIZE q1 (Processor.msg st))) = true /\
        m = {| msg_type := msg_type (snd (fst (SPSC.pop QUEUE_SIZE q1 (Processor.msg st))));
               producer_id := producer_id (snd (fst (SPSC.pop QUEUE_SIZE q1 (Processor.msg st))));
               sequence := sequence (snd (fst (SPSC.pop QUEUE_SIZE q1 (Processor.msg st))));
               timestamp_ns := timestamp_ns (snd (fst (SPSC.pop QUEUE_SIZE q1 (Processor.msg st))));
               processor_id := wrap8 proc_id;
               processed_ns := Processor.clock t |} /\
        index (stage2_routing cfg) (msg_type m) = Ok d /\
        Processor.forward m d (Processor.retries t) (Processor.stage2_queues st)
          = Ok (Processor.Pushed (Processor.stage2_queues st')) /\
        Processor.processed st' = wrap64 (Processor.processed st + 1) /\
        Processor.msg st' = m
    | Processor.Dropped m =>
        fst (fst (SPSC.pop QUEUE_SIZE q1 (Processor.msg st))) = true /\
        (exists d,
           index (stage2_routing cfg) (msg_type m) = Ok d /\
           Processor.forward m d (Processor.retries t) (Processor.stage2_queues st)
             = Ok (Processor.Returned (Processor.stage2_queues st'))) /\
        Processor.processed st' = Processor.processed st /\
        Processor.msg st' = m
    | Processor.Busy m =>
        fst (fst (SPSC.pop QUEUE_SIZE q1 (Processor.msg st))) = true /\
        (exists d,
           index (stage2_routing cfg) (msg_type m) = Ok d /\
           Processor.forward m d (Processor.retries t) (Processor.stage2_queues st)
             = Ok (Processor.Retrying (Processor.stage2_queues st'))) /\
        Processor.processed st' = Processor.processed st /\
        Processor.msg st' = m
    end.
Proof.
  unfold Processor.body.
  destruct (index (Processor.meanwhile t (Processor.stage1_queues st)) proc_id)
    as [q1 | |] eqn:Hq1; cbn [mbind outcome_bind]; try discriminate.
  destruct (SPSC.pop QUEUE_SIZE q1 (Processor.msg st)) as [[ok m0] q1'] eqn:Hpop.
  intros E. exists q1. split; [reflexivity |]. rewrite Hpop. cbn [fst snd].
  destruct ok.
  - cbn [msg_type] in E.
    destruct (index (stage2_routing cfg) (msg_type m0)) as [d | |] eqn:Hd;
      cbn [mbind outcome_bind] in E; try discriminate.
    destruct (Processor.forward _ d (Processor.retries t) (Processor.stage2_queues st))
      as [[qs | qs | qs] | |] eqn:Hf; cbn [mbind outcome_bind] in E;
      try discriminate; inversion E; subst; cbn.
    + split; [reflexivity |]. split; [reflexivity |]. split; [reflexivity |].
      split; [exact Hd | split; [exact Hf | split; reflexivity]].
    + split; [reflexivity |]. split; [reflexivity |].
      split; [exists d; split; [exact Hd | exact Hf] | split; reflexivity].
    + split; [reflexivity |]. split; [reflexivity |].
      split; [exists d; split; [exact Hd | exact Hf] | split; reflexivity].
  - inversion E; subst; cbn.
    split; [reflexivity |]. split; [reflexivity |].
    assert (Hm : m0 = Processor.msg st).
    { revert Hpop. unfold SPSC.pop. destruct (_ =? _); intros E'; inversion E'.
      reflexivity. }
    subst m0. repeat split; reflexivity.
Qed.

(** X3: a processor pass that forwards a message took the oldest message
    of its own Stage-1 queue, kept its type, producer, sequence number and
    timestamp, stamped it with its own index modulo 256 and the clock, and
    pushed it, in the turn that was accepted, into the Stage-2 queue the
    routing table names for the message's type. If no other processor is
    inside [push] on that queue during the call, the queue then holds what
    the strategy has left of its contents, followed by the message:
    the message is appended. Between processors that push the same queue at
    the same time this need not hold. The thread touched no other Stage-2
    queue, and [processed] went up by one. *)
Theorem processor_forwards
    (cfg : Config) (proc_id : Z) (t : Processor.tick) (st st' : Processor.state)
    (m : Message) (d : Z) :
  Processor.body cfg proc_id t st = Ok (Processor.Forwarded m d, st') ->
  exists (q1 q1' : Queue) (m0 : Message) (k : nat) (r : Processor.retry) (q2 : Queue),
    index (Processor.meanwhile t (Processor.stage1_queues st)) proc_id = Ok q1 /\
    SPSC.pop QUEUE_SIZE q1 (Processor.msg st) = (true, m0, q1') /\
    index (Processor.stage1_queues st') proc_id = Ok q1' /\
    (SPSC.wf QUEUE_SIZE q1 ->
     SPSC.contents QUEUE_SIZE q1 = Some m0 :: SPSC.contents QUEUE_SIZE q1') /\
    msg_type m = msg_type m0 /\ producer_id m = producer_id m0 /\
    sequence m = sequence m0 /\ timestamp_ns m = timestamp_ns m0 /\
    processor_id m = wrap8 proc_id /\ processed_ns m = Processor.clock t /\
    index (stage2_routing cfg) (msg_type m0) = Ok d /\
    Processor.retries t !! k = Some r /\
    index (Processor.interference (take (S k) (Processor.retries t))
             (Processor.stage2_queues st)) d = Ok q2 /\
    fst (racing_push (Processor.pushing r) q2 m) = true /\
    index (Processor.stage2_queues st') d
      = Ok (snd (racing_push (Processor.pushing r) q2 m)) /\
    (SPSC.wf QUEUE_SIZE q2 ->
     sole_pusher (Processor.pushing r) ->
     exists n : nat,
       SPSC.contents QUEUE_SIZE (snd (racing_push (Processor.pushing r) q2 m))
       = drop n (SPSC.contents QUEUE_SIZE q2) ++ [Some m]) /\
    (forall j : nat,
       j <> Z.to_nat d ->
       Processor.stage2_queues st' !! j =
       Processor.interference (take (S k) (Processor.retries t))
         (Processor.stage2_queues st) !! j) /\
    Processor.processed st' = wrap64 (Processor.processed st + 1) /\
    Processor.msg st' = m.
Proof.
  intros E.
  apply body_popped in E as (q1 & Hq1 & Hqs1 & Hok & Hm & Hd & Hf & Hp & Hmsg).
  destruct (SPSC.pop QUEUE_SIZE q1 (Processor.msg st)) as [[ok m0] q1'] eqn:Hpop.
  cbn [fst snd] in *. subst ok.
  apply forward_spec in Hf as (k & r & q2 & Hk & Hq2 & Hpush & Hqs2).
  exists q1, q1', m0, k, r, q2.
  pose proof (index_ok _ _ _ Hq1) as [Hp0 Hl1].
  pose proof (index_ok _ _ _ Hq2) as [Hd0 Hl2].
  split; [exact Hq1 |]. split; [exact Hpop |].
  split.
  { rewrite Hqs1. apply index_lookup; [exact Hp0 |].
    apply list_lookup_insert_eq. eapply lookup_lt_Some. exact Hl1. }
  split.
  { intros Hwf. pose proof (pop_contents QUEUE_SIZE QUEUE_SIZE_range q1
                              (Processor.msg st) Hwf) as Hc.
    rewrite Hpop in Hc. apply Hc. reflexivity. }
  rewrite Hm. cbn [msg_type producer_id sequence timestamp_ns processor_id processed_ns].
  do 6 (split; [reflexivity |]).
  split; [rewrite Hm in Hd; exact Hd |].
  rewrite <- Hm. split; [exact Hk |]. split; [exact Hq2 |]. split; [exact Hpush |].
  split.
  { rewrite Hqs2. apply index_lookup; [exact Hd0 |].
    apply list_lookup_insert_eq. eapply lookup_lt_Some. exact Hl2. }
  split.
  { intros Hwf Hsole.
    destruct (racing_push_appends _ q2 m Hwf Hsole Hpush) as (n & _ & Hc).
    exists n. exact Hc. }
  split.
  { intros j Hj. rewrite Hqs2. apply list_lookup_insert_ne. congruence. }
  split; [exact Hp | exact Hmsg].
Qed.

Lemma processor_forwards_witness :
  let st := {| Processor.msg := zero_message;
               Processor.stage1_queues :=
                 [snd (SPSC.push QUEUE_SIZE (empty_queue zero_message)
                         (mkMessage 2 1 7 1000 0 0))];
               Processor.stage2_queues := [empty_queue zero_message];
               Processor.processed := 0 |} in
  let t := Processor.mkTick false (fun qs => qs) 5000
             [Processor.mkRetry (fun qs => qs) calm false] in
  exists m st',
    Processor.body flat_config 0 t st = Ok (Processor.Forwarded m 0, st') /\
    sequence m = 7 /\ processor_id m = wrap8 0 /\ processed_ns m = 5000 /\
    Processor.processed st' = wrap64 (0 + 1).
Proof.
  intros st t.
  assert (H : exists m st',
             Processor.body flat_config 0 t st = Ok (Processor.Forwarded m 0, st')).
  { eexists. eexists. vm_compute. reflexivity. }
  destruct H as (m & st' & H). exists m, st'. split; [exact H |].
  destruct (processor_forwards flat_config 0 t st st' m 0 H)
    as (q1 & q1' & m0 & k & r & q2 & _ & Hpop & _ & _ & _ & _ & Hseq & _ & Hpid & Hns
        & _ & _ & _ & _ & _ & _ & _ & Hp & _).
  assert (Hm0 : sequence m0 = 7).
  { revert H Hseq. vm_compute. intros H. inversion H. intros <-. reflexivity. }
  split; [rewrite Hseq; exact Hm0 |].
  split; [exact Hpid | split; [exact Hns | exact Hp]].
Defined.

Lemma processor_loop_cons (cfg : Config) (proc_id : Z) (t : Processor.tick)
    (rest : list Processor.tick) (st : Processor.state)
    (log : list Processor.pass) (st'' : Processor.state) :
  Processor.loop cfg proc_id (t :: rest) st = Ok (log, st'') ->
  (Processor.stop_seen t = true /\ log = [] /\ st'' = st) \/
  (Processor.stop_seen t = false /\
   exists p st',
     Processor.body cfg proc_id t st = Ok (p, st') /\
     ((Processor.is_idle_or_forwarded p /\
       exists log',
         Processor.loop cfg proc_id rest st' = Ok (log', st'') /\ log = p :: log') \/
      (~ Processor.is_idle_or_forwarded p /\ log = [p] /\ st'' = st'))).
Proof.
  cbn [Processor.loop]. destruct (Processor.stop_seen t).
  - intros E. inversion E. left. repeat split; reflexivity.
  - destruct (Processor.body cfg proc_id t st) as [[p st'] | |] eqn:Hb;
      cbn [mbind outcome_bind fst snd]; try discriminate.
    intros E. right. split; [reflexivity |]. exists p, st'. split; [reflexivity |].
    destruct p as [| m d | m | m]; cbn in E.
    + left. split; [exact I |].
      destruct (Processor.loop cfg proc_id rest st') as [[log' st3] | |] eqn:Hl;
        cbn in E; try discriminate.
      inversion E; subst. exists log'. split; reflexivity.
    + left. split; [exact I |].
      destruct (Processor.loop cfg proc_id rest st') as [[log' st3] | |] eqn:Hl;
        cbn in E; try discriminate.
      inversion E; subst. exists log'. split; reflexivity.
    + right. inversion E; subst. split; [intros [] | split; reflexivity].
    + right. inversion E; subst. split; [intros [] | split; reflexivity].
Qed.

(** X4: when the stop flag is seen after a refused push, the processor
    thread returns with the message in hand. The message has left the
    Stage-1 queue, the thread has put nothing into any Stage-2 queue,
    [processed] does not count the message, and the thread runs no further
    pass. *)
Theorem processor_drops_on_stop
    (cfg : Config) (proc_id : Z) (t : Processor.tick) (st st' : Processor.state)
    (m : Message) :
  Processor.body cfg proc_id t st = Ok (Processor.Dropped m, st') ->
  exists (q1 q1' : Queue) (m0 : Message) (k : nat) (r : Processor.retry),
    index (Processor.meanwhile t (Processor.stage1_queues st)) proc_id = Ok q1 /\
    SPSC.pop QUEUE_SIZE q1 (Processor.msg st) = (true, m0, q1') /\
    index (Processor.stage1_queues st') proc_id = Ok q1' /\
    (SPSC.wf QUEUE_SIZE q1 ->
     SPSC.contents QUEUE_SIZE q1 = Some m0 :: SPSC.contents QUEUE_SIZE q1') /\
    Processor.retries t !! k = Some r /\
    Processor.stop_then r = true /\
    Processor.stage2_queues st' =
      Processor.interference (take (S k) (Processor.retries t))
        (Processor.stage2_queues st) /\
    Processor.processed st' = Processor.processed st /\
    (Processor.stop_seen t = false ->
     forall rest,
       Processor.loop cfg proc_id (t :: rest) st = Ok ([Processor.Dropped m], st')).
Proof.
  intros E. pose proof E as E0.
  apply body_popped in E as (q1 & Hq1 & Hqs1 & Hok & (d & Hd & Hf) & Hp & Hmsg).
  destruct (SPSC.pop QUEUE_SIZE q1 (Processor.msg st)) as [[ok m0] q1'] eqn:Hpop.
  cbn [fst snd] in *. subst ok.
  apply forward_spec in Hf as (k & r & Hk & Hstop & Hqs2).
  pose proof (index_ok _ _ _ Hq1) as [Hp0 Hl1].
  exists q1, q1', m0, k, r.
  split; [exact Hq1 |]. split; [exact Hpop |].
  split.
  { rewrite Hqs1. apply index_lookup; [exact Hp0 |].
    apply list_lookup_insert_eq. eapply lookup_lt_Some. exact Hl1. }
  split.
  { intros Hwf. pose proof (pop_contents QUEUE_SIZE QUEUE_SIZE_range q1
                              (Processor.msg st) Hwf) as Hc.
    rewrite Hpop in Hc. apply Hc. reflexivity. }
  split; [exact Hk |]. split; [exact Hstop |]. split; [exact Hqs2 |].
  split; [exact Hp |].
  intros Hs rest. cbn [Processor.loop]. rewrite Hs, E0. reflexivity.
Qed.

Lemma processor_drops_on_stop_witness :
  let st := {| Processor.msg := zero_message;
               Processor.stage1_queues :=
                 [snd (SPSC.push QUEUE_SIZE (empty_queue zero_message)
                         (mkMessage 2 1 7 1000 0 0))];
               Processor.stage2_queues := [full_queue zero_message];
               Processor.processed := 4 |} in
  let t := Processor.mkTick false (fun qs => qs) 5000
             [Processor.mkRetry (fun qs => qs) calm false;
              Processor.mkRetry (fun qs => qs) calm true] in
  exists m st',
    Processor.body flat_config 0 t st = Ok (Processor.Dropped m, st') /\
    Processor.processed st' = 4 /\
    Processor.loop flat_config 0 [t; t] st = Ok ([Processor.Dropped m], st').
Proof.
  intros st t.
  assert (H : exists m st',
             Processor.body flat_config 0 t st = Ok (Processor.Dropped m, st')).
  { eexists. eexists. vm_compute. reflexivity. }
  destruct H as (m & st' & H). exists m, st'. split; [exact H |].
  destruct (processor_drops_on_stop flat_config 0 t st st' m H)
    as (q1 & q1' & m0 & k & r & _ & _ & _ & _ & _ & _ & _ & Hp & Hloop).
  split; [exact Hp | exact (Hloop eq_refl [t])].
Defined.

Lemma forwards_cons (p : Processor.pass) (log : list Processor.pass) :
  Processor.forwards (p :: log) =
  (match p with Processor.Forwarded _ _ => 1 | _ => 0 end) + Processor.forwards log.
Proof.
  unfold Processor.forwards. rewrite filter_cons.
  destruct p; destruct (decide _) as [H | H]; cbn in H; cbn [length];
    try contradiction; try (exfalso; apply H; exact I); lia.
Qed.

Lemma processor_loop_spec (cfg : Config) (proc_id : Z) (ticks : list Processor.tick) :
  forall (st : Processor.state) (log : list Processor.pass) (st' : Processor.state),
    0 <= Processor.processed st < 2 ^ 64 ->
    Processor.loop cfg proc_id ticks st = Ok (log, st') ->
    Processor.processed st' = (Processor.processed st + Processor.forwards log) mod 2 ^ 64 /\
    (length log <= length ticks)%nat /\
    forall (i : nat) (p : Processor.pass),
      log !! i = Some p -> (S i < length log)%nat -> Processor.is_idle_or_forwarded p.
Proof.
  induction ticks as [| t rest IH]; intros st log st' Hp E.
  - inversion E; subst. cbn. rewrite Z.add_0_r, Z.mod_small by lia.
    split; [reflexivity | split; [lia |]].
    intros i p Hi. rewrite lookup_nil in Hi. discriminate.
  - apply processor_loop_cons in E
      as [(_ & -> & ->) | (Hstop & p & st1 & Hb & Hcases)].
    + cbn. rewrite Z.add_0_r, Z.mod_small by lia.
      split; [reflexivity | split; [lia |]].
      intros i p Hi. rewrite lookup_nil in Hi. discriminate.
    + pose proof (body_popped _ _ _ _ _ _ Hb) as (q1 & _ & _ & Hpass).
      destruct Hcases as [(Hkind & log' & Hl & ->) | (Hkind & -> & ->)].
      * assert (Hp1 : Processor.processed st1 =
                      (Processor.processed st
                       + match p with Processor.Forwarded _ _ => 1 | _ => 0 end)
                      mod 2 ^ 64).
        { destruct p; cbn in Hkind; try contradiction.
          - destruct Hpass as (_ & _ & _ & ->). rewrite Z.add_0_r, Z.mod_small by lia.
            reflexivity.
          - destruct Hpass as (_ & _ & _ & _ & -> & _). reflexivity. }
        assert (Hr1 : 0 <= Processor.processed st1 < 2 ^ 64).
        { rewrite Hp1. apply Z.mod_pos_bound. lia. }
        destruct (IH st1 log' st' Hr1 Hl) as (Hps & Hlen & Hlast).
        split; [| split].
        -- rewrite Hps, Hp1, forwards_cons, Zplus_mod_idemp_l. f_equal. lia.
        -- cbn [length]. lia.
        -- intros [| i] p' Hi Hlt; cbn in Hi.
           ++ inversion Hi; subst. exact Hkind.
           ++ apply (Hlast i p' Hi). cbn [length] in Hlt. lia.
      * split; [| split].
        -- rewrite forwards_cons. unfold Processor.forwards. cbn.
           destruct p; cbn in Hkind; try (exfalso; apply Hkind; exact I).
           ++ destruct Hpass as (_ & _ & -> & _). rewrite Z.add_0_r, Z.mod_small by lia.
              reflexivity.
           ++ destruct Hpass as (_ & _ & -> & _). rewrite Z.add_0_r, Z.mod_small by lia.
              reflexivity.
        -- cbn [length]. lia.
        -- intros i p' Hi Hlt. cbn [length] in Hlt. lia.
Qed.

(** X5: over any run of a processor thread, [processed] grows, modulo
    2^64, by the number of passes that forwarded a message, and every pass
    but the last either found the queue empty or forwarded the message it
    popped: the thread pops at most one message that it does not forward,
    and that in its last pass. *)
Theorem processor_accounting
    (cfg : Config) (proc_id : Z) (ticks : list Processor.tick)
    (st st' : Processor.state) (log : list Processor.pass) :
  0 <= Processor.processed st < 2 ^ 64 ->
  Processor.loop cfg proc_id ticks st = Ok (log, st') ->
  Processor.processed st' = (Processor.processed st + Processor.forwards log) mod 2 ^ 64 /\
  (length log <= length ticks)%nat /\
  (forall (i : nat) (p : Processor.pass),
     log !! i = Some p -> (S i < length log)%nat -> Processor.is_idle_or_forwarded p) /\
  Processor.forwards log <= Z.of_nat (length log) /\
  Processor.unforwarded log <= 1.
Proof.
  intros Hp E.
  destruct (processor_loop_spec cfg proc_id ticks st log st' Hp E) as (Hps & Hlen & Hlast).
  split; [exact Hps |]. split; [exact Hlen |]. split; [exact Hlast |].
  split.
  { unfold Processor.forwards. pose proof (length_filter Processor.is_forwarded log). lia. }
  clear Hps Hlen E. unfold Processor.unforwarded.
  induction log as [| p log IH]; [cbn; lia |].
  destruct log as [| p' log].
  - rewrite filter_cons. destruct (decide _); cbn; lia.
  - assert (Hk : Processor.is_idle_or_forwarded p).
    { apply (Hlast 0%nat p eq_refl). cbn. lia. }
    rewrite filter_cons. destruct (decide _) as [Hn | _]; [contradiction |].
    apply IH. intros i q Hi Hlt. apply (Hlast (S i) q Hi). cbn [length] in *. lia.
Qed.

Lemma processor_accounting_witness :
  let st := {| Processor.msg := zero_message;
               Processor.stage1_queues :=
                 [snd (SPSC.push QUEUE_SIZE (empty_queue zero_message)
                         (mkMessage 2 1 7 1000 0 0))];
               Processor.stage2_queues := [empty_queue zero_message];
               Processor.processed := 4 |} in
  let t := Processor.mkTick false (fun qs => qs) 5000
             [Processor.mkRetry (fun qs => qs) calm false] in
  exists log st',
    Processor.loop flat_config 0 [t; t; t] st = Ok (log, st') /\
    length log = 3%nat /\
    Processor.processed st' = (4 + Processor.forwards log) mod 2 ^ 64 /\
    Processor.unforwarded log <= 1.
Proof.
  intros st t.
  assert (H : exists log st',
             Processor.loop flat_config 0 [t; t; t] st = Ok (log, st')
             /\ length log = 3%nat).
  { eexists. eexists. vm_compute. split; reflexivity. }
  destruct H as (log & st' & H & Hlen). exists log, st'.
  split; [exact H | split; [exact Hlen |]].
  destruct (processor_accounting flat_config 0 [t; t; t] st st' log
              ltac:(cbn; lia) H) as (Hp & _ & _ & _ & Hun).
  split; [exact Hp | exact Hun].
Defined.

(** ** The strategy thread *)

Lemma strategy_body_ok (sid : Z) (t : Strategy.tick) (st : Strategy.state)
    (r : option Message) (st' : Strategy.state) :
  Strategy.body sid t st = Ok (r, st') ->
  exists q,
    index (Strategy.meanwhile t (Strategy.stage2_queues st)) sid = Ok q /\
    Strategy.stage2_queues st' =
      <[Z.to_nat sid := snd (SPSC.pop QUEUE_SIZE q (Strategy.msg st))]>
        (Strategy.meanwhile t (Strategy.stage2_queues st)) /\
    Strategy.msg st' = snd (fst (SPSC.pop QUEUE_SIZE q (Strategy.msg st))) /\
    match r with
    | Some m =>
        SPSC.pop QUEUE_SIZE q (Strategy.msg st)
          = (true, m, snd (SPSC.pop QUEUE_SIZE q (Strategy.msg st))) /\
        Strategy.latencies st' =
          add (Strategy.others t (Strategy.latencies st))
            (Strategy.stage1_sample m)
            (double_of_Z (wrap64 (Strategy.clock t - processed_ns m)) / 1000)
            (double_of_Z (wrap64 (Strategy.clock t - processed_ns m)) / 1000)
            (double_of_Z (wrap64 (Strategy.clock t - timestamp_ns m)) / 1000) /\
        Strategy.delivered st' = wrap64 (Strategy.delivered st + 1)
    | None =>
        fst (fst (SPSC.pop QUEUE_SIZE q (Strategy.msg st))) = false /\
        Strategy.latencies st' = Strategy.others t (Strategy.latencies st) /\
        Strategy.delivered st' = Strategy.delivered st
    end.
Proof.
  unfold Strategy.body.
  destruct (index (Strategy.meanwhile t (Strategy.stage2_queues st)) sid)
    as [q | |] eqn:Hq; cbn [mbind outcome_bind]; try discriminate.
  destruct (SPSC.pop QUEUE_SIZE q (Strategy.msg st)) as [[ok m] q'] eqn:Hpop.
  intros E. exists q. split; [reflexivity |]. rewrite Hpop. cbn [fst snd].
  destruct ok; inversion E; subst; cbn; repeat split; reflexivity.
Qed.

Lemma strategy_loop_cons (sid : Z) (t : Strategy.tick) (rest : list Strategy.tick)
    (st : Strategy.state) (log : list (option Message)) (st'' : Strategy.state) :
  Strategy.loop sid (t :: rest) st = Ok (log, st'') ->
  (Strategy.stop_seen t = true /\ log = [] /\ st'' = st) \/
  (Strategy.stop_seen t = false /\
   exists r st' log',
     Strategy.body sid t st = Ok (r, st') /\
     Strategy.loop sid rest st' = Ok (log', st'') /\
     log = r :: log').
Proof.
  cbn [Strategy.loop]. destruct (Strategy.stop_seen t).
  - intros E. inversion E. left. repeat split; reflexivity.
  - destruct (Strategy.body sid t st) as [[r st'] | |] eqn:Hb;
      cbn [mbind outcome_bind fst snd]; try discriminate.
    destruct (Strategy.loop sid rest st') as [[log' st3] | |] eqn:Hl;
      cbn [mbind outcome_bind fst snd]; try discriminate.
    intros E. inversion E; subst. right. split; [reflexivity |].
    exists r, st', log'. split; [reflexivity | split; [exact Hl | reflexivity]].
Qed.

Lemma add_aligned (l : LatencyStats) (s1 proc s2 total : float) :
  aligned l -> aligned (add l s1 proc s2 total).
Proof.
  unfold aligned, add; cbn. rewrite !length_app; cbn. lia.
Qed.

Lemma add_mirrored (l : LatencyStats) (s1 s2 total : float) :
  mirrored l -> mirrored (add l s1 s2 s2 total).
Proof. unfold mirrored, add; cbn. intros ->. reflexivity. Qed.

(** X6: a strategy thread keeps the sample series in step. If the four
    series are equally long and the processing series equals the Stage-2
    series when the thread starts, and the other threads keep it so, then
    both hold after any run of the thread; the "Process" row of the summary
    is then the "Stage2" row. *)
Theorem strategy_keeps_series
    (sid : Z) (ticks : list Strategy.tick) (st st' : Strategy.state)
    (log : list (option Message)) :
  Forall (fun t => forall l, aligned l -> mirrored l ->
                             aligned (Strategy.others t l) /\
                             mirrored (Strategy.others t l)) ticks ->
  aligned (Strategy.latencies st) ->
  mirrored (Strategy.latencies st) ->
  Strategy.loop sid ticks st = Ok (log, st') ->
  aligned (Strategy.latencies st') /\
  mirrored (Strategy.latencies st') /\
  row (processing_us (Strategy.latencies st')) = row (stage2_us (Strategy.latencies st')).
Proof.
  intros Hrely Ha Hm E.
  assert (H : aligned (Strategy.latencies st') /\ mirrored (Strategy.latencies st')).
  { revert st log Ha Hm E.
    induction Hrely as [| t rest Ht Hrest IH]; intros st log Ha Hm E.
    - inversion E; subst. split; assumption.
    - apply strategy_loop_cons in E
        as [(_ & _ & ->) | (_ & r & st1 & log' & Hb & Hl & _)];
        [split; assumption |].
      apply strategy_body_ok in Hb as (q & _ & _ & _ & Hr).
      destruct (Ht _ Ha Hm) as [Ha' Hm'].
      destruct r as [m |].
      + destruct Hr as (_ & Hlat & _).
        apply (IH st1 log'); [| | exact Hl]; rewrite Hlat.
        * apply add_aligned. exact Ha'.
        * apply add_mirrored. exact Hm'.
      + destruct Hr as (_ & Hlat & _).
        apply (IH st1 log'); [| | exact Hl]; rewrite Hlat; assumption. }
  destruct H as [Ha' Hm']. split; [exact Ha' | split; [exact Hm' |]].
  rewrite Hm'. reflexivity.
Qed.

Lemma strategy_keeps_series_witness :
  let st := {| Strategy.msg := zero_message;
               Strategy.stage2_queues :=
                 [snd (SPSC.push QUEUE_SIZE (empty_queue zero_message)
                         (mkMessage 2 1 7 1000 0 4000))];
               Strategy.latencies := mkStats [] [] [] [];
               Strategy.delivered := 0 |} in
  let t := Strategy.mkTick false (fun qs => qs) 9000 (fun l => add l 1 2 2 3) in
  exists log st',
    Strategy.loop 0 [t; t] st = Ok (log, st') /\
    length (stage2_us (Strategy.latencies st')) = 3%nat /\
    mirrored (Strategy.latencies st').
Proof.
  intros st t.
  assert (H : exists log st',
             Strategy.loop 0 [t; t] st = Ok (log, st')
             /\ length (stage2_us (Strategy.latencies st')) = 3%nat).
  { eexists. eexists. vm_compute. split; reflexivity. }
  destruct H as (log & st' & H & Hlen). exists log, st'.
  split; [exact H | split; [exact Hlen |]].
  assert (Hrely : Forall (fun t => forall l, aligned l -> mirrored l ->
                                aligned (Strategy.others t l) /\
                                mirrored (Strategy.others t l)) [t; t]).
  { assert (Ht : forall l, aligned l -> mirrored l ->
                           aligned (Strategy.others t l) /\
                           mirrored (Strategy.others t l)).
    { intros l Ha Hm. split; [apply (add_aligned l) | apply (add_mirrored l 1 2 3)];
        assumption. }
    constructor; [exact Ht | constructor; [exact Ht | constructor]]. }
  assert (Ha : aligned (Strategy.latencies st)) by (repeat split).
  assert (Hm : mirrored (Strategy.latencies st)) by reflexivity.
  exact (proj1 (proj2 (strategy_keeps_series 0 [t; t] st st' log Hrely Ha Hm H))).
Defined.

Lemma deliveries_cons (r : option Message) (log : list (option Message)) :
  Strategy.deliveries (r :: log) =
  match r with
  | Some m => m :: Strategy.deliveries log
  | None => Strategy.deliveries log
  end.
Proof. destruct r; reflexivity. Qed.

(** X7: while no other strategy thread adds samples, a run of a strategy
    thread raises [delivered], modulo 2^64, by the number of messages it
    delivered, lengthens each of the four series by that number, and
    appends to the Stage-1 series, in delivery order, the processor's stamp
    minus the producer's stamp of each delivered message, in
    microseconds. *)
Theorem strategy_accounting
    (sid : Z) (ticks : list Strategy.tick) (st st' : Strategy.state)
    (log : list (option Message)) :
  Forall (fun t => forall l, Strategy.others t l = l) ticks ->
  0 <= Strategy.delivered st < 2 ^ 64 ->
  Strategy.loop sid ticks st = Ok (log, st') ->
  Strategy.delivered st' =
    (Strategy.delivered st + Z.of_nat (length (Strategy.deliveries log))) mod 2 ^ 64 /\
  stage1_us (Strategy.latencies st') =
    stage1_us (Strategy.latencies st)
    ++ (Strategy.stage1_sample <$> Strategy.deliveries log) /\
  length (processing_us (Strategy.latencies st')) =
    (length (processing_us (Strategy.latencies st))
     + length (Strategy.deliveries log))%nat /\
  length (stage2_us (Strategy.latencies st')) =
    (length (stage2_us (Strategy.latencies st))
     + length (Strategy.deliveries log))%nat /\
  length (total_us (Strategy.latencies st')) =
    (length (total_us (Strategy.latencies st))
     + length (Strategy.deliveries log))%nat.
Proof.
  intros Hquiet. revert st log.
  induction Hquiet as [| t rest Ht Hrest IH]; intros st log Hd E.
  - inversion E; subst. cbn. rewrite Z.add_0_r, Z.mod_small, app_nil_r by lia.
    repeat split; lia.
  - apply strategy_loop_cons in E
      as [(_ & -> & ->) | (_ & r & st1 & log' & Hb & Hl & ->)].
    + cbn. rewrite Z.add_0_r, Z.mod_small, app_nil_r by lia. repeat split; lia.
    + apply strategy_body_ok in Hb as (q & _ & _ & _ & Hr).
      rewrite deliveries_cons. destruct r as [m |].
      * destruct Hr as (_ & Hlat & Hdel). rewrite Ht in Hlat.
        assert (Hd1 : 0 <= Strategy.delivered st1 < 2 ^ 64).
        { rewrite Hdel. apply Z.mod_pos_bound. lia. }
        destruct (IH st1 log' Hd1 Hl) as (H0 & H1 & H2 & H3 & H4).
        rewrite H0, H1, H2, H3, H4, Hlat, Hdel. cbn [length fmap list_fmap].
        unfold add; cbn [stage1_us processing_us stage2_us total_us].
        rewrite !length_app. cbn [length]. unfold wrap64.
        rewrite Zplus_mod_idemp_l, <- app_assoc.
        split; [f_equal; lia |]. split; [reflexivity |]. repeat split; lia.
      * destruct Hr as (_ & Hlat & Hdel). rewrite Ht in Hlat.
        assert (Hd1 : 0 <= Strategy.delivered st1 < 2 ^ 64) by (rewrite Hdel; exact Hd).
        destruct (IH st1 log' Hd1 Hl) as (H0 & H1 & H2 & H3 & H4).
        rewrite H0, H1, H2, H3, H4, Hlat, Hdel. repeat split; reflexivity.
Qed.

Lemma strategy_accounting_witness :
  let st := {| Strategy.msg := zero_message;
               Strategy.stage2_queues :=
                 [snd (SPSC.push QUEUE_SIZE (empty_queue zero_message)
                         (mkMessage 2 1 7 1000 0 4000))];
               Strategy.latencies := mkStats [] [] [] [];
               Strategy.delivered := 0 |} in
  let t := Strategy.mkTick false (fun qs => qs) 9000 (fun l => l) in
  exists log st',
    Strategy.loop 0 [t; t] st = Ok (log, st') /\
    Strategy.deliveries log = [mkMessage 2 1 7 1000 0 4000] /\
    Strategy.delivered st' = 1 /\
    stage1_us (Strategy.latencies st') = [3%float].
Proof.
  intros st t.
  assert (H : exists log st',
             Strategy.loop 0 [t; t] st = Ok (log, st')
             /\ Strategy.deliveries log = [mkMessage 2 1 7 1000 0 4000]).
  { eexists. eexists. vm_compute. split; reflexivity. }
  destruct H as (log & st' & H & Hlog). exists log, st'.
  split; [exact H | split; [exact Hlog |]].
  destruct (strategy_accounting 0 [t; t] st st' log
              ltac:(repeat constructor) ltac:(cbn; lia) H) as (Hd & Hs & _).
  rewrite Hlog in Hd, Hs. split; [exact Hd | exact Hs].
Defined.

Lemma index_insert {A : Type} (v : list A) (i : Z) (x y : A) :
  index v i = Ok x -> index (<[Z.to_nat i := y]> v) i = Ok y.
Proof.
  intros H. apply index_ok in H as [Hi Hl]. apply index_lookup; [exact Hi |].
  apply list_lookup_insert_eq. eapply lookup_lt_Some. exact Hl.
Qed.

Lemma pop_refused_same (q : Queue) (item : Message) :
  fst (fst (SPSC.pop QUEUE_SIZE q item)) = false ->
  snd (SPSC.pop QUEUE_SIZE q item) = q.
Proof.
  unfold SPSC.pop. destruct (_ =? _); cbn; [reflexivity | discriminate].
Qed.

(** X8: while the processors push nothing, a strategy thread delivers the
    messages of its own Stage-2 queue oldest first: the messages it
    delivered, followed by what is left in the queue, are what the queue
    held at the start, and no other queue is touched. *)
Theorem strategy_delivers_in_order
    (sid : Z) (ticks : list Strategy.tick) (st st' : Strategy.state)
    (log : list (option Message)) (q : Queue) :
  Forall (fun t => forall qs, Strategy.meanwhile t qs = qs) ticks ->
  index (Strategy.stage2_queues st) sid = Ok q ->
  SPSC.wf QUEUE_SIZE q ->
  Strategy.loop sid ticks st = Ok (log, st') ->
  exists q',
    index (Strategy.stage2_queues st') sid = Ok q' /\
    SPSC.wf QUEUE_SIZE q' /\
    SPSC.contents QUEUE_SIZE q =
      (Some <$> Strategy.deliveries log) ++ SPSC.contents QUEUE_SIZE q' /\
    forall j : nat,
      j <> Z.to_nat sid ->
      Strategy.stage2_queues st' !! j = Strategy.stage2_queues st !! j.
Proof.
  intros Hquiet. revert st log q.
  induction Hquiet as [| t rest Ht Hrest IH]; intros st log q Hq Hwf E.
  - inversion E; subst. exists q. cbn.
    split; [exact Hq | split; [exact Hwf | split; [reflexivity | reflexivity]]].
  - apply strategy_loop_cons in E
      as [(_ & -> & ->) | (_ & r & st1 & log' & Hb & Hl & ->)].
    + exists q. cbn.
      split; [exact Hq | split; [exact Hwf | split; [reflexivity | reflexivity]]].
    + apply strategy_body_ok in Hb as (q0 & Hq0 & Hqs & _ & Hr).
      rewrite Ht in Hq0, Hqs. rewrite Hq in Hq0. inversion Hq0; subst q0.
      pose proof (pop_wf QUEUE_SIZE QUEUE_SIZE_range q (Strategy.msg st) Hwf) as Hwf1.
      assert (Hq1 : index (Strategy.stage2_queues st1) sid
                    = Ok (snd (SPSC.pop QUEUE_SIZE q (Strategy.msg st)))).
      { rewrite Hqs. eapply index_insert. exact Hq. }
      destruct (IH st1 log' _ Hq1 Hwf1 Hl) as (q' & Hq' & Hwf' & Hc & Hother).
      exists q'. split; [exact Hq' | split; [exact Hwf' |]].
      split.
      * rewrite deliveries_cons. destruct r as [m |].
        -- destruct Hr as (Hpop & _).
           pose proof (pop_contents QUEUE_SIZE QUEUE_SIZE_range q (Strategy.msg st) Hwf)
             as Hpc.
           rewrite Hpop in Hpc at 1 2. cbn [fst snd] in Hpc.
           rewrite (Hpc eq_refl), Hc. reflexivity.
        -- destruct Hr as (Hno & _). rewrite (pop_refused_same _ _ Hno) in Hc.
           exact Hc.
      * intros j Hj. rewrite (Hother j Hj), Hqs.
        apply list_lookup_insert_ne. congruence.
Qed.

Lemma strategy_delivers_in_order_witness :
  let m1 := mkMessage 2 1 7 1000 0 4000 in
  let m2 := mkMessage 3 1 8 1100 0 4100 in
  let q := snd (push_all QUEUE_SIZE (empty_queue zero_message) [m1; m2]) in
  let st := {| Strategy.msg := zero_message;
               Strategy.stage2_queues := [q];
               Strategy.latencies := mkStats [] [] [] [];
               Strategy.delivered := 0 |} in
  let t := Strategy.mkTick false (fun qs => qs) 9000 (fun l => l) in
  exists log st' q',
    Strategy.loop 0 [t; t; t] st = Ok (log, st') /\
    Strategy.deliveries log = [m1; m2] /\
    SPSC.contents QUEUE_SIZE q =
      (Some <$> Strategy.deliveries log) ++ SPSC.contents QUEUE_SIZE q'.
Proof.
  intros m1 m2 q st t.
  assert (H : exists log st',
             Strategy.loop 0 [t; t; t] st = Ok (log, st')
             /\ Strategy.deliveries log = [m1; m2]).
  { eexists. eexists. vm_compute. split; reflexivity. }
  destruct H as (log & st' & H & Hlog).
  assert (Hwf : SPSC.wf QUEUE_SIZE q).
  { unfold SPSC.wf. vm_compute. repeat split; congruence. }
  destruct (strategy_delivers_in_order 0 [t; t; t] st st' log q
              ltac:(repeat constructor) eq_refl Hwf H) as (q' & _ & _ & Hc & _).
  exists log, st', q'. split; [exact H | split; [exact Hlog | exact Hc]].
Defined.

(** ** The mutex-guarded queue of the scaling benchmark *)

Lemma mpmc_step_inv {T : Type} (capacity : Z) (s : MPMC.system T) (c : MPMC.call T) :
  MPMC.capacity_ (MPMC.queue s) = capacity ->
  Z.of_nat (length (MPMC.queue_ (MPMC.queue s))) <= capacity ->
  MPMC.pushed s = MPMC.popped s ++ MPMC.queue_ (MPMC.queue s) ->
  MPMC.capacity_ (MPMC.queue (MPMC.step s c)) = capacity /\
  Z.of_nat (length (MPMC.queue_ (MPMC.queue (MPMC.step s c)))) <= capacity /\
  MPMC.pushed (MPMC.step s c)
  = MPMC.popped (MPMC.step s c) ++ MPMC.queue_ (MPMC.queue (MPMC.step s c)).
Proof.
  intros Hcap Hlen Hlog. destruct c as [item | out]; unfold MPMC.step.
  - unfold MPMC.push. rewrite Hcap.
    destruct (Z.geb_spec (Z.of_nat (length (MPMC.queue_ (MPMC.queue s)))) capacity)
      as [Hfull | Hroom]; cbn.
    + split; [exact Hcap | split; [exact Hlen | exact Hlog]].
    + split; [reflexivity |]. rewrite length_app. cbn [length].
      split; [lia |]. rewrite Hlog, app_assoc. reflexivity.
  - unfold MPMC.pop. destruct (MPMC.queue_ (MPMC.queue s)) as [| x rest] eqn:Hq; cbn.
    + rewrite Hq. cbn. split; [exact Hcap | split; [lia | exact Hlog]].
    + cbn [length] in Hlen. split; [exact Hcap |]. split; [lia |].
      rewrite Hlog, <- app_assoc. reflexivity.
Qed.

Lemma mpmc_run_inv {T : Type} (capacity : Z) (calls : list (MPMC.call T)) :
  forall s : MPMC.system T,
    MPMC.capacity_ (MPMC.queue s) = capacity ->
    Z.of_nat (length (MPMC.queue_ (MPMC.queue s))) <= capacity ->
    MPMC.pushed s = MPMC.popped s ++ MPMC.queue_ (MPMC.queue s) ->
    MPMC.capacity_ (MPMC.queue (MPMC.run calls s)) = capacity /\
    Z.of_nat (length (MPMC.queue_ (MPMC.queue (MPMC.run calls s)))) <= capacity /\
    MPMC.pushed (MPMC.run calls s)
    = MPMC.popped (MPMC.run calls s) ++ MPMC.queue_ (MPMC.queue (MPMC.run calls s)).
Proof.
  induction calls as [| c calls IH]; intros s Hcap Hlen Hlog.
  - cbn. split; [exact Hcap | split; [exact Hlen | exact Hlog]].
  - cbn [MPMC.run fold_left].
    destruct (mpmc_step_inv capacity s c Hcap Hlen Hlog) as (H1 & H2 & H3).
    exact (IH _ H1 H2 H3).
Qed.

(** X9: whatever pushes and pops the threads of the scaling benchmark make,
    in whatever order they take the mutex, the queue never holds more than
    [capacity] items, and the items popped so far followed by the items
    still queued are the items whose push was accepted, in the order of
    acceptance: nothing is lost, duplicated or reordered. *)
Theorem mpmc_bounded_fifo {T : Type} (capacity : Z) (calls : list (MPMC.call T)) :
  0 <= capacity ->
  let s := MPMC.run calls (MPMC.start capacity) in
  Z.of_nat (length (MPMC.queue_ (MPMC.queue s))) <= capacity /\
  MPMC.pushed s = MPMC.popped s ++ MPMC.queue_ (MPMC.queue s).
Proof.
  intros Hc s.
  destruct (mpmc_run_inv capacity calls (MPMC.start capacity) eq_refl
              ltac:(cbn; lia) eq_refl) as (_ & H2 & H3).
  split; [exact H2 | exact H3].
Qed.

Lemma mpmc_bounded_fifo_witness :
  let s := MPMC.run [MPMC.Push 1; MPMC.Push 2; MPMC.Push 3; MPMC.Pop 0; MPMC.Push 4]
             (MPMC.start 2) in
  MPMC.pushed s = [1; 2; 4] /\ MPMC.popped s = [1] /\
  Z.of_nat (length (MPMC.queue_ (MPMC.queue s))) <= 2 /\
  MPMC.pushed s = MPMC.popped s ++ MPMC.queue_ (MPMC.queue s).
Proof.
  split; [reflexivity | split; [reflexivity |]].
  apply (mpmc_bounded_fifo 2
           [MPMC.Push 1; MPMC.Push 2; MPMC.Push 3; MPMC.Pop 0; MPMC.Push 4]).
  lia.
Defined.

(** ** The monitor: the lines add up *)

Lemma lost_total_cons (l : line) (ls : list line) :
  lost_total (l :: ls) = lost_now l + lost_total ls.
Proof. reflexivity. Qed.

Lemma monitor_loop_total (snaps : list snapshot) :
  forall prev : counters,
    lost_total (monitor_loop prev snaps) mod 2 ^ 64 =
    ((match last snaps with
      | Some s => snap_p s - snap_d s
      | None => prev_prod prev - prev_del prev
      end) - (prev_prod prev - prev_del prev)) mod 2 ^ 64.
Proof.
  induction snaps as [| s snaps IH]; intros prev.
  - cbn [monitor_loop last]. rewrite Z.sub_diag. reflexivity.
  - cbn [monitor_loop monitor_body]. rewrite lost_total_cons.
    cbn [lost_now]. rewrite wrap64_sub.
    rewrite Z.add_mod, IH by lia. cbn [prev_prod prev_del].
    rewrite Z.mod_mod by lia. rewrite <- Z.add_mod by lia.
    rewrite last_cons. destruct (last snaps) as [s' |]; f_equal; lia.
Qed.

(** X10: the "Lost" numbers of the lines the monitor has printed add up,
    modulo 2^64, to the backlog [produced - delivered] of the latest
    snapshot: the per-second differences telescope. *)
Theorem lost_adds_up (snaps : list snapshot) :
  lost_total (monitor snaps) mod 2 ^ 64 = backlog snaps mod 2 ^ 64.
Proof.
  unfold monitor, backlog. rewrite monitor_loop_total. cbn [prev_prod prev_del].
  destruct (last snaps); f_equal; lia.
Qed.

(** ** main: one thread for each index *)




(** ** load_config: where the routing entries come from *)

Section RoutingSource.

Context {J : Type} `{!Json J}.

Lemma entry_source (value_of : J -> outcome Z)
    (body : list Z -> J -> outcome (list Z)) (rules : list J) (r : list Z) (t e : Z) :
  (forall routing rule,
     body routing rule =
     (type ← rule_type rule; value ← value_of rule; assign routing type value)) ->
  for_each body (replicate 8 0) rules = Ok r ->
  index r t = Ok e ->
  e = 0 \/
  exists rule, rule ∈ rules /\ rule_type rule = Ok t /\ value_of rule = Ok e.
Proof.
  intros Hbody E Hi. apply index_ok in Hi as [Ht He].
  destruct (for_each_source value_of body Hbody rules _ r t E Ht)
    as [Hsame | (rule & value & Hin & Hty & Hv & Hr)].
  - left. rewrite Hsame in He. apply lookup_replicate in He as [-> _]. reflexivity.
  - right. exists rule. rewrite Hr in He. inversion He; subst.
    split; [exact Hin | split; [exact Hty | exact Hv]].
Qed.

Lemma for_each_app {A B : Type} (body : A -> B -> outcome A) (l1 l2 : list B) :
  forall acc : A,
    for_each body acc (l1 ++ l2) = (acc' ← for_each body acc l1; for_each body acc' l2).
Proof.
  induction l1 as [| x l1 IH]; intros acc.
  - reflexivity.
  - cbn [app for_each]. destruct (body acc x) as [a | |]; cbn; [apply IH | |];
      reflexivity.
Qed.

End RoutingSource.

(** X12: in a configuration that loads, an entry of the Stage-1 routing
    vector is either the default 0 or the first processor of a rule of
    "stage1_rules" that names the entry's type, and an entry of the Stage-2
    vector is either 0 or the strategy of a rule of "stage2_rules" that
    names its type: no entry comes from anywhere else. *)
Theorem routing_entries_from_rules {J : Type} `{!Json J}
    (fs : string -> file J) (path : string) (cfg : Config) (j : J) :
  load_config fs path = Ok cfg ->
  fs path = Document j ->
  (forall t e,
     index (stage1_routing cfg) t = Ok e ->
     e = 0 \/
     exists rule,
       rule ∈ rules_of "stage1_rules" j /\ rule_type rule = Ok t /\
       first_processor rule = Ok e) /\
  (forall t e,
     index (stage2_routing cfg) t = Ok e ->
     e = 0 \/
     exists rule,
       rule ∈ rules_of "stage2_rules" j /\ rule_type rule = Ok t /\
       rule_strategy rule = Ok e).
Proof.
  intros Hload Hfs.
  apply load_config_ok in Hload as (j' & Hfs' & _ & _ & _ & _ & H1 & H2).
  rewrite Hfs in Hfs'. inversion Hfs'; subst j'. split.
  - intros t e Hi. exact (entry_source _ _ _ _ t e stage1_rule_eq H1 Hi).
  - intros t e Hi. exact (entry_source _ _ _ _ t e stage2_rule_eq H2 Hi).
Qed.

Lemma routing_entries_from_rules_witness :
  exists rule,
    rule ∈ rules_of "stage1_rules" fanout_document /\
    rule_type rule = Ok 2 /\ first_processor rule = Ok 3.
Proof.
  destruct (proj1 (@routing_entries_from_rules json tree_json
              (only fanout_document) "fanout.json"
              (mkConfig 1 1 4 1 [0; 0; 3; 0; 0; 0; 0; 0] [0; 0; 0; 0; 0; 0; 0; 0])
              fanout_document eq_refl eq_refl) 2 3 eq_refl) as [H | H].
  - discriminate H.
  - exact H.
Defined.

(** X13: load_config does not check the "msg_type" of a rule. When the file
    parses, the counts are read and the rules before it are assigned, a
    rule of "stage1_rules" whose type is negative or above 7 writes outside
    the eight-entry routing vector: the behaviour of load_config is
    undefined, and no exception reports the rule. *)
Theorem rule_type_not_checked {J : Type} `{!Json J}
    (fs : string -> file J) (path : string) (j rules1 rule : J)
    (before after : list J) (d a b c t value : Z) (routing : list Z) :
  fs path = Document j ->
  int_field j "duration_secs" = Ok d ->
  count_field j "producers" = Ok a ->
  count_field j "processors" = Ok b ->
  count_field j "strategies" = Ok c ->
  at_key "stage1_rules" j = Ok rules1 ->
  items rules1 = before ++ rule :: after ->
  for_each stage1_rule (replicate 8 0) before = Ok routing ->
  rule_type rule = Ok t ->
  first_processor rule = Ok value ->
  ~ 0 <= t <= 7 ->
  load_config fs path = Undefined.
Proof.
  intros Hfs Hd Ha Hb Hc Hr Hitems Hbefore Hty Hv Ht.
  unfold load_config. rewrite Hfs, Hd. cbn [mbind outcome_bind].
  rewrite Ha. cbn [mbind outcome_bind]. rewrite Hb. cbn [mbind outcome_bind].
  rewrite Hc. cbn [mbind outcome_bind]. rewrite Hr. cbn [mbind outcome_bind].
  rewrite Hitems, for_each_app, Hbefore. cbn [mbind outcome_bind for_each].
  rewrite stage1_rule_eq, Hty. cbn [mbind outcome_bind].
  rewrite Hv. cbn [mbind outcome_bind].
  assert (Hlen : length routing = 8%nat).
  { rewrite (for_each_length _ _ stage1_rule_eq _ _ _ Hbefore). reflexivity. }
  unfold assign. rewrite Hlen.
  destruct (Z.leb_spec 0 t), (Z.ltb_spec t (Z.of_nat 8)); cbn; try reflexivity.
  lia.
Qed.

Lemma rule_type_not_checked_witness :
  load_config (only wild_document) "wild.json" = Undefined.
Proof.
  apply (@rule_type_not_checked json tree_json (only wild_document) "wild.json"
           wild_document (JArr [rule1 8 [0]]) (rule1 8 [0]) [] [] 1 1 1 1 8 0
           (replicate 8 0));
    try reflexivity.
  lia.
Defined.

(** ** percentile: what it returns, and where it is undefined *)

(** X14: whatever [p] is, a call of percentile on a non-empty series that
    returns at all returns one of the samples of the series, never a value
    in between two of them, and leaves the series a rearrangement of
    itself. *)
Theorem percentile_returns_a_sample (v : list float) (p x : float) (s : list float) :
  v <> [] ->
  percentile v p = Ok (x, s) ->
  x ∈ v /\ s ≡ₚ v.
Proof.
  intros Hv. unfold percentile. destruct v as [| y v]; [congruence |].
  destruct (size_t_of_double _) as [i | |]; cbn [mbind outcome_bind];
    try discriminate.
  destruct (index _ _) as [x' | |] eqn:Hi; cbn [mbind outcome_bind];
    try discriminate.
  intros E. inversion E; subst. apply index_ok in Hi as [_ Hi].
  split; [| exact (sort_perm (y :: v))].
  rewrite <- (sort_perm (y :: v)). eapply list_elem_of_lookup_2. exact Hi.
Qed.

Lemma percentile_returns_a_sample_witness :
  (0.5 : float) ∈ [2.5; 0.5; 1.5]%float /\ [0.5; 1.5; 2.5]%float ≡ₚ [2.5; 0.5; 1.5]%float.
Proof.
  apply (percentile_returns_a_sample [2.5; 0.5; 1.5]%float 0.25 0.5
           [0.5; 1.5; 2.5]%float); [discriminate | vm_compute; reflexivity].
Defined.

(** X15: percentile does not check [p]. On a non-empty series a [p] that
    is a NaN or an infinity makes the product [p * n] a NaN or an infinity,
    whose conversion to [size_t] is undefined. *)
Theorem percentile_needs_finite_p (v : list float) (p : float) :
  v <> [] ->
  Z.of_nat (length v) < 2 ^ 53 ->
  finite p = false ->
  percentile v p = Undefined.
Proof.
  intros Hv Hn Hp. rewrite percentile_nonempty; [| exact Hv | lia].
  assert (Hpos : 0 < Z.of_nat (length v) < 2 ^ 53).
  { destruct v; [congruence |]. cbn [length] in *. lia. }
  destruct (double_of_small _ Hpos) as (M & E & Hd & _).
  assert (Ht : truncate (p * double_of_Z (Z.of_nat (length v))) = None).
  { unfold truncate. rewrite mul_spec, Hd. unfold finite in Hp.
    destruct (Prim2SF p); try discriminate; reflexivity. }
  unfold size_t_of_double. rewrite Ht. reflexivity.
Qed.

Lemma percentile_needs_finite_p_witness :
  percentile [3; 1; 2]%float nan = Undefined /\
  percentile [3; 1; 2]%float infinity = Undefined.
Proof.
  split.
  - apply (percentile_needs_finite_p [3; 1; 2]%float nan);
      [discriminate | cbn; lia | reflexivity].
  - apply (percentile_needs_finite_p [3; 1; 2]%float infinity);
      [discriminate | cbn; lia | reflexivity].
Defined.

(** ** The producer thread: routing *)

Section ProducerRouting.

Variable cfg : Config.


(** X17: a routing entry is used as it is. When the entry of the drawn
    type is not the index of a Stage-1 queue, the pass of the producer
    indexes the vector of queues out of range: its behaviour is
    undefined. *)
Theorem stray_entry_pass_undefined (pid : Z) (t : tick) (st : producer_state) (d : Z) :
  index (stage1_routing cfg) (wrap8 (drawn t)) = Ok d ->
  ~ 0 <= d < Z.of_nat (length (meanwhile t (stage1_queues st))) ->
  producer_body cfg pid t st = Undefined.
Proof.
  intros Hd Hout. unfold producer_body. cbn [msg_type]. rewrite Hd.
  cbn [mbind outcome_bind]. unfold index.
  destruct (Z.leb_spec 0 d); [| reflexivity].
  destruct (meanwhile t (stage1_queues st) !! Z.to_nat d) as [q |] eqn:Hq;
    [| reflexivity].
  apply lookup_lt_Some in Hq. lia.
Qed.

(** X18: when a push is accepted and no other producer is inside [push]
    on the same queue during the call, the message is at the back of the
    queue its type is routed to: that queue holds what the processor has
    left of what it held when the producer reached it, followed by the
    message. Between producers that push the same queue at the same time
    this need not hold. In either case the producer touched no other
    queue. *)
Theorem accepted_message_is_queued (pid : Z) (t : tick) (st st' : producer_state)
    (m : Message) :
  Forall (SPSC.wf QUEUE_SIZE) (meanwhile t (stage1_queues st)) ->
  sole_pusher (pushing t) ->
  producer_body cfg pid t st = Ok (m, true, st') ->
  exists (d : Z) (q q' : Queue) (n : nat),
    index (stage1_routing cfg) (msg_type m) = Ok d /\
    index (meanwhile t (stage1_queues st)) d = Ok q /\
    index (stage1_queues st') d = Ok q' /\
    SPSC.wf QUEUE_SIZE q' /\
    SPSC.contents QUEUE_SIZE q' = drop n (SPSC.contents QUEUE_SIZE q) ++ [Some m] /\
    forall j : nat,
      j <> Z.to_nat d ->
      stage1_queues st' !! j = meanwhile t (stage1_queues st) !! j.
Proof.
  intros Hwf Hsole E. apply producer_body_ok in E
    as (_ & _ & _ & d & q & Hd & Hq & Hok & Hqs).
  assert (Hq_wf : SPSC.wf QUEUE_SIZE q).
  { rewrite Forall_forall in Hwf. apply Hwf. apply index_ok in Hq as [_ Hq].
    eapply list_elem_of_lookup_2. exact Hq. }
  destruct (racing_push_appends (pushing t) q m Hq_wf Hsole (eq_sym Hok))
    as (n & Hwf' & Hc).
  exists d, q, (snd (racing_push (pushing t) q m)), n.
  split; [exact Hd | split; [exact Hq |]].
  split; [rewrite Hqs; eapply index_insert; exact Hq |].
  split; [exact Hwf' | split; [exact Hc |]].
  intros j Hj. rewrite Hqs. apply list_lookup_insert_ne. congruence.
Qed.

(** X19: [producer_id] is eight bits wide. Two producers whose indices
    differ by a multiple of 256 stamp the same id: from the same state and
    the same tick their passes are the same, message included. *)
Theorem producer_ids_alias (pid k : Z) (t : tick) (st : producer_state) :
  producer_body cfg (pid + 256 * k) t st = producer_body cfg pid t st.
Proof.
  unfold producer_body.
  replace (wrap8 (pid + 256 * k)) with (wrap8 pid); [reflexivity |].
  unfold wrap8. rewrite Z.mul_comm, Z.mod_add by lia. reflexivity.
Qed.

End ProducerRouting.


Lemma stray_entry_pass_undefined_witness :
  producer_body (mkConfig 1 1 1 1 [5; 0; 0; 0; 0; 0; 0; 0] (replicate 8 0))
    0 (quiet_tick 0 1000)
    {| seq_ := 0; stage1_queues := [empty_queue zero_message]; produced := 0 |}
  = Undefined.
Proof.
  apply (stray_entry_pass_undefined
           (mkConfig 1 1 1 1 [5; 0; 0; 0; 0; 0; 0; 0] (replicate 8 0))
           0 (quiet_tick 0 1000)
           {| seq_ := 0; stage1_queues := [empty_queue zero_message]; produced := 0 |}
           5).
  - reflexivity.
  - cbn. lia.
Defined.

Lemma accepted_message_is_queued_witness :
  let st := {| seq_ := 0; stage1_queues := [empty_queue zero_message]; produced := 0 |} in
  let m := built 0 (quiet_tick 3 1000) 0 in
  exists st' q',
    producer_body flat_config 0 (quiet_tick 3 1000) st = Ok (m, true, st') /\
    index (stage1_queues st') 0 = Ok q' /\
    SPSC.contents QUEUE_SIZE q' = [Some m].
Proof.
  intros st m.
  assert (H : exists st',
             producer_body flat_config 0 (quiet_tick 3 1000) st = Ok (m, true, st')).
  { eexists. vm_compute. reflexivity. }
  destruct H as (st' & H).
  assert (Hwf : Forall (SPSC.wf QUEUE_SIZE)
                  (meanwhile (quiet_tick 3 1000) (stage1_queues st))).
  { constructor; [| constructor]. unfold SPSC.wf. vm_compute.
    repeat split; congruence. }
  destruct (accepted_message_is_queued flat_config 0 (quiet_tick 3 1000) st st' m Hwf
              calm_sole_pusher H)
    as (d & q & q' & n & Hd & Hq & Hq' & _ & Hc & _).
  assert (d = 0) by (vm_compute in Hd; congruence). subst d.
  assert (q = empty_queue zero_message).
  { change (@Ok Queue (empty_queue zero_message) = Ok q) in Hq. congruence. }
  subst q.
  exists st', q'. split; [exact H | split; [exact Hq' |]].
  rewrite Hc.
  change (SPSC.contents QUEUE_SIZE (empty_queue zero_message)) with (@nil (option Message)).
  rewrite drop_nil. reflexivity.
Defined.

(** ** From producer to strategy *)

Lemma through_empty_queue (q : Queue) (m out : Message) :
  SPSC.wf QUEUE_SIZE q ->
  SPSC.head_ q = SPSC.tail_ q ->
  exists q1 q2,
    SPSC.push QUEUE_SIZE q m = (true, q1) /\
    SPSC.pop QUEUE_SIZE q1 out = (true, m, q2) /\
    SPSC.wf QUEUE_SIZE q2 /\
    SPSC.head_ q2 = SPSC.tail_ q2.
Proof.
  intros Hq He.
  pose proof QUEUE_SIZE_range as HC.
  assert (HC2 : 2 <= QUEUE_SIZE).
  { unfold QUEUE_SIZE. change (Z.shiftl 1 14) with 16384. lia. }
  assert (Hsz : SPSC.size QUEUE_SIZE q = 0) by (apply (empty_size QUEUE_SIZE HC q Hq); exact He).
  assert (Hok : fst (SPSC.push QUEUE_SIZE q m) = true).
  { apply (push_accepted_below QUEUE_SIZE HC q m Hq). lia. }
  pose proof (push_wf QUEUE_SIZE HC q m Hq) as Hq1.
  pose proof (push_size QUEUE_SIZE HC q m Hq Hok) as Hsz1.
  pose proof (push_contents QUEUE_SIZE HC q m Hq Hok) as Hc1.
  assert (Hc0 : SPSC.contents QUEUE_SIZE q = []).
  { apply nil_length_inv. pose proof (contents_length QUEUE_SIZE HC q Hq). lia. }
  rewrite Hc0 in Hc1. cbn [app] in Hc1.
  destruct (SPSC.push QUEUE_SIZE q m) as [ok q1] eqn:Hpush. cbn [fst snd] in *.
  subst ok.
  assert (Hpop : fst (fst (SPSC.pop QUEUE_SIZE q1 out)) = true).
  { destruct (fst (fst (SPSC.pop QUEUE_SIZE q1 out))) eqn:E; [reflexivity |].
    apply pop_empty_iff in E. apply (empty_size QUEUE_SIZE HC q1 Hq1) in E. lia. }
  pose proof (pop_wf QUEUE_SIZE HC q1 out Hq1) as Hq2.
  pose proof (pop_size QUEUE_SIZE HC q1 out Hq1 Hpop) as Hsz2.
  pose proof (pop_contents QUEUE_SIZE HC q1 out Hq1 Hpop) as Hc2.
  destruct (SPSC.pop QUEUE_SIZE q1 out) as [[ok x] q2] eqn:Hpop'. cbn [fst snd] in *.
  subst ok. rewrite Hc1 in Hc2.
  assert (x = m) by congruence. subst x.
  exists q1, q2. split; [reflexivity | split; [exact Hpop' | split; [exact Hq2 |]]].
  apply (empty_size QUEUE_SIZE HC q2 Hq2). lia.
Qed.

Lemma producer_body_eq (cfg : Config) (pid : Z) (t : tick) (st : producer_state) :
  producer_body cfg pid t st =
  (proc_id ← index (stage1_routing cfg) (wrap8 (drawn t));
   q ← index (meanwhile t (stage1_queues st)) proc_id;
   Ok (built pid t (seq_ st),
       fst (racing_push (pushing t) q (built pid t (seq_ st))),
       {| seq_ := wrap32 (seq_ st + 1);
          stage1_queues :=
            <[Z.to_nat proc_id :=
                snd (racing_push (pushing t) q (built pid t (seq_ st)))]>
              (meanwhile t (stage1_queues st));
          produced :=
            if fst (racing_push (pushing t) q (built pid t (seq_ st)))
            then wrap64 (produced st + 1) else produced st |})).
Proof.
  unfold producer_body. fold (built pid t (seq_ st)).
  destruct (index (stage1_routing cfg) _) as [proc_id | |]; cbn [mbind outcome_bind];
    try reflexivity.
  destruct (index _ proc_id) as [q | |]; cbn [mbind outcome_bind]; try reflexivity.
  destruct (racing_push (pushing t) q (built pid t (seq_ st))) as [ok q']. reflexivity.
Qed.

Lemma processor_body_forwards (cfg : Config) (proc_id e : Z) (t : Processor.tick)
    (st : Processor.state) (q q' q2 q2' : Queue) (m : Message)
    (r : Processor.retry) (turns : list Processor.retry) :
  index (Processor.meanwhile t (Processor.stage1_queues st)) proc_id = Ok q ->
  SPSC.pop QUEUE_SIZE q (Processor.msg st) = (true, m, q') ->
  index (stage2_routing cfg) (msg_type m) = Ok e ->
  Processor.retries t = r :: turns ->
  index (Processor.before_push r (Processor.stage2_queues st)) e = Ok q2 ->
  racing_push (Processor.pushing r) q2 (stamped m proc_id (Processor.clock t))
    = (true, q2') ->
  Processor.body cfg proc_id t st =
  Ok (Processor.Forwarded (stamped m proc_id (Processor.clock t)) e,
      {| Processor.msg := stamped m proc_id (Processor.clock t);
         Processor.stage1_queues :=
           <[Z.to_nat proc_id := q']>
             (Processor.meanwhile t (Processor.stage1_queues st));
         Processor.stage2_queues :=
           <[Z.to_nat e := q2']>
             (Processor.before_push r (Processor.stage2_queues st));
         Processor.processed := wrap64 (Processor.processed st + 1) |}).
Proof.
  intros Hq Hpop He Hturns Hq2 Hpush. unfold Processor.body.
  rewrite Hq. cbn [mbind outcome_bind]. rewrite Hpop.
  fold (stamped m proc_id (Processor.clock t)).
  change (msg_type (stamped m proc_id (Processor.clock t))) with (msg_type m).
  rewrite He. cbn [mbind outcome_bind]. rewrite Hturns. cbn [Processor.forward].
  rewrite Hq2. cbn [mbind outcome_bind]. rewrite Hpush. reflexivity.
Qed.

(** X20: one message through the pipeline. When the queues on its route
    are empty and the other threads leave them alone, also while the two
    pushes run, a pass of the
    producer, a pass of the processor its type is routed to and a pass of
    the strategy its type is routed to hand the message on: the strategy
    receives what the producer built, with the processor's index and pop
    time written into it, each of the three counters goes up by one, and the
    sample added to the total series is the strategy's clock minus the
    producer's clock, in microseconds. *)
Theorem message_journey
    (cfg : Config) (pid seq d e : Z)
    (tp : tick) (tr : Processor.tick) (ts : Strategy.tick)
    (r : Processor.retry) (turns : list Processor.retry)
    (queues1 queues2 : list Queue) (q1 q2 : Queue)
    (produced0 processed0 delivered0 : Z) (m0 m1 : Message) (lat : LatencyStats) :
  index (stage1_routing cfg) (wrap8 (drawn tp)) = Ok d ->
  index (stage2_routing cfg) (wrap8 (drawn tp)) = Ok e ->
  index queues1 d = Ok q1 ->
  SPSC.wf QUEUE_SIZE q1 -> SPSC.head_ q1 = SPSC.tail_ q1 ->
  index queues2 e = Ok q2 ->
  SPSC.wf QUEUE_SIZE q2 -> SPSC.head_ q2 = SPSC.tail_ q2 ->
  (forall qs, meanwhile tp qs = qs) ->
  pushing tp = calm ->
  (forall qs, Processor.meanwhile tr qs = qs) ->
  Processor.retries tr = r :: turns ->
  (forall qs, Processor.before_push r qs = qs) ->
  Processor.pushing r = calm ->
  (forall qs, Strategy.meanwhile ts qs = qs) ->
  (forall l, Strategy.others ts l = l) ->
  let m := built pid tp seq in
  let m' := stamped m d (Processor.clock tr) in
  exists st1 st2 st3,
    producer_body cfg pid tp
      {| seq_ := seq; stage1_queues := queues1; produced := produced0 |}
    = Ok (m, true, st1) /\
    Processor.body cfg d tr
      {| Processor.msg := m0; Processor.stage1_queues := stage1_queues st1;
         Processor.stage2_queues := queues2; Processor.processed := processed0 |}
    = Ok (Processor.Forwarded m' e, st2) /\
    Strategy.body e ts
      {| Strategy.msg := m1; Strategy.stage2_queues := Processor.stage2_queues st2;
         Strategy.latencies := lat; Strategy.delivered := delivered0 |}
    = Ok (Some m', st3) /\
    produced st1 = wrap64 (produced0 + 1) /\
    Processor.processed st2 = wrap64 (processed0 + 1) /\
    Strategy.delivered st3 = wrap64 (delivered0 + 1) /\
    total_us (Strategy.latencies st3) =
      total_us lat
      ++ [(double_of_Z (wrap64 (Strategy.clock ts - clock tp)) / 1000)%float].
Proof.
  intros Hd He Hq1 Hwf1 Hempty1 Hq2 Hwf2 Hempty2 Hp Hpc Hr Hturns Hb Hrc Hs Ho m m'.
  destruct (through_empty_queue q1 m m0 Hwf1 Hempty1)
    as (q1' & q1'' & Hpush1 & Hpop1 & _ & _).
  destruct (through_empty_queue q2 m' m1 Hwf2 Hempty2)
    as (q2' & q2'' & Hpush2 & Hpop2 & _ & _).
  subst m m'.
  eexists. eexists. eexists.
  split.
  { rewrite producer_body_eq. rewrite Hd. cbn [mbind outcome_bind].
    cbn [seq_ stage1_queues produced]. rewrite Hp, Hq1. cbn [mbind outcome_bind].
    rewrite Hpc, racing_push_calm, Hpush1. reflexivity. }
  cbn [stage1_queues produced].
  split.
  { apply (processor_body_forwards cfg d e tr _ q1' q1'' q2 q2' _ r turns).
    - cbn [Processor.stage1_queues]. rewrite Hr. eapply index_insert. exact Hq1.
    - exact Hpop1.
    - exact He.
    - exact Hturns.
    - cbn [Processor.stage2_queues]. rewrite Hb. exact Hq2.
    - rewrite Hrc, racing_push_calm. exact Hpush2. }
  cbn [Processor.stage2_queues Processor.processed].
  split.
  { unfold Strategy.body.
    cbn [Strategy.msg Strategy.stage2_queues Strategy.latencies Strategy.delivered].
    rewrite Hs, Hb, (index_insert _ _ _ q2' Hq2). cbn [mbind outcome_bind].
    rewrite Hpop2. reflexivity. }
  cbn [Strategy.latencies Strategy.delivered].
  split; [reflexivity | split; [reflexivity | split; [reflexivity |]]].
  rewrite Ho. reflexivity.
Qed.

Lemma message_journey_witness :
  let tp := quiet_tick 2 1000 in
  let tr := Processor.mkTick false (fun qs => qs) 4000
              [Processor.mkRetry (fun qs => qs) calm false] in
  let ts := Strategy.mkTick false (fun qs => qs) 9000 (fun l => l) in
  let m' := stamped (built 0 tp 7) 0 4000 in
  exists st1 st2 st3,
    producer_body flat_config 0 tp
      {| seq_ := 7; stage1_queues := [empty_queue zero_message]; produced := 0 |}
    = Ok (built 0 tp 7, true, st1) /\
    Processor.body flat_config 0 tr
      {| Processor.msg := zero_message; Processor.stage1_queues := stage1_queues st1;
         Processor.stage2_queues := [empty_queue zero_message];
         Processor.processed := 0 |}
    = Ok (Processor.Forwarded m' 0, st2) /\
    Strategy.body 0 ts
      {| Strategy.msg := zero_message;
         Strategy.stage2_queues := Processor.stage2_queues st2;
         Strategy.latencies := mkStats [] [] [] []; Strategy.delivered := 0 |}
    = Ok (Some m', st3) /\
    total_us (Strategy.latencies st3) = [8%float].
Proof.
  intros tp tr ts m'.
  assert (Hwf : SPSC.wf QUEUE_SIZE (empty_queue zero_message)).
  { unfold SPSC.wf. vm_compute. repeat split; congruence. }
  destruct (message_journey flat_config 0 7 0 0 tp tr ts
              (Processor.mkRetry (fun qs => qs) calm false) []
              [empty_queue zero_message] [empty_queue zero_message]
              (empty_queue zero_message) (empty_queue zero_message)
              0 0 0 zero_message zero_message (mkStats [] [] [] [])
              eq_refl eq_refl eq_refl Hwf eq_refl eq_refl Hwf eq_refl
              (fun _ => eq_refl) eq_refl (fun _ => eq_refl) eq_refl
              (fun _ => eq_refl) eq_refl (fun _ => eq_refl) (fun _ => eq_refl))
    as (st1 & st2 & st3 & H1 & H2 & H3 & _ & _ & _ & Ht).
  exists st1, st2, st3.
  split; [exact H1 | split; [exact H2 | split; [exact H3 |]]].
  rewrite Ht. vm_compute. reflexivity.
Defined.

(** ** The queue of owning pointers: every object has one owner *)

Section Ownership.

Context {P : Type}.
Variable C : Z.
Hypothesis C_pos : 0 < C.

Lemma omap_id_cons (x : option P) (l : list (option P)) :
  omap id (x :: l) = option_list x ++ omap id l.
Proof. destruct x; reflexivity. Qed.

(** Overwriting a slot trades what it owned for what is written. *)
Lemma owned_insert (l : list (option P)) :
  forall (i : nat) (x old : option P),
    l !! i = Some old ->
    omap id (<[i := x]> l) ++ option_list old ≡ₚ option_list x ++ omap id l.
Proof.
  induction l as [| o l IH]; intros i x old Hi.
  - rewrite lookup_nil in Hi. discriminate.
  - destruct i as [| i].
    + cbn in Hi. inversion Hi; subst o. cbn [insert list_insert].
      rewrite !omap_id_cons, <- app_assoc. f_equiv. apply Permutation_app_comm.
    + cbn in Hi. cbn [insert list_insert]. rewrite !omap_id_cons.
      rewrite <- app_assoc, (IH i x old Hi), !app_assoc. f_equiv.
      apply Permutation_app_comm.
Qed.

Lemma slot_lookup (l : list (option P)) (i : Z) :
  0 <= i < Z.of_nat (length l) -> l !! Z.to_nat i = Some (Owning.slot l i).
Proof.
  intros Hi. unfold Owning.slot.
  destruct (lookup_lt_is_Some_2 l (Z.to_nat i) ltac:(lia)) as [x Hx].
  rewrite Hx. reflexivity.
Qed.

Lemma ownership_step (s : Owning.system P) (c : Owning.call P) :
  Owning.inv C s -> Owning.inv C (Owning.step C s c).
Proof.
  intros ((Hlen & Hh & Ht) & Hperm). unfold Owning.inv, Owning.owned in *.
  destruct c as [p |]; unfold Owning.step.
  - unfold Owning.push.
    destruct (_ =? _); cbn [Owning.queue Owning.held Owning.allocated Owning.freed].
    + split; [split; [exact Hlen | split; [exact Hh | exact Ht]] |].
      rewrite Hperm. cbn [option_list]. solve_Permutation.
    + cbn [Owning.buffer_ Owning.head_ Owning.tail_]. split.
      * unfold Owning.wf. cbn [Owning.buffer_ Owning.head_ Owning.tail_].
        rewrite length_insert.
        split; [exact Hlen | split; [apply Z.mod_pos_bound; lia | exact Ht]].
      * pose proof (owned_insert (Owning.buffer_ (Owning.queue s))
                      (Z.to_nat (Owning.head_ (Owning.queue s))) (Some p) _
                      (slot_lookup (Owning.buffer_ (Owning.queue s))
                         (Owning.head_ (Owning.queue s)) ltac:(lia))) as Hins.
        cbn [option_list app] in Hins.
        rewrite Hperm, <- !app_assoc. f_equiv.
        rewrite (app_assoc (option_list _)),
          (Permutation_app_comm (option_list _) (omap id _)), Hins.
        solve_Permutation.
  - unfold Owning.pop.
    destruct (_ =? _); cbn [Owning.queue Owning.held Owning.allocated Owning.freed].
    + split; [split; [exact Hlen | split; [exact Hh | exact Ht]] |].
      rewrite app_nil_r. exact Hperm.
    + cbn [Owning.buffer_ Owning.head_ Owning.tail_]. split.
      * unfold Owning.wf. cbn [Owning.buffer_ Owning.head_ Owning.tail_].
        rewrite length_insert.
        split; [exact Hlen | split; [exact Hh | apply Z.mod_pos_bound; lia]].
      * pose proof (owned_insert (Owning.buffer_ (Owning.queue s))
                      (Z.to_nat (Owning.tail_ (Owning.queue s))) None _
                      (slot_lookup (Owning.buffer_ (Owning.queue s))
                         (Owning.tail_ (Owning.queue s)) ltac:(lia))) as Hins.
        cbn [option_list app] in Hins.
        rewrite Hperm, Hins. solve_Permutation.
Qed.

Lemma ownership_run (calls : list (Owning.call P)) :
  forall s : Owning.system P, Owning.inv C s -> Owning.inv C (Owning.run C calls s).
Proof.
  induction calls as [| c calls IH]; intros s Hs; [exact Hs |].
  cbn [Owning.run fold_left]. apply IH. apply ownership_step. exact Hs.
Qed.

Lemma allocated_run (calls : list (Owning.call P)) :
  forall s : Owning.system P,
    Owning.allocated (Owning.run C calls s) = Owning.allocated s ++ Owning.made calls.
Proof.
  induction calls as [| c calls IH]; intros s.
  - cbn. rewrite app_nil_r. reflexivity.
  - cbn [Owning.run fold_left]. fold (Owning.run C calls (Owning.step C s c)).
    rewrite IH. destruct c as [p |]; unfold Owning.step.
    + destruct (Owning.push C (Owning.queue s) (Some p)) as [[ok q'] dead].
      cbn [Owning.allocated]. rewrite <- app_assoc. reflexivity.
    + destruct (Owning.pop C (Owning.queue s) (Owning.held s))
        as [[[ok item'] q'] dead].
      reflexivity.
Qed.

Lemma ownership_start : Owning.inv C (Owning.start C : Owning.system P).
Proof.
  unfold Owning.inv, Owning.start, Owning.owned, Owning.new, Owning.wf. cbn.
  split.
  - rewrite length_replicate. lia.
  - rewrite app_nil_r. induction (Z.to_nat C) as [| n IH]; [reflexivity | exact IH].
Qed.

End Ownership.

(** X21: in the allocation benchmark every message has exactly one owner.
    Whatever pushes of freshly made messages and pops are made, one call
    after the other, each message made so far is either destroyed, or owned by one slot of
    the ring, or owned by the consumer's variable, and by one of them only:
    no message is destroyed twice, none is destroyed while something owns
    it, and none is lost. A message whose push is refused is destroyed. *)
Theorem every_message_has_one_owner {P : Type} (C : Z) (calls : list (Owning.call P)) :
  0 < C ->
  NoDup (Owning.made calls) ->
  let s := Owning.run C calls (Owning.start C) in
  Owning.made calls ≡ₚ Owning.freed s ++ Owning.owned s /\
  NoDup (Owning.freed s ++ Owning.owned s) /\
  (forall (q : Owning.SPSCQueue P) (p : P),
     fst (fst (Owning.push C q (Some p))) = false ->
     snd (Owning.push C q (Some p)) = [p]).
Proof.
  intros HC Hfresh s.
  destruct (ownership_run C HC calls _ (ownership_start C HC)) as (_ & Hperm).
  fold s in Hperm. unfold s in Hperm at 1. rewrite allocated_run in Hperm.
  cbn [Owning.start Owning.allocated app] in Hperm.
  split; [exact Hperm |]. split; [rewrite <- Hperm; exact Hfresh |].
  intros q p. unfold Owning.push. destruct (_ =? _); cbn; [reflexivity | discriminate].
Qed.

Lemma every_message_has_one_owner_witness :
  let s := Owning.run 2 [Owning.Push 1; Owning.Push 2; Owning.Pop; Owning.Push 3;
                         Owning.Pop; Owning.Pop]
             (Owning.start 2) in
  Owning.freed s = [2; 1] /\ Owning.owned s = [3] /\
  NoDup (Owning.freed s ++ Owning.owned s).
Proof.
  split; [reflexivity | split; [reflexivity |]].
  apply (every_message_has_one_owner 2
           [Owning.Push 1; Owning.Push 2; Owning.Pop; Owning.Push 3;
            Owning.Pop; Owning.Pop]).
  - lia.
  - apply (bool_decide_unpack _). vm_compute. exact I.
Defined.
